(** * swagger-generate: conversion core of swagger2idl and thrift-gen-http-swagger

    A shallow embedding of
    - [swagger2idl/protobuf]  (the intermediate proto tree),
    - [swagger2idl/converter] (OpenAPI -> proto tree),
    - [swagger2idl/generate]  (proto tree -> proto3 text),
    - [thrift-gen-http-swagger/generator/openapi_gen.go]
      (request-body assembly and the struct-expansion worklist),
    followed by the properties established about them.

    Conventions.
    - A Go [map] that the code ranges over is an association list whose
      order is the order in which that [range] visits the entries.  Go leaves
      this order unspecified, so two runs on the same map may see two
      different permutations of the same list.
    - A pointer that may be [nil] is an [option]; dereferencing [nil] is the
      outcome [Panic].
    - Functions of other libraries (fmt verbs, strcase, reflection over
      struct tags, the thriftgo descriptors) are members of the classes
      [GoLib] and [Reflection]; nothing is assumed about them. *)

From Stdlib Require Import List String Ascii Bool Arith ZArith Lia.
From Stdlib Require Import Permutation Sorted DecimalString.
Import ListNotations.

#[local] Set Warnings "-register-all".

Local Open Scope string_scope.
Local Open Scope list_scope.

Infix "+++" := String.append (right associativity, at level 60).

(** ** Outcomes of fallible code *)

Inductive result (A : Type) : Type :=
| Ok (a : A)
| Err (e : string)
| Panic.

Arguments Ok {A} a.
Arguments Err {A} e.
Arguments Panic {A}.

Definition bind {A B : Type} (r : result A) (k : A -> result B) : result B :=
  match r with
  | Ok a => k a
  | Err e => Err e
  | Panic => Panic
  end.

Notation "'let*' x ':=' r 'in' k" := (bind r (fun x => k))
  (at level 10, x pattern, r at level 100, k at level 200).

(** [fmt.Errorf("...: %w", err)] *)
Definition wrap (prefix : string) {A : Type} (r : result A) : result A :=
  match r with
  | Err e => Err (prefix +++ e)
  | other => other
  end.

(** ** package protobuf *)

(** The dynamic values an [Option.Value interface{}] is inspected for by
    [encodeFieldOption] and [utils.Stringify]. *)
Inductive GoValue : Type :=
| VString (s : string)
| VInt (z : Z)
| VStrings (l : list string)
| VList (l : list GoValue)
| VMap (m : list (string * GoValue)).

Record ProtoOption : Type := mkOption {
  opt_Name : string;
  opt_Value : GoValue
}.

Record ProtoEnum : Type := mkEnum {
  enum_Name : string;
  enum_Values : list (string * Z);
  enum_Options : list ProtoOption
}.

(** [ProtoField]; its [OneOf], [Fields], [Messages] and [Enums] members are
    never written or read by the converter or the encoder. *)
Record ProtoField : Type := mkField {
  f_Name : string;
  f_Type : string;
  f_Repeated : bool;
  f_Options : list ProtoOption
}.

Inductive ProtoMessage : Type := mkMessage {
  m_Name : string;
  m_Fields : list ProtoField;
  m_Messages : list ProtoMessage;
  m_Enums : list ProtoEnum;
  m_Options : list ProtoOption
}.

Record ProtoMethod : Type := mkMethod {
  meth_Name : string;
  meth_Input : string;
  meth_Output : string;
  meth_Options : list ProtoOption
}.

Record ProtoService : Type := mkService {
  svc_Name : string;
  svc_Methods : list ProtoMethod;
  svc_Options : list ProtoOption
}.

Record ProtoFile : Type := mkProtoFile {
  PackageName : string;
  Messages : list ProtoMessage;
  Services : list ProtoService;
  Enums : list ProtoEnum;
  Imports : list string;
  Options : list (string * string)
}.

(** [&protobuf.ProtoMessage{Name: name}] and [&protobuf.ProtoField{Name, Type}] *)
Definition newMessage (name : string) : ProtoMessage :=
  mkMessage name [] [] [] [].

Definition newField (name type : string) : ProtoField :=
  mkField name type false [].

Definition set_Fields (m : ProtoMessage) (fs : list ProtoField) : ProtoMessage :=
  mkMessage (m_Name m) fs (m_Messages m) (m_Enums m) (m_Options m).

Definition set_Messages (m : ProtoMessage) (ms : list ProtoMessage) : ProtoMessage :=
  mkMessage (m_Name m) (m_Fields m) ms (m_Enums m) (m_Options m).

(** ** package converter: state *)

Record ConvertOption : Type := mkConvertOption {
  openapiOption : bool;
  apiOption : bool
}.

(** [ProtoConverter]; [NewProtoConverter] is the only constructor and always
    allocates the file, so [ProtoFile] is not optional here. *)
Record ProtoConverter : Type := mkConverter {
  ProtoFile_ : ProtoFile;
  converterOption : ConvertOption
}.

Definition apiProtoFile : string := "api.proto".
Definition openapiProtoFile : string := "openapi.proto".
Definition EmptyProtoFile : string := "google.protobuf.empty".

Definition NewProtoConverter (packageName : string) : ProtoConverter :=
  mkConverter (mkProtoFile packageName [] [] [] [] [])
              (mkConvertOption false true).

Definition set_Imports (c : ProtoConverter) (imports : list string) : ProtoConverter :=
  let p := ProtoFile_ c in
  mkConverter
    (mkProtoFile (PackageName p) (Messages p) (Services p) (Enums p) imports (Options p))
    (converterOption c).

Definition set_FileMessages (c : ProtoConverter) (ms : list ProtoMessage) : ProtoConverter :=
  let p := ProtoFile_ c in
  mkConverter
    (mkProtoFile (PackageName p) ms (Services p) (Enums p) (Imports p) (Options p))
    (converterOption c).

Definition set_Services (c : ProtoConverter) (ss : list ProtoService) : ProtoConverter :=
  let p := ProtoFile_ c in
  mkConverter
    (mkProtoFile (PackageName p) (Messages p) ss (Enums p) (Imports p) (Options p))
    (converterOption c).

(** Membership of a name in a list, the test behind every
    [for ... { if x.Name == name ... }] and [map[string]struct{}] lookup. *)
Definition hasName (name : string) (names : list string) : bool :=
  existsb (String.eqb name) names.

(** [AddProtoImport] *)
Definition AddProtoImport (importFile : string) (c : ProtoConverter) : ProtoConverter :=
  if hasName importFile (Imports (ProtoFile_ c)) then c
  else set_Imports c (Imports (ProtoFile_ c) ++ [importFile]).

(** [addFieldIfNotExists], [addMessageIfNotExists] *)
Definition addFieldIfNotExists (fields : list ProtoField) (field : ProtoField) : list ProtoField :=
  if hasName (f_Name field) (map f_Name fields) then fields else fields ++ [field].

Definition addMessageIfNotExists (messages : list ProtoMessage) (nestedMessage : ProtoMessage)
  : list ProtoMessage :=
  if hasName (m_Name nestedMessage) (map m_Name messages) then messages
  else messages ++ [nestedMessage].

(** [addNestedMessageToParent]: a [nil] parent is left alone. *)
Definition addNestedMessageToParent (parentMessage : option ProtoMessage)
  (nestedMessage : ProtoMessage) : option ProtoMessage :=
  match parentMessage with
  | Some parent => Some (set_Messages parent (m_Messages parent ++ [nestedMessage]))
  | None => None
  end.

(** One of the four merge loops of [addMessageToProto]: the set of names is
    taken from the existing list before the loop and is not extended while
    the new entries are appended. *)
Definition mergeByName {A : Type} (name : A -> string) (existing new : list A) : list A :=
  let names := map name existing in
  existing ++ filter (fun x => negb (hasName (name x) names)) new.

Definition mergeMessage (existingMessage message : ProtoMessage) : ProtoMessage :=
  mkMessage (m_Name existingMessage)
    (mergeByName f_Name (m_Fields existingMessage) (m_Fields message))
    (mergeByName m_Name (m_Messages existingMessage) (m_Messages message))
    (mergeByName enum_Name (m_Enums existingMessage) (m_Enums message))
    (mergeByName opt_Name (m_Options existingMessage) (m_Options message)).

(** The search loop of [addMessageToProto] together with the in-place
    update through the pointer it finds: the first message of that name is
    replaced by the merge; [None] when no message has the name. *)
Fixpoint mergeIntoExisting (message : ProtoMessage) (msgs : list ProtoMessage)
  : option (list ProtoMessage) :=
  match msgs with
  | [] => None
  | msg :: rest =>
      if m_Name msg =? m_Name message
      then Some (mergeMessage msg message :: rest)
      else option_map (cons msg) (mergeIntoExisting message rest)
  end.

(** [addMessageToProto] (it always returns a nil error) *)
Definition addMessageToProto (message : ProtoMessage) (c : ProtoConverter) : ProtoConverter :=
  match mergeIntoExisting message (Messages (ProtoFile_ c)) with
  | Some ms => set_FileMessages c ms
  | None => set_FileMessages c (Messages (ProtoFile_ c) ++ [message])
  end.

(** What a merge by name leaves: the existing entries where they were,
    followed by the new entries whose name no existing entry has. *)
Definition unionByName {A : Type} (name : A -> string) (existing new merged : list A) : Prop :=
  exists added,
    merged = existing ++ added
    /\ (forall x, In x added <-> In x new /\ ~ In (name x) (map name existing)).

(** The import list only grows, and stays free of duplicates if it was. *)
Definition importsGrow (c c' : ProtoConverter) : Prop :=
  (NoDup (Imports (ProtoFile_ c)) -> NoDup (Imports (ProtoFile_ c')))
  /\ (forall x, In x (Imports (ProtoFile_ c)) -> In x (Imports (ProtoFile_ c'))).

(** A message that kept its name, enums and options and lost no field and
    no nested message. *)
Definition extendsMessage (m m' : ProtoMessage) : Prop :=
  m_Name m' = m_Name m
  /\ incl (m_Fields m) (m_Fields m')
  /\ incl (m_Messages m) (m_Messages m')
  /\ m_Enums m' = m_Enums m
  /\ m_Options m' = m_Options m.

(** ** package openapi3 (kin-openapi): what the converter reads of a loaded document *)

Record SchemaOf (R : Type) : Type := mkSchema {
  Type_ : option (list string);       (* pointer to [Types]; nil when the schema has no type *)
  Format : string;
  Items : option R;
  Properties : list (string * R);     (* [Schemas], a map, in range order *)
  AdditionalProperties : option R     (* [AdditionalProperties.Schema] *)
}.

Arguments mkSchema {R}.
Arguments Type_ {R}.
Arguments Format {R}.
Arguments Items {R}.
Arguments Properties {R}.
Arguments AdditionalProperties {R}.

Inductive SchemaRef : Type := mkSchemaRef {
  Ref : string;
  Value : option (SchemaOf SchemaRef)
}.

Definition Schema : Type := SchemaOf SchemaRef.

(** [openapi3.Parameter] *)
Record Param : Type := mkParam {
  p_Name : string;
  p_Schema : option SchemaRef
}.

Record ParameterRef : Type := mkParameterRef {
  pr_Value : option Param
}.

Record MediaType : Type := mkMediaType {
  mt_Schema : option SchemaRef
}.

(** [Content], a map from media type to [*MediaType], in range order. *)
Definition Content : Type := list (string * MediaType).

Record RequestBodyRef : Type := mkRequestBodyRef {
  rb_Ref : string;
  rb_Value : option Content           (* [Value *RequestBody], of which only [Content] is read *)
}.

Record HeaderRef : Type := mkHeaderRef {
  h_Value : option (option SchemaRef) (* [Value *Header], of which only [Schema] is read *)
}.

Record Response : Type := mkResponse {
  resp_Headers : list (string * option HeaderRef);
  resp_Content : Content
}.

Record ResponseRef : Type := mkResponseRef {
  rr_Ref : string;
  rr_Value : option Response
}.

Record Operation : Type := mkOperation {
  OperationID : string;
  Tags : list string;
  Parameters : list ParameterRef;
  RequestBody : option RequestBodyRef;
  Responses : option (list (string * ResponseRef))  (* [Responses.Map()] in range order *)
}.

(** [Paths.Map()] in range order, each item with its [Operations()] (HTTP
    method to operation) in range order. *)
Definition Paths : Type := list (string * list (string * Operation)).

Record Components : Type := mkComponents {
  Schemas : list (string * SchemaRef)
}.

Record T : Type := mkT {
  spec_Components : option Components;
  spec_Paths : Paths
}.

(** [Types.Includes], on a non-nil list of type names *)
Definition Includes (types : list string) (typ : string) : bool :=
  existsb (fun candidate => candidate =? typ) types.

(** ** Library functions the code calls *)

Class GoLib : Type := {
  (** [strcase.ToCamel] *)
  ToCamel : string -> string;
  (** [fmt.Sprintf("%q", s)] *)
  Quote : string -> string;
  (** [fmt.Sprintf("%v", v)] *)
  FormatV : GoValue -> string;
  (** [fmt.Sprintf("%s", v)] on a value that is not a string *)
  FormatS : GoValue -> string;
  (** [strings.Title(strings.ToLower(s))] *)
  TitleOfLower : string -> string;
  (** [utils.StructToProtobuf(operation, indent)], a walk by [reflect] over
      the struct tags of [openapi3.Operation] *)
  StructToProtobuf : Operation -> string -> string
}.

(** ** package utils *)

(** [ExtractMessageNameFromRef]: the last part of [strings.Split(ref, "/")]. *)
Fixpoint lastPart (s acc : string) : string :=
  match s with
  | EmptyString => acc
  | String ch rest =>
      if Ascii.eqb ch "/" then lastPart rest "" else lastPart rest (acc +++ String ch "")
  end.

Definition ExtractMessageNameFromRef (ref : string) : string := lastPart ref "".

Definition GetServiceName (tags : list string) : string :=
  match tags with
  | tag :: _ => tag
  | [] => "DefaultService"
  end.

(** [\w] of Go's regexp syntax: [0-9A-Za-z_]. *)
Definition isWordChar (ch : ascii) : bool :=
  let n := nat_of_ascii ch in
  (((48 <=? n) && (n <=? 57)) || ((65 <=? n) && (n <=? 90))
   || ((97 <=? n) && (n <=? 122)) || (n =? 95))%nat.

(** [ConvertPath]: [ReplaceAllString] of [\{(\w+)\}] by [:$1], as a scan.
    [pending = Some w] after an opening brace followed by the word
    characters [w]; the match is completed by a closing brace when [w] is
    not empty and abandoned by any other character. *)
Fixpoint convertPathFrom (s : string) (pending : option string) : string :=
  match s with
  | EmptyString =>
      match pending with
      | Some w => "{" +++ w
      | None => ""
      end
  | String ch rest =>
      match pending with
      | None =>
          if Ascii.eqb ch "{" then convertPathFrom rest (Some "")
          else String ch (convertPathFrom rest None)
      | Some w =>
          if isWordChar ch then convertPathFrom rest (Some (w +++ String ch ""))
          else if Ascii.eqb ch "}" && negb (w =? "") then ":" +++ w +++ convertPathFrom rest None
          else if Ascii.eqb ch "{" then "{" +++ w +++ convertPathFrom rest (Some "")
          else "{" +++ w +++ String ch (convertPathFrom rest None)
      end
  end.

Definition ConvertPath (path : string) : string := convertPathFrom path None.

Definition methodToOption (method : string) : option string :=
  if method =? "GET" then Some "api.get"
  else if method =? "POST" then Some "api.post"
  else if method =? "PUT" then Some "api.put"
  else if method =? "PATCH" then Some "api.patch"
  else if method =? "DELETE" then Some "api.delete"
  else None.

(** What [ConvertSchemaToProtoFieldOrMessage] returns in its [interface{}]. *)
Inductive FieldOrMessage : Type :=
| IsField (v : ProtoField)
| IsMessage (v : ProtoMessage)
| IsNil.

(** The [switch v := fieldOrMessage.(type)] that follows each top-level
    conversion in [generateRequestMessage] and [processSingleResponse]. *)
Definition addFieldOrMessage (fieldOrMessage : FieldOrMessage) (message : ProtoMessage)
  : ProtoMessage :=
  match fieldOrMessage with
  | IsField v => set_Fields message (addFieldIfNotExists (m_Fields message) v)
  | IsMessage v => set_Messages message (addMessageIfNotExists (m_Messages message) v)
  | IsNil => message
  end.

(** The message a callee was handed a pointer to, as the callee left it. *)
Definition pointee (parent : option ProtoMessage) (message : ProtoMessage) : ProtoMessage :=
  match parent with
  | Some m => m
  | None => message
  end.

(** The branch of [ConvertSchemaToProtoFieldOrMessage] that builds a
    message is reached by the type lists that include "object" and none of
    the five types tested before it. *)
Definition reachesObjectBranch (types : list string) : bool :=
  negb (Includes types "string") && negb (Includes types "integer")
  && negb (Includes types "number") && negb (Includes types "boolean")
  && negb (Includes types "array") && Includes types "object".

(** The two effects a conversion has on its surroundings, as functions:
    nested messages appended to the parent message, imports registered in
    the file. *)
Definition attach (parent : option ProtoMessage) (nested : list ProtoMessage)
  : option ProtoMessage :=
  match parent with
  | Some p => Some (set_Messages p (m_Messages p ++ nested))
  | None => None
  end.

Definition addImports (imports : list string) (c : ProtoConverter) : ProtoConverter :=
  fold_left (fun c0 importFile => AddProtoImport importFile c0) imports c.

Definition grow (message : ProtoMessage) (fields : list ProtoField)
  (nested : list ProtoMessage) : ProtoMessage :=
  mkMessage (m_Name message) (m_Fields message ++ fields) (m_Messages message ++ nested)
            (m_Enums message) (m_Options message).

(** What the conversion of one property adds to the message of its object. *)
Definition contributes (propName : string) (r : FieldOrMessage)
  (fields : list ProtoField) (nested : list ProtoMessage) : Prop :=
  match r with
  | IsField v => In v fields
  | IsMessage nestedMessage =>
      In nestedMessage nested
      /\ In (newField (propName +++ "Field") (m_Name nestedMessage)) fields
  | IsNil => True
  end.

(** A converted schema is present, by name, in a message. *)
Definition holds (r : FieldOrMessage) (message : ProtoMessage) : Prop :=
  match r with
  | IsField v => In (f_Name v) (map f_Name (m_Fields message))
  | IsMessage v => In (m_Name v) (map m_Name (m_Messages message))
  | IsNil => True
  end.

(** A conversion does the same to every parent and every file, or fails on
    every one of them. *)
Definition shape
  (run : option ProtoMessage -> ProtoConverter
         -> result (FieldOrMessage * option ProtoMessage * ProtoConverter)) : Prop :=
  (exists r nested imports,
     forall parent c, run parent c = Ok (r, attach parent nested, addImports imports c))
  \/ (forall parent c, run parent c = Err "schema type is required").

(** Following the spec's words, "unioned into one message" with the first
    entry of a name kept: the entries of a list whose name no earlier entry
    has, in the order of the list; [seen] holds the names met so far. *)
Fixpoint firstOfEachNameFrom {A : Type} (name : A -> string) (seen : list string)
  (l : list A) : list A :=
  match l with
  | [] => []
  | x :: rest =>
      if hasName (name x) seen then firstOfEachNameFrom name seen rest
      else x :: firstOfEachNameFrom name (seen ++ [name x]) rest
  end.

Definition firstOfEachName {A : Type} (name : A -> string) (l : list A) : list A :=
  firstOfEachNameFrom name [] l.

(** What one conversion gives to the message it is made for: the field or
    message it returns, and the messages it hands to that message itself
    (the item messages of arrays). *)
Definition Converted : Type := (FieldOrMessage * list ProtoMessage)%type.

(** The fields among the results of a list of conversions. *)
Definition fieldsOf (results : list Converted) : list ProtoField :=
  flat_map (fun result => match fst result with IsField v => [v] | _ => [] end) results.

(** The nested messages a list of conversions leaves in a message that had
    [seen]: the messages handed over are appended as they come, a message
    that is the result of a conversion is appended unless a nested message
    of its name is there. *)
Fixpoint nestedOf (seen : list ProtoMessage) (results : list Converted) : list ProtoMessage :=
  match results with
  | [] => seen
  | (r, handed) :: rest =>
      let seen1 := seen ++ handed in
      nestedOf
        match r with
        | IsMessage v => if hasName (m_Name v) (map m_Name seen1) then seen1 else seen1 ++ [v]
        | _ => seen1
        end
        rest
  end.

(** A message after a list of conversions made for it. *)
Definition grown (message : ProtoMessage) (results : list Converted) : ProtoMessage :=
  mkMessage (m_Name message)
    (fold_left addFieldIfNotExists (fieldsOf results) (m_Fields message))
    (nestedOf (m_Messages message) results)
    (m_Enums message) (m_Options message).

Section Converter.

Context `{GoLib}.

Definition SanitizeName (name : string) : string := ToCamel name.

Definition GenerateMethodName (operationID method : string) : string :=
  if negb (operationID =? "") then operationID
  else TitleOfLower method +++ "Method".

(** The body of [ConvertSchemaToProtoFieldOrMessage] on a reference that is
    not nil.  The state it touches is the import list of the file and the
    message [parentMessage] points to; both are returned.  The calls of the
    function on itself are made on pointers it has tested ([schema.Items],
    [schema.AdditionalProperties.Schema]) and on the values of the map
    [schema.Properties], which a loaded document does not leave nil. *)
Fixpoint convertSchemaRef (schemaRef : SchemaRef) (protoName : string)
  (parentMessage : option ProtoMessage) (c : ProtoConverter) {struct schemaRef}
  : result (FieldOrMessage * option ProtoMessage * ProtoConverter) :=
  if negb (Ref schemaRef =? "") then
    Ok (IsField (newField (ExtractMessageNameFromRef (Ref schemaRef))
                          (ExtractMessageNameFromRef (Ref schemaRef))),
        parentMessage, c)
  else
    match Value schemaRef with
    | None => Ok (IsNil, parentMessage, c)
    | Some schema =>
        match Type_ schema with
        | None => Err "schema type is required"
        | Some types =>
            let field protoType c' := Ok (IsField (newField protoName protoType), parentMessage, c') in
            if Includes types "string" then
              if (Format schema =? "date") || (Format schema =? "date-time")
              then field "google.protobuf.Timestamp"
                         (AddProtoImport "google/protobuf/timestamp.proto" c)
              else field "string" c
            else if Includes types "integer" then
              if Format schema =? "int32" then field "int32" c else field "int64" c
            else if Includes types "number" then
              if Format schema =? "float" then field "float" c else field "double" c
            else if Includes types "boolean" then field "bool" c
            else if Includes types "array" then
              match Items schema with
              | Some itemSchema =>
                  let* (fieldOrMessage, parent1, c1) :=
                    convertSchemaRef itemSchema (protoName +++ "Item")
                      parentMessage c in
                  match fieldOrMessage with
                  | IsField item =>
                      Ok (IsField (mkField protoName (f_Type item) true []), parent1, c1)
                  | IsMessage nestedMessage =>
                      Ok (IsField (mkField protoName (m_Name nestedMessage) true []),
                          addNestedMessageToParent parent1 nestedMessage, c1)
                  | IsNil => Ok (IsField (newField protoName ""), parent1, c1)
                  end
              | None => field "" c
              end
            else if Includes types "object" then
              let* (message, c1) :=
                (fix properties (props : list (string * SchemaRef)) (message : ProtoMessage)
                     (c0 : ProtoConverter) {struct props}
                   : result (ProtoMessage * ProtoConverter) :=
                   match props with
                   | [] => Ok (message, c0)
                   | (propName, propSchema) :: rest =>
                       let* (fieldOrMessage, parent1, c1) :=
                         convertSchemaRef propSchema propName
                           (Some message) c0 in
                       let message1 := pointee parent1 message in
                       match fieldOrMessage with
                       | IsField v =>
                           properties rest (set_Fields message1 (m_Fields message1 ++ [v])) c1
                       | IsMessage nestedMessage =>
                           let message2 :=
                             pointee (addNestedMessageToParent (Some message1) nestedMessage)
                                     message1 in
                           properties rest
                             (set_Fields message2
                                (m_Fields message2
                                 ++ [newField (propName +++ "Field") (m_Name nestedMessage)]))
                             c1
                       | IsNil => properties rest message1 c1
                       end
                   end) (Properties schema) (newMessage protoName) c in
              match AdditionalProperties schema with
              | Some additional =>
                  let* (additionalPropMessage, parent1, c2) :=
                    convertSchemaRef additional
                      (protoName +++ "AdditionalProperties") parentMessage c1 in
                  let mapValueType :=
                    match additionalPropMessage with
                    | IsMessage m => m_Name m
                    | _ => "string"
                    end in
                  Ok (IsMessage
                        (set_Fields message
                           (m_Fields message
                            ++ [newField "additionalProperties"
                                  ("map<string, " +++ mapValueType +++ ">")])),
                      parent1, c2)
              | None => Ok (IsMessage message, parentMessage, c1)
              end
            else field "" c
        end
    end.

(** [ConvertSchemaToProtoFieldOrMessage]: the first statement reads
    [schemaRef.Ref], so a nil [schemaRef] panics. *)
Definition ConvertSchemaToProtoFieldOrMessage (schemaRef : option SchemaRef)
  (protoName : string) (parentMessage : option ProtoMessage) (c : ProtoConverter)
  : result (FieldOrMessage * option ProtoMessage * ProtoConverter) :=
  match schemaRef with
  | None => Panic
  | Some ref => convertSchemaRef ref protoName parentMessage c
  end.

(** The property loop of the object case of
    [ConvertSchemaToProtoFieldOrMessage], by name. *)
Definition convertProperties
  : list (string * SchemaRef) -> ProtoMessage -> ProtoConverter
    -> result (ProtoMessage * ProtoConverter) :=
  fix properties (props : list (string * SchemaRef)) (message : ProtoMessage)
      (c0 : ProtoConverter) {struct props} : result (ProtoMessage * ProtoConverter) :=
    match props with
    | [] => Ok (message, c0)
    | (propName, propSchema) :: rest =>
        let* (fieldOrMessage, parent1, c1) :=
          convertSchemaRef propSchema propName (Some message) c0 in
        let message1 := pointee parent1 message in
        match fieldOrMessage with
        | IsField v =>
            properties rest (set_Fields message1 (m_Fields message1 ++ [v])) c1
        | IsMessage nestedMessage =>
            let message2 :=
              pointee (addNestedMessageToParent (Some message1) nestedMessage) message1 in
            properties rest
              (set_Fields message2
                 (m_Fields message2
                  ++ [newField (propName +++ "Field") (m_Name nestedMessage)]))
              c1
        | IsNil => properties rest message1 c1
        end
    end.

(** The loop [for mediaTypeStr, mediaType := range content] shared by
    [generateRequestMessage] (names [SanitizeName(messageName+mediaTypeStr)])
    and [processSingleResponse] (names [mediaTypeStr]); media types without a
    schema are skipped. *)
Fixpoint convertContent (nameOf : string -> string) (content : Content)
  (message : ProtoMessage) (c : ProtoConverter) : result (ProtoMessage * ProtoConverter) :=
  match content with
  | [] => Ok (message, c)
  | (mediaTypeStr, mediaType) :: rest =>
      match mt_Schema mediaType with
      | Some schema =>
          let* (fieldOrMessage, parent1, c1) :=
            ConvertSchemaToProtoFieldOrMessage (Some schema) (nameOf mediaTypeStr)
              (Some message) c in
          convertContent nameOf rest
            (addFieldOrMessage fieldOrMessage (pointee parent1 message)) c1
      | None => convertContent nameOf rest message c
      end
  end.

(** The loop [for _, param := range operation.Parameters]; [param.Value] is
    dereferenced without a check. *)
Fixpoint convertParameters (params : list ParameterRef) (message : ProtoMessage)
  (c : ProtoConverter) : result (ProtoMessage * ProtoConverter) :=
  match params with
  | [] => Ok (message, c)
  | param :: rest =>
      match pr_Value param with
      | None => Panic
      | Some value =>
          match p_Schema value with
          | Some schema =>
              let* (fieldOrMessage, parent1, c1) :=
                ConvertSchemaToProtoFieldOrMessage (Some schema) (p_Name value)
                  (Some message) c in
              convertParameters rest
                (addFieldOrMessage fieldOrMessage (pointee parent1 message)) c1
          | None => convertParameters rest message c
          end
      end
  end.

(** The part of [generateRequestMessage] that fills the request message:
    the media types of the body, then the parameters, then the decision to
    keep or drop the message. *)
Definition assembleRequestMessage (operation : Operation) (content : Content)
  (c : ProtoConverter) : result (string * ProtoConverter) :=
  let messageName := OperationID operation +++ "Request" in
  let message := newMessage messageName in
  let* (message1, c1) :=
    convertContent (fun mediaTypeStr => SanitizeName (messageName +++ mediaTypeStr))
      content message c in
  let* (message2, c2) := convertParameters (Parameters operation) message1 c1 in
  if ((0 <? List.length (m_Fields message2)) || (0 <? List.length (m_Messages message2)))%nat
  then Ok (m_Name message2, addMessageToProto message2 c2)
  else Ok ("", c2).

(** [generateRequestMessage] *)
Definition generateRequestMessage (operation : Operation) (c : ProtoConverter)
  : result (string * ProtoConverter) :=
  match RequestBody operation with
  | None =>
      if (List.length (Parameters operation) =? 0)%nat
      then Ok (EmptyProtoFile, AddProtoImport EmptyProtoFile c)
      else assembleRequestMessage operation [] c
  | Some body =>
      if negb (rb_Ref body =? "") then Ok (ExtractMessageNameFromRef (rb_Ref body), c)
      else
        match rb_Value body with
        | Some content => assembleRequestMessage operation content c
        | None => assembleRequestMessage operation [] c
        end
  end.

(** A schema converts to a result under a name: the same result, and the
    same messages handed to the parent, for every parent and every state of
    the converter. *)
Definition convertsTo (schema : SchemaRef) (protoName : string) (result : Converted) : Prop :=
  forall parent c,
    exists c',
      ConvertSchemaToProtoFieldOrMessage (Some schema) protoName parent c
      = Ok (fst result, attach parent (snd result), c').

(** Following the spec's words: the schemas a request message is made of,
    each with the name it is converted under: the media-type schemas of the
    request body under the sanitized name made of the message name and the
    media type, then the parameter schemas under the name of their
    parameter. *)
Definition requestSchemas (operation : Operation) : list (string * SchemaRef) :=
  let messageName := OperationID operation +++ "Request" in
  flat_map (fun entry =>
              match mt_Schema (snd entry) with
              | Some schema => [(SanitizeName (messageName +++ fst entry), schema)]
              | None => []
              end)
           match RequestBody operation with
           | Some body =>
               match rb_Value body with
               | Some content => content
               | None => []
               end
           | None => []
           end
  ++ flat_map (fun param =>
                 match pr_Value param with
                 | Some value =>
                     match p_Schema value with
                     | Some schema => [(p_Name value, schema)]
                     | None => []
                     end
                 | None => []
                 end)
              (Parameters operation).

(** The loop over [response.Headers]; a nil [headerRef] is skipped, its
    [Value] is dereferenced without a check and the header's [Schema] is
    handed to the conversion as it is, nil or not. *)
Fixpoint convertHeaders (headers : list (string * option HeaderRef)) (message : ProtoMessage)
  (c : ProtoConverter) : result (ProtoMessage * ProtoConverter) :=
  match headers with
  | [] => Ok (message, c)
  | (headerName, headerRef) :: rest =>
      match headerRef with
      | Some ref =>
          match h_Value ref with
          | Some schema =>
              let* (fieldOrMessage, parent1, c1) :=
                ConvertSchemaToProtoFieldOrMessage schema headerName (Some message) c in
              convertHeaders rest
                (addFieldOrMessage fieldOrMessage (pointee parent1 message)) c1
          | None => Panic
          end
      | None => convertHeaders rest message c
      end
  end.

(** [processSingleResponse] *)
Definition processSingleResponse (statusCode : string) (responseRef : ResponseRef)
  (operation : Operation) (c : ProtoConverter) : result (string * ProtoConverter) :=
  if negb (rr_Ref responseRef =? "") then
    Ok (ExtractMessageNameFromRef (rr_Ref responseRef), c)
  else
    match rr_Value responseRef with
    | None => Panic
    | Some response =>
        let messageName := OperationID operation +++ "Response_" +++ statusCode in
        let* (message1, c1) := convertHeaders (resp_Headers response) (newMessage messageName) c in
        let* (message2, c2) :=
          convertContent (fun mediaTypeStr => mediaTypeStr) (resp_Content response) message1 c1 in
        if ((0 <? List.length (m_Fields message2)) || (0 <? List.length (m_Messages message2)))%nat
        then Ok (m_Name message2, addMessageToProto message2 c2)
        else Ok ("", c2)
    end.

(** The test [responseRef.Ref == "" && (responseRef.Value == nil ||
    len(responseRef.Value.Content) == 0)] of [generateResponseMessage]. *)
Definition contentLess (responseRef : ResponseRef) : bool :=
  (rr_Ref responseRef =? "")
  && match rr_Value responseRef with
     | None => true
     | Some response => (List.length (resp_Content response) =? 0)%nat
     end.

(** The wrapper loop of [generateResponseMessage]: the first content-less
    response met leaves the loop ([break]); [emptyFlag] is cleared by every
    response processed before that. *)
Fixpoint wrapResponses (operation : Operation) (responses : list (string * ResponseRef))
  (wrapperMessage : ProtoMessage) (emptyFlag : bool) (c : ProtoConverter)
  : result (ProtoMessage * bool * ProtoConverter) :=
  match responses with
  | [] => Ok (wrapperMessage, emptyFlag, c)
  | (statusCode, responseRef) :: rest =>
      if contentLess responseRef then Ok (wrapperMessage, emptyFlag, c)
      else
        let* (messageName, c1) := processSingleResponse statusCode responseRef operation c in
        wrapResponses operation rest
          (set_Fields wrapperMessage
             (m_Fields wrapperMessage ++ [newField ("response_" +++ statusCode) messageName]))
          false c1
  end.

(** [generateResponseMessage] *)
Definition generateResponseMessage (operation : Operation) (c : ProtoConverter)
  : result (string * ProtoConverter) :=
  match Responses operation with
  | None => Ok ("", c)
  | Some responses =>
      match responses with
      | [(statusCode, responseRef)] =>
          if contentLess responseRef
          then Ok (EmptyProtoFile, AddProtoImport EmptyProtoFile c)
          else processSingleResponse statusCode responseRef operation c
      | _ =>
          let wrapperMessageName := OperationID operation in
          let* (wrapperMessage, emptyFlag, c1) :=
            wrapResponses operation responses (newMessage wrapperMessageName) true c in
          if emptyFlag then Ok (EmptyProtoFile, AddProtoImport EmptyProtoFile c1)
          else Ok (wrapperMessageName, addMessageToProto wrapperMessage c1)
      end
  end.

(** [methodExistsInService] *)
Definition methodExistsInService (service : ProtoService) (methodName : string) : bool :=
  hasName methodName (map meth_Name (svc_Methods service)).

(** [findOrCreateService] followed by the update of the service it returns a
    pointer to: [update] is applied to the first service of that name, or to
    a new service appended to the list. *)
Fixpoint updateService (services : list ProtoService) (serviceName : string)
  (update : ProtoService -> ProtoService) : list ProtoService :=
  match services with
  | [] => [update (mkService serviceName [] [])]
  | service :: rest =>
      if svc_Name service =? serviceName then update service :: rest
      else service :: updateService rest serviceName update
  end.

(** The body of the inner loop of [ConvertPathsToProtoServices] once both
    message names are known. *)
Definition addMethod (c : ProtoConverter) (path method : string) (operation : Operation)
  (methodName inputMessage outputMessage : string) (service : ProtoService) : ProtoService :=
  if methodExistsInService service methodName then service
  else
    let options1 :=
      if apiOption (converterOption c) then
        match methodToOption method with
        | Some optionName => [mkOption optionName (VString (Quote (ConvertPath path)))]
        | None => []
        end
      else [] in
    let options2 :=
      if openapiOption (converterOption c) then
        options1 ++ [mkOption "openapi.operation" (VString (StructToProtobuf operation "  "))]
      else options1 in
    mkService (svc_Name service)
      (svc_Methods service ++ [mkMethod methodName inputMessage outputMessage options2])
      (svc_Options service).

Fixpoint convertOperations (path : string) (operations : list (string * Operation))
  (services : list ProtoService) (c : ProtoConverter)
  : result (list ProtoService * ProtoConverter) :=
  match operations with
  | [] => Ok (services, c)
  | (method, operation) :: rest =>
      let serviceName := GetServiceName (Tags operation) in
      let methodName := GenerateMethodName (OperationID operation) method in
      let* (inputMessage, c1) :=
        wrap ("error generating request message for " +++ methodName +++ ": ")
             (generateRequestMessage operation c) in
      let* (outputMessage, c2) :=
        wrap ("error generating response message for " +++ methodName +++ ": ")
             (generateResponseMessage operation c1) in
      convertOperations path rest
        (updateService services serviceName
           (addMethod c2 path method operation methodName inputMessage outputMessage))
        c2
  end.

(** [ConvertPathsToProtoServices] *)
Fixpoint ConvertPathsToProtoServices (paths : Paths) (services : list ProtoService)
  (c : ProtoConverter) : result (list ProtoService * ProtoConverter) :=
  match paths with
  | [] => Ok (services, c)
  | (path, operations) :: rest =>
      let* (services1, c1) := convertOperations path operations services c in
      ConvertPathsToProtoServices rest services1 c1
  end.

(** [convertPathsToProtoServices] *)
Definition convertPathsToProtoServices (paths : Paths) (c : ProtoConverter)
  : result ProtoConverter :=
  let* (services, c1) :=
    wrap "error converting paths to proto services: " (ConvertPathsToProtoServices paths [] c) in
  Ok (set_Services c1 (Services (ProtoFile_ c1) ++ services)).

(** The loop of [convertComponentsToProtoMessages]. *)
Fixpoint convertSchemas (schemas : list (string * SchemaRef)) (c : ProtoConverter)
  : result ProtoConverter :=
  match schemas with
  | [] => Ok c
  | (name, schema) :: rest =>
      let* (fieldOrMessage, _, c1) :=
        wrap ("error converting schema " +++ name +++ ": ")
             (ConvertSchemaToProtoFieldOrMessage (Some schema) name None c) in
      match fieldOrMessage with
      | IsField v => convertSchemas rest (addMessageToProto (mkMessage name [v] [] [] []) c1)
      | IsMessage v => convertSchemas rest (addMessageToProto v c1)
      | IsNil => convertSchemas rest c1
      end
  end.

(** [convertComponentsToProtoMessages] *)
Definition convertComponentsToProtoMessages (components : option Components)
  (c : ProtoConverter) : result ProtoConverter :=
  match components with
  | None => Ok c
  | Some comps => convertSchemas (Schemas comps) c
  end.

(** [Convert] *)
Definition Convert (spec : T) (c : ProtoConverter) : result ProtoConverter :=
  let* c1 :=
    wrap "error converting components to proto messages: "
         (convertComponentsToProtoMessages (spec_Components spec) c) in
  let* c2 :=
    wrap "error converting paths to proto services: "
         (convertPathsToProtoServices (spec_Paths spec) c1) in
  let c3 := if openapiOption (converterOption c2) then AddProtoImport openapiProtoFile c2 else c2 in
  let c4 := if apiOption (converterOption c3) then AddProtoImport apiProtoFile c3 else c3 in
  Ok c4.

End Converter.

(** ** package generate: the proto3 encoder *)

(** The newline and the double quote of Go's string literals. *)
Definition nl : string := String (ascii_of_nat 10) "".
Definition dq : string := String (ascii_of_nat 34) "".

(** [%d] on a non-negative [int]. *)
Definition itoa (n : nat) : string := NilEmpty.string_of_uint (Nat.to_uint n).

(** [strings.Repeat] *)
Fixpoint Repeat (s : string) (count : nat) : string :=
  match count with
  | O => ""
  | S k => s +++ Repeat s k
  end.

(** [sort.Slice(xs, less)] as an insertion sort.  [sort.Slice] is not
    stable: on keys that are pairwise different this is its result, on equal
    keys Go may order the equal entries differently. *)
Fixpoint insertSorted {A : Type} (less : A -> A -> bool) (x : A) (sorted : list A) : list A :=
  match sorted with
  | [] => [x]
  | y :: rest => if less y x then y :: insertSorted less x rest else x :: y :: rest
  end.

Definition sortSlice {A : Type} (less : A -> A -> bool) (xs : list A) : list A :=
  fold_right (insertSorted less) [] xs.

(** The comparison [a.Name < b.Name] of Go strings, byte by byte. *)
Definition lessBy {A : Type} (name : A -> string) (a b : A) : bool :=
  String.ltb (name a) (name b).

(** [optionMap[key]] *)
Fixpoint mapIndex (key : string) (m : list (string * GoValue)) : option GoValue :=
  match m with
  | [] => None
  | (k, v) :: rest => if k =? key then Some v else mapIndex key rest
  end.

Section Encoder.

Context `{GoLib}.

(** [utils.Stringify] *)
Fixpoint Stringify (value : GoValue) : string :=
  match value with
  | VString v => Quote v
  | VInt _ => FormatV value
  | VStrings v => "[" +++ String.concat ", " v +++ "]"
  | VList v => "[" +++ String.concat ", " (map Stringify v) +++ "]"
  | VMap _ => FormatV value
  end.

(** [encodeFieldOptionMap] *)
Definition encodeFieldOptionMap (optionMap : list (string * GoValue)) (indent : nat) : string :=
  let keys := sortSlice String.ltb (map fst optionMap) in
  let indentSpace := Repeat " " indent in
  String.concat ""
    (map (fun key =>
            indentSpace +++ key +++ ": "
            +++ match mapIndex key optionMap with
                | Some value => Stringify value
                | None => ""
                end
            +++ ";" +++ nl)
         keys).

(** [encodeFieldOption] *)
Definition encodeFieldOption (opt : ProtoOption) : string :=
  "(" +++ opt_Name opt +++ ") = "
  +++ match opt_Value opt with
      | VMap value => "{" +++ nl +++ encodeFieldOptionMap value 6 +++ "    }"
      | VString value => value
      | value => FormatS value
      end.

(** The field loop of [encodeMessage]; [i] is the index of the first field. *)
Fixpoint encodeFields (indent : string) (i : nat) (fields : list ProtoField) : string :=
  match fields with
  | [] => ""
  | field :: rest =>
      indent +++ "  " +++ (if f_Repeated field then "repeated " else "")
      +++ f_Type field +++ " " +++ f_Name field +++ " = " +++ itoa (i + 1)
      +++ (if (0 <? List.length (f_Options field))%nat
           then " [" +++ nl +++ "    "
                +++ String.concat ", " (map encodeFieldOption (f_Options field)) +++ "]"
           else "")
      +++ ";" +++ nl
      +++ encodeFields indent (i + 1) rest
  end.

(** [encodeMessage] *)
Fixpoint encodeMessage (message : ProtoMessage) (indentLevel : nat) : string :=
  let indent := Repeat "  " indentLevel in
  indent +++ "message " +++ m_Name message +++ " {" +++ nl
  +++ (if (0 <? List.length (m_Options message))%nat
       then indent +++ "  option"
            +++ String.concat "" (map (fun option => encodeFieldOption option +++ ";" +++ nl)
                                      (m_Options message))
       else "")
  +++ encodeFields indent 0 (sortSlice (lessBy f_Name) (m_Fields message))
  +++ String.concat ""
        (map (fun nestedMessage => encodeMessage nestedMessage (indentLevel + 1))
             (m_Messages message))
  +++ indent +++ "}" +++ nl +++ nl.

(** One service of the service loop of [ConvertToProtoFile]. *)
Definition encodeMethod (method : ProtoMethod) : string :=
  "  rpc " +++ meth_Name method +++ "(" +++ meth_Input method +++ ") returns ("
  +++ meth_Output method +++ ")"
  +++ (if (0 <? List.length (meth_Options method))%nat
       then " {" +++ nl
            +++ String.concat ""
                  (map (fun option => "     option " +++ encodeFieldOption option +++ ";" +++ nl)
                       (meth_Options method))
            +++ "  }" +++ nl
       else ";" +++ nl).

Definition encodeService (service : ProtoService) : string :=
  "service " +++ svc_Name service +++ " {" +++ nl
  +++ String.concat "" (map encodeMethod (sortSlice (lessBy meth_Name) (svc_Methods service)))
  +++ "}" +++ nl +++ nl.

Definition encodeImports (imports : list string) : string :=
  String.concat "" (map (fun importFile => "import " +++ dq +++ importFile +++ dq +++ ";" +++ nl)
                        imports)
  +++ (if (0 <? List.length imports)%nat then nl else "").

Definition encodeFileOptions (options : list (string * string)) : string :=
  String.concat ""
    (map (fun kv => "option " +++ fst kv +++ " = " +++ Stringify (VString (snd kv)) +++ ";" +++ nl)
         options)
  +++ (if (0 <? List.length options)%nat then nl else "").

(** [ConvertToProtoFile] *)
Definition ConvertToProtoFile (protoFile : ProtoFile) : string :=
  "syntax = " +++ dq +++ "proto3" +++ dq +++ ";" +++ nl +++ nl
  +++ "package " +++ PackageName protoFile +++ ";" +++ nl +++ nl
  +++ encodeImports (Imports protoFile)
  +++ encodeFileOptions (Options protoFile)
  +++ String.concat ""
        (map (fun message => encodeMessage message 0)
             (sortSlice (lessBy m_Name) (Messages protoFile)))
  +++ String.concat ""
        (map encodeService (sortSlice (lessBy svc_Name) (Services protoFile))).

(** The line of one field with its number, and the lines of a list of
    fields numbered from [first] on. *)
Definition fieldLine (indent : string) (number : nat) (field : ProtoField) : string :=
  indent +++ "  " +++ (if f_Repeated field then "repeated " else "")
  +++ f_Type field +++ " " +++ f_Name field +++ " = " +++ itoa number
  +++ (match f_Options field with
       | [] => ""
       | options =>
           " [" +++ nl +++ "    "
           +++ String.concat ", " (map encodeFieldOption options) +++ "]"
       end)
  +++ ";" +++ nl.

Definition numberedFrom (first : nat) (fields : list ProtoField) : list (nat * ProtoField) :=
  combine (seq first (List.length fields)) fields.

End Encoder.

(** Sorted by name: no entry has a name below the name of the one before. *)
Definition sortedBy {A : Type} (name : A -> string) (xs : list A) : Prop :=
  Sorted (fun a b => String.ltb (name b) (name a) = false) xs.

(** ** thrift-gen-http-swagger/generator/openapi_gen.go *)

Module ThriftGen.

(** [thrift_reflection.TypeDescriptor], seen through the three predicates
    the generator switches on: the constructor decides [IsStruct], [IsMap]
    and [IsList]; the name is [GetName()]; a map's key type is never read. *)
Inductive TypeDescriptor : Type :=
| TStruct (name : string)
| TMap (valueType : TypeDescriptor)
| TList (valueType : TypeDescriptor)
| TOther (name : string).

Definition GetName (t : TypeDescriptor) : string :=
  match t with
  | TStruct name => name
  | TMap _ => "map"
  | TList _ => "list"
  | TOther name => name
  end.

Definition IsStruct (t : TypeDescriptor) : bool :=
  match t with
  | TStruct _ => true
  | _ => false
  end.

Record FieldDescriptor : Type := mkFieldDescriptor {
  fd_Name : string;
  fd_Type : option TypeDescriptor;
  fd_Annotations : list (string * list string);
  fd_Comments : string
}.

Record StructDescriptor : Type := mkStructDescriptor {
  sd_Name : string;
  sd_Fields : list FieldDescriptor;
  sd_Comments : string
}.

(** [field.Annotations[key]]: [None] is the nil slice of a missing key. *)
Fixpoint annotation (annotations : list (string * list string)) (key : string)
  : option (list string) :=
  match annotations with
  | [] => None
  | (k, values) :: rest => if k =? key then Some values else annotation rest key
  end.

(** The OpenAPI document tree of [idl/thrift], restricted to the members
    this file assigns. *)
Record SchemaOf (R : Type) : Type := mkSchema {
  Type_ : string;
  Format : string;
  Description : string;
  Properties : list (string * R);
  Items : option (list (option R));
  AdditionalProperties : option (option R);
  Required : list string
}.

Arguments mkSchema {R}.
Arguments Type_ {R}.
Arguments Format {R}.
Arguments Description {R}.
Arguments Properties {R}.
Arguments Items {R}.
Arguments AdditionalProperties {R}.
Arguments Required {R}.

Inductive SchemaOrReference : Type :=
| OfSchema (schema : SchemaOf SchemaOrReference)
| OfReference (xref : string).

Definition Schema : Type := SchemaOf SchemaOrReference.

Definition emptySchema : Schema := mkSchema "" "" "" [] None None [].

Definition set_Description (s : Schema) (description : string) : Schema :=
  mkSchema (Type_ s) (Format s) description (Properties s) (Items s)
           (AdditionalProperties s) (Required s).

Definition set_Required (s : Schema) (required : list string) : Schema :=
  mkSchema (Type_ s) (Format s) (Description s) (Properties s) (Items s)
           (AdditionalProperties s) required.

Record Param : Type := mkParam {
  par_Name : string;
  par_In : string;
  par_Description : string;
  par_Required : bool;
  par_Schema : option SchemaOrReference
}.

(** [NamedMediaType]: the name and the schema of its [MediaType]. *)
Definition NamedMediaType : Type := (string * SchemaOrReference)%type.

Record RequestBody : Type := mkRequestBody {
  rb_Description : string;
  rb_Content : list NamedMediaType
}.

Record Header : Type := mkHeader {
  hd_Description : string;
  hd_Schema : option SchemaOrReference
}.

Record Response : Type := mkResponse {
  rs_Description : string;
  rs_Headers : option (list (string * Header));
  rs_Content : option (list NamedMediaType)
}.

Record Operation : Type := mkOperation {
  op_Tags : list string;
  op_Description : string;
  op_OperationID : string;
  op_Parameters : list Param;
  op_Responses : option (list (string * Response));
  op_RequestBody : option RequestBody;
  op_Servers : list string
}.

(** The generator together with the [components.schemas] list of the
    document it fills. *)
Record Generator : Type := mkGenerator {
  generatedSchemas : list string;
  requiredSchemas : list string;
  componentSchemas : list (string * SchemaOrReference)
}.

Definition set_required (g : Generator) (required : list string) : Generator :=
  mkGenerator (generatedSchemas g) required (componentSchemas g).

(** The descriptors of the thriftgo reflection package and the helpers of
    the [utils] and [common/utils] packages. *)
Class Reflection : Type := {
  (** [g.fileDesc.GetStructs()] *)
  GetStructs : list StructDescriptor;
  (** [g.fileDesc.GetStructDescriptor(name)] *)
  GetStructDescriptor : string -> option StructDescriptor;
  (** [fieldType.GetStructDescriptor()] by the name of the type; [None] is
      the error return *)
  TypeStructDescriptor : string -> option StructDescriptor;
  (** the keys of [g.fileDesc.Includes], in range order *)
  Includes : list string;
  (** [g.fileDesc.GetIncludeFD(key)], of which only [Structs] is read *)
  GetIncludeFD : string -> option (list StructDescriptor);
  (** [semantic.SplitType] *)
  SplitType : string -> list string;
  (** [g.filterCommentString] (its pattern is [consts.CommentPatternRegexp]) *)
  filterCommentString : string -> string;
  (** [newFieldSchema] after [utils.ParseFieldOption(field, "openapi.property", &newFieldSchema)] *)
  ParseFieldOptionSchema : FieldDescriptor -> Schema;
  (** [extSchema] after [utils.ParseStructOption(desc, "openapi.schema", &extSchema)] *)
  ParseStructOptionSchema : StructDescriptor -> option Schema;
  (** [extParameter] after [utils.ParseFieldOption(field, "openapi.parameter", &extParameter)] *)
  ParseFieldOptionParameter : FieldDescriptor -> option Param;
  (** [common.MergeStructs] on two schemas, on a parameter, and on a nil
      destination *)
  MergeSchema : Schema -> Schema -> Schema;
  MergeParameter : Param -> option Param -> Param;
  MergeIntoNil : result unit;
  (** [consts.ComponentSchemaSuffixBody], [consts.ComponentSchemaSuffixRawBody] *)
  ComponentSchemaSuffixBody : string;
  ComponentSchemaSuffixRawBody : string
}.

(** Modelled from the spec: [common.Contains], of the package
    [common/utils], which is not among the sources.  The spec has a struct
    name registered in the worklist "if not already present" and a schema
    added "at most once per generated name (tracked via a generated-name
    registry)": membership of the item in the slice. *)
Definition Contains (slice : list string) (item : string) : bool := hasName item slice.

(** Modelled from the spec: [consts.HttpMethodGet], [consts.HttpMethodHead],
    [consts.HttpMethodDelete], of the package [common/consts], which is not
    among the sources.  The spec has the request body "omitted entirely for
    GET/HEAD/DELETE"; these are the method names of the table
    [HttpMethodAnnotations] at the end of the file, which [methodName]
    ranges over. *)
Definition HttpMethodGet : string := "GET".
Definition HttpMethodHead : string := "HEAD".
Definition HttpMethodDelete : string := "DELETE".

(** The other constants of [common/consts] that the file uses, with the
    values the sibling generators of the repository declare for them. *)
Definition ApiQuery : string := "api.query".
Definition ApiPath : string := "api.path".
Definition ApiCookie : string := "api.cookie".
Definition ApiHeader : string := "api.header".
Definition ApiBody : string := "api.body".
Definition ApiForm : string := "api.form".
Definition ApiRawBody : string := "api.raw_body".
Definition OpenapiProperty : string := "openapi.property".

Definition ContentTypeJSON : string := "application/json".
Definition ContentTypeFormMultipart : string := "multipart/form-data".
Definition ContentTypeFormURLEncoded : string := "application/x-www-form-urlencoded".
Definition ContentTypeRawBody : string := "text/plain".

Definition ComponentSchemaPrefix : string := "#/components/schemas/".
Definition SchemaObjectType : string := "object".
Definition StatusOK : string := "200".
Definition DefaultResponseDesc : string := "Successful response".
Definition URLDefaultPrefixHTTP : string := "http://".
Definition URLDefaultPrefixHTTPS : string := "https://".

(** The scalar table of [schemaOrReferenceForField]. *)
Definition scalarSchema (name : string) : Schema :=
  let typed type format := mkSchema type format "" [] None None [] in
  if name =? "string" then typed "string" ""
  else if name =? "binary" then typed "string" "binary"
  else if name =? "bool" then typed "boolean" ""
  else if name =? "byte" then typed "string" "byte"
  else if name =? "double" then typed "number" "double"
  else if name =? "i8" then typed "integer" "int8"
  else if name =? "i16" then typed "integer" "int16"
  else if name =? "i32" then typed "integer" "int32"
  else if name =? "i64" then typed "integer" "int64"
  else emptySchema.

Section Generator.

Context `{Reflection}.

(** [schemaReferenceForMessage] *)
Definition schemaReferenceForMessage (message : StructDescriptor) (g : Generator)
  : string * Generator :=
  let schemaName := sd_Name message in
  (ComponentSchemaPrefix +++ schemaName,
   if negb (Contains (requiredSchemas g) schemaName)
   then set_required g (requiredSchemas g ++ [schemaName])
   else g).

(** [schemaOrReferenceForField]; [None] is the nil it returns when the
    struct descriptor cannot be had. *)
Fixpoint schemaOrReferenceForField (fieldType : TypeDescriptor) (g : Generator)
  : option SchemaOrReference * Generator :=
  match fieldType with
  | TStruct name =>
      match TypeStructDescriptor name with
      | None => (None, g)
      | Some structDesc =>
          let (ref, g1) := schemaReferenceForMessage structDesc g in
          (Some (OfReference ref), g1)
      end
  | TMap valueType =>
      let (valueSchema, g1) := schemaOrReferenceForField valueType g in
      (Some (OfSchema (mkSchema SchemaObjectType "" "" [] None (Some valueSchema) [])), g1)
  | TList valueType =>
      let (itemSchema, g1) := schemaOrReferenceForField valueType g in
      (Some (OfSchema (mkSchema "array" "" "" [] (Some [itemSchema]) None [])), g1)
  | TOther name => (Some (OfSchema (scalarSchema name)), g)
  end.

(** [schemaOrReferenceForField(field.Type)] where the type pointer is
    handed over unchecked. *)
Definition schemaForFieldType (fieldType : option TypeDescriptor) (g : Generator)
  : result (option SchemaOrReference * Generator) :=
  match fieldType with
  | None => Panic
  | Some t => Ok (schemaOrReferenceForField t g)
  end.

(** [addSchemaToDocument] *)
Definition addSchemaToDocument (name : string) (schema : SchemaOrReference) (g : Generator)
  : Generator :=
  if Contains (generatedSchemas g) name then g
  else mkGenerator (generatedSchemas g ++ [name]) (requiredSchemas g)
                   (componentSchemas g ++ [(name, schema)]).

(** The block [if fieldSchema.IsSetSchema() { ... }] of [getSchemaByOption]
    and [addSchemasForStructsToDocument]. *)
Definition describeField (field : FieldDescriptor) (fieldSchema : SchemaOrReference)
  : SchemaOrReference :=
  match fieldSchema with
  | OfSchema schema =>
      OfSchema (MergeSchema (set_Description schema (filterCommentString (fd_Comments field)))
                            (ParseFieldOptionSchema field))
  | OfReference xref => OfReference xref
  end.

(** The field loop of [getSchemaByOption]: [required] and the property list
    grow field by field. *)
Fixpoint schemaProperties (option : string) (allRequired : list string)
  (fields : list FieldDescriptor) (required : list string)
  (properties : list (string * SchemaOrReference)) (g : Generator)
  : result (list string * list (string * SchemaOrReference) * Generator) :=
  match fields with
  | [] => Ok (required, properties, g)
  | field :: rest =>
      match annotation (fd_Annotations field) option with
      | None => schemaProperties option allRequired rest required properties g
      | Some [] => Panic
      | Some (first :: _) =>
          let extName := if negb (first =? "") then first else fd_Name field in
          let required1 :=
            if Contains allRequired extName then required ++ [extName] else required in
          let* (fieldSchema, g1) := schemaForFieldType (fd_Type field) g in
          match fieldSchema with
          | None => schemaProperties option allRequired rest required1 properties g1
          | Some schema =>
              schemaProperties option allRequired rest required1
                (properties ++ [(extName, describeField field schema)]) g1
          end
      end
  end.

(** [getSchemaByOption] *)
Definition getSchemaByOption (inputDesc : StructDescriptor) (option : string) (g : Generator)
  : result (Schema * Generator) :=
  let extSchema := ParseStructOptionSchema inputDesc in
  let allRequired :=
    match extSchema with
    | Some ext => Required ext
    | None => []
    end in
  let* (required, properties, g1) :=
    schemaProperties option allRequired (sd_Fields inputDesc) [] [] g in
  let schema := mkSchema SchemaObjectType "" "" properties None None [] in
  let merged :=
    match extSchema with
    | Some ext => MergeSchema schema ext
    | None => schema
    end in
  Ok (set_Required merged required, g1).

(** The header loop of [getResponseForStruct]. *)
Fixpoint responseHeaders (fields : list FieldDescriptor) (headers : list (string * Header))
  (g : Generator) : result (list (string * Header) * Generator) :=
  match fields with
  | [] => Ok (headers, g)
  | field :: rest =>
      match annotation (fd_Annotations field) ApiHeader with
      | Some (ext :: _) =>
          if negb (ext =? "") then
            let* (schema, g1) := schemaForFieldType (fd_Type field) g in
            responseHeaders rest
              (headers ++ [(ext, mkHeader (filterCommentString (fd_Comments field)) schema)]) g1
          else responseHeaders rest headers g
      | _ => responseHeaders rest headers g
      end
  end.

(** [getResponseForStruct] *)
Definition getResponseForStruct (desc : StructDescriptor) (g : Generator)
  : result (string * list (string * Header) * list NamedMediaType * Generator) :=
  let* (headers, g1) := responseHeaders (sd_Fields desc) [] g in
  let* (bodySchema, g2) := getSchemaByOption desc ApiBody g1 in
  let* (rawBodySchema, g3) := getSchemaByOption desc ApiRawBody g2 in
  let '(content1, g4) :=
    if (0 <? List.length (Properties bodySchema))%nat then
      ([(ContentTypeJSON,
         OfReference (ComponentSchemaPrefix +++ sd_Name desc +++ ComponentSchemaSuffixBody))],
       addSchemaToDocument (sd_Name desc +++ ComponentSchemaSuffixBody) (OfSchema bodySchema) g3)
    else ([], g3) in
  let '(content2, g5) :=
    if (0 <? List.length (Properties rawBodySchema))%nat then
      (content1
       ++ [(ContentTypeRawBody,
            OfReference (ComponentSchemaPrefix +++ sd_Name desc +++ ComponentSchemaSuffixRawBody))],
       addSchemaToDocument (sd_Name desc +++ ComponentSchemaSuffixRawBody)
         (OfSchema rawBodySchema) g4)
    else (content1, g4) in
  Ok (StatusOK, headers, content2, g5).

(** What one of the four annotation blocks at the head of [buildOperation]
    leaves in [paramName], [paramIn], [paramDesc], [fieldSchema], [required]. *)
Record ParamVars : Type := mkParamVars {
  paramName : string;
  paramIn : string;
  paramDesc : string;
  fieldSchema : option SchemaOrReference;
  required : bool
}.

Definition parameterBlock (v : FieldDescriptor) (key place : string) (isPath : bool)
  (vars : ParamVars) (g : Generator) : result (ParamVars * Generator) :=
  match annotation (fd_Annotations v) key with
  | Some (ext :: _) =>
      if negb (ext =? "") then
        let* (schema, g1) := schemaForFieldType (fd_Type v) g in
        let* schema1 :=
          match annotation (fd_Annotations v) OpenapiProperty with
          | Some (_ :: _) =>
              match schema with
              | None => Panic
              | Some (OfSchema s0) => Ok (Some (OfSchema (MergeSchema s0 (ParseFieldOptionSchema v))))
              | Some (OfReference xref) => let* _ := MergeIntoNil in Ok (Some (OfReference xref))
              end
          | _ => Ok schema
          end in
        Ok (mkParamVars ext place (filterCommentString (fd_Comments v)) schema1
                        (if isPath then true else required vars), g1)
      else Ok (vars, g)
  | _ => Ok (vars, g)
  end.

(** The parameter loop of [buildOperation]. *)
Fixpoint buildParameters (fields : list FieldDescriptor) (parameters : list Param)
  (g : Generator) : result (list Param * Generator) :=
  match fields with
  | [] => Ok (parameters, g)
  | v :: rest =>
      let* (vars1, g1) := parameterBlock v ApiQuery "query" false (mkParamVars "" "" "" None false) g in
      let* (vars2, g2) := parameterBlock v ApiPath "path" true vars1 g1 in
      let* (vars3, g3) := parameterBlock v ApiCookie "cookie" false vars2 g2 in
      let* (vars4, g4) := parameterBlock v ApiHeader "header" false vars3 g3 in
      let parameter :=
        MergeParameter
          (mkParam (paramName vars4) (paramIn vars4) (paramDesc vars4) (required vars4)
                   (fieldSchema vars4))
          (ParseFieldOptionParameter v) in
      if negb (paramName vars4 =? "") && negb (paramIn vars4 =? "")
      then buildParameters rest (parameters ++ [parameter]) g4
      else buildParameters rest parameters g4
  end.

(** The media types of the request body of [buildOperation], in the order
    they are appended. *)
Definition requestMediaTypes (bodySchema formSchema rawBodySchema : Schema)
  : list NamedMediaType :=
  (if (0 <? List.length (Properties bodySchema))%nat
   then [(ContentTypeJSON, OfSchema bodySchema)] else [])
  ++ (if (0 <? List.length (Properties formSchema))%nat
      then [(ContentTypeFormMultipart, OfSchema formSchema);
            (ContentTypeFormURLEncoded, OfSchema formSchema)]
      else [])
  ++ (if (0 <? List.length (Properties rawBodySchema))%nat
      then [(ContentTypeRawBody, OfSchema rawBodySchema)] else []).

(** The request body of [buildOperation]. *)
Definition buildRequestBody (methodName : string) (inputDesc : StructDescriptor)
  (g : Generator) : result (option RequestBody * Generator) :=
  if negb (methodName =? HttpMethodGet) && negb (methodName =? HttpMethodHead)
     && negb (methodName =? HttpMethodDelete)
  then
    let* (bodySchema, g1) := getSchemaByOption inputDesc ApiBody g in
    let* (formSchema, g2) := getSchemaByOption inputDesc ApiForm g1 in
    let* (rawBodySchema, g3) := getSchemaByOption inputDesc ApiRawBody g2 in
    let additionalProperties := requestMediaTypes bodySchema formSchema rawBodySchema in
    if (0 <? List.length additionalProperties)%nat
    then Ok (Some (mkRequestBody (filterCommentString (sd_Comments inputDesc))
                                 additionalProperties), g3)
    else Ok (None, g3)
  else Ok (None, g).

(** [ReplaceAllString] of [:(\w+)] by [{$1}], as a scan; [pending = Some w]
    after a colon followed by the word characters [w]. *)
Definition closeParam (w : string) : string :=
  if w =? "" then ":" else "{" +++ w +++ "}".

Fixpoint bracePathFrom (s : string) (pending : option string) : string :=
  match s with
  | EmptyString =>
      match pending with
      | Some w => closeParam w
      | None => ""
      end
  | String ch rest =>
      match pending with
      | None =>
          if Ascii.eqb ch ":" then bracePathFrom rest (Some "")
          else String ch (bracePathFrom rest None)
      | Some w =>
          if isWordChar ch then bracePathFrom rest (Some (w +++ String ch ""))
          else if Ascii.eqb ch ":" then closeParam w +++ bracePathFrom rest (Some "")
          else closeParam w +++ String ch (bracePathFrom rest None)
      end
  end.

(** [buildOperation] (the document [d] is the [componentSchemas] of [g]) *)
Definition buildOperation (methodName description operationID tagName path host : string)
  (inputDesc outputDesc : StructDescriptor) (g : Generator)
  : result (Operation * string * Generator) :=
  let* (parameters, g1) := buildParameters (sd_Fields inputDesc) [] g in
  let* (requestBody, g2) := buildRequestBody methodName inputDesc g1 in
  let* (name, header, content, g3) := getResponseForStruct outputDesc g2 in
  let desc0 := filterCommentString (sd_Comments outputDesc) in
  let desc := if desc0 =? "" then DefaultResponseDesc else desc0 in
  let headerOrEmpty := if negb (List.length header =? 0)%nat then Some header else None in
  let contentOrEmpty := if negb (List.length content =? 0)%nat then Some content else None in
  let responses :=
    match headerOrEmpty, contentOrEmpty with
    | None, None => None
    | _, _ => Some [(name, mkResponse desc headerOrEmpty contentOrEmpty)]
    end in
  let servers :=
    if negb (host =? "") then
      if negb (String.prefix URLDefaultPrefixHTTP host)
         && negb (String.prefix URLDefaultPrefixHTTPS host)
      then [URLDefaultPrefixHTTP +++ host]
      else [host]
    else [] in
  Ok (mkOperation [tagName] description operationID parameters responses requestBody servers,
      bracePathFrom path None, g3).

(** The collection of [sls] at the head of the loop body of
    [addSchemasForStructsToDocument]: the descriptors of the struct-typed
    fields of [s], by the file's own table or, for a two-part name, by the
    included file's. *)
Definition structsOfField (f : FieldDescriptor) : list StructDescriptor :=
  match fd_Type f with
  | None => []
  | Some fieldType =>
      if IsStruct fieldType then
        match GetStructDescriptor (GetName fieldType) with
        | Some structDesc => [structDesc]
        | None =>
            match SplitType (GetName fieldType) with
            | [first; second] =>
                match GetIncludeFD first with
                | Some structs => filter (fun s => sd_Name s =? second) structs
                | None => []
                end
            | _ => []
            end
        end
      else []
  end.

Definition nestedStructs (s : StructDescriptor) : list StructDescriptor :=
  flat_map structsOfField (sd_Fields s).

(** The lookup of [structDesc] for the schema being generated: the file's
    own table, else every included file in turn (the inner [break] leaves
    only the scan of one included file). *)
Definition findInIncludes (name : string) : option StructDescriptor :=
  fold_left
    (fun found key =>
       match GetIncludeFD key with
       | None => found
       | Some structs =>
           match find (fun v => sd_Name v =? name) structs with
           | Some v => Some v
           | None => found
           end
       end)
    Includes None.

Definition lookupStruct (name : string) : option StructDescriptor :=
  match GetStructDescriptor name with
  | Some structDesc => Some structDesc
  | None => findInIncludes name
  end.

(** The property loop of [addSchemasForStructsToDocument]. *)
Fixpoint structProperties (fields : list FieldDescriptor)
  (properties : list (string * SchemaOrReference)) (g : Generator)
  : result (list (string * SchemaOrReference) * Generator) :=
  match fields with
  | [] => Ok (properties, g)
  | field :: rest =>
      let* (fieldSchema, g1) := schemaForFieldType (fd_Type field) g in
      match fieldSchema with
      | None => structProperties rest properties g1
      | Some schema =>
          structProperties rest (properties ++ [(fd_Name field, describeField field schema)]) g1
      end
  end.

(** The part of the loop body of [addSchemasForStructsToDocument] below the
    recursive call: the test on the two registries and the generation of the
    schema of [s]. *)
Definition generateSchema (s : StructDescriptor) (g : Generator) : result Generator :=
  let schemaName := sd_Name s in
  if negb (Contains (requiredSchemas g) schemaName) || Contains (generatedSchemas g) schemaName
  then Ok g
  else
    match lookupStruct (sd_Name s) with
    | None => Panic
    | Some structDesc =>
        let messageDescription := filterCommentString (sd_Comments structDesc) in
        let* (properties, g1) := structProperties (sd_Fields structDesc) [] g in
        let schema := mkSchema SchemaObjectType "" messageDescription properties None None [] in
        let merged :=
          match ParseStructOptionSchema structDesc with
          | Some extSchema => MergeSchema schema extSchema
          | None => schema
          end in
        Ok (addSchemaToDocument schemaName (OfSchema merged) g1)
    end.

(** The loop of [addSchemasForStructsToDocument] over [structs], with the
    call of the function on [sls] as the parameter [recur]. *)
Fixpoint eachStruct (recur : list StructDescriptor -> Generator -> option (result Generator))
  (structs : list StructDescriptor) (g : Generator) : option (result Generator) :=
  match structs with
  | [] => Some (Ok g)
  | s :: rest =>
      let sls := nestedStructs s in
      let nested := if (0 <? List.length sls)%nat then recur sls g else Some (Ok g) in
      match nested with
      | None => None
      | Some (Ok g1) =>
          match generateSchema s g1 with
          | Ok g2 => eachStruct recur rest g2
          | other => Some other
          end
      | Some other => Some other
      end
  end.

(** [addSchemasForStructsToDocument].  The Go function calls itself on
    [sls] with nothing that decreases, so the embedding counts the depth of
    the calls: [None] when [fuel] nested calls were not enough. *)
Fixpoint addSchemasForStructsToDocument (fuel : nat) (structs : list StructDescriptor)
  (g : Generator) {struct fuel} : option (result Generator) :=
  match fuel with
  | O => None
  | S fuel' => eachStruct (addSchemasForStructsToDocument fuel') structs g
  end.

(** The loop [for len(g.requiredSchemas) > 0] of [BuildDocument]; [fuel]
    bounds the rounds and, in each round, the depth of the expansion. *)
Fixpoint expandRequiredSchemas (fuel : nat) (g : Generator) : option (result Generator) :=
  if (0 <? List.length (requiredSchemas g))%nat then
    match fuel with
    | O => None
    | S fuel' =>
        let count := List.length (requiredSchemas g) in
        match addSchemasForStructsToDocument fuel' GetStructs g with
        | Some (Ok g1) => expandRequiredSchemas fuel' (set_required g1 (skipn count (requiredSchemas g1)))
        | other => other
        end
    end
  else Some (Ok g).

(** A set of structs each of which has a struct-typed field that leads to
    a struct of the set again: what a cycle of the struct graph is to
    [addSchemasForStructsToDocument]. *)
Definition closedUnderNesting (cyclic : StructDescriptor -> Prop) : Prop :=
  forall s, cyclic s -> exists s', In s' (nestedStructs s) /\ cyclic s'.

End Generator.


End ThriftGen.


(** ** Further notions used by the properties *)

(** Occurrence of a character in a string. *)
Fixpoint hasChar (ch : ascii) (s : string) : bool :=
  match s with
  | EmptyString => false
  | String c rest => Ascii.eqb c ch || hasChar ch rest
  end.

(** Strings of word characters only. *)
Fixpoint isWord (s : string) : bool :=
  match s with
  | EmptyString => true
  | String c rest => isWordChar c && isWord rest
  end.

Definition startsWithWordChar (s : string) : bool :=
  match s with
  | EmptyString => false
  | String c _ => isWordChar c
  end.

(** A path as a sequence of literal text and parameters, and its two
    spellings: [{name}] in OpenAPI paths, [:name] in route options. *)
Inductive Segment : Type :=
| Lit (text : string)
| Par (name : string).

Fixpoint braces (segments : list Segment) : string :=
  match segments with
  | [] => ""
  | Lit text :: rest => text +++ braces rest
  | Par name :: rest => "{" +++ name +++ "}" +++ braces rest
  end.

Fixpoint colons (segments : list Segment) : string :=
  match segments with
  | [] => ""
  | Lit text :: rest => text +++ colons rest
  | Par name :: rest => ":" +++ name +++ colons rest
  end.

(** Literal text has neither an opening brace nor a colon; a parameter
    name is a non-empty word, and what follows it in the colon spelling does
    not go on with a word character. *)
Fixpoint wellFormed (segments : list Segment) : Prop :=
  match segments with
  | [] => True
  | Lit text :: rest =>
      hasChar "{" text = false /\ hasChar ":" text = false /\ wellFormed rest
  | Par name :: rest =>
      isWord name = true /\ name <> ""
      /\ startsWithWordChar (colons rest) = false /\ wellFormed rest
  end.

Definition timestampProtoFile : string := "google/protobuf/timestamp.proto".

(** [shape], with the imports a conversion may register spelled out. *)
Definition uniform
  (run : option ProtoMessage -> ProtoConverter
         -> result (FieldOrMessage * option ProtoMessage * ProtoConverter)) : Prop :=
  (exists r nested imports,
     Forall (fun importFile => importFile = timestampProtoFile) imports
     /\ forall parent c, run parent c = Ok (r, attach parent nested, addImports imports c))
  \/ (forall parent c, run parent c = Err "schema type is required").

(** The type lists that reach the array branch of
    [ConvertSchemaToProtoFieldOrMessage]. *)
Definition reachesArrayBranch (types : list string) : bool :=
  negb (Includes types "string") && negb (Includes types "integer")
  && negb (Includes types "number") && negb (Includes types "boolean")
  && Includes types "array".

(** What every step of a conversion keeps of the converter: message names
    stay pairwise different, the import list gains nothing but the
    timestamp and the empty import, services and options are not touched. *)
Definition keeps (c c' : ProtoConverter) : Prop :=
  (NoDup (map m_Name (Messages (ProtoFile_ c)))
   -> NoDup (map m_Name (Messages (ProtoFile_ c'))))
  /\ (forall importFile,
        In importFile (Imports (ProtoFile_ c')) ->
        In importFile (Imports (ProtoFile_ c))
        \/ In importFile [timestampProtoFile; EmptyProtoFile])
  /\ Services (ProtoFile_ c') = Services (ProtoFile_ c)
  /\ converterOption c' = converterOption c.

(** Service names pairwise different, and in each service the method names. *)
Definition servicesWellFormed (services : list ProtoService) : Prop :=
  NoDup (map svc_Name services)
  /\ Forall (fun service => NoDup (map meth_Name (svc_Methods service))) services.

(** The service of that name has the method. *)
Definition serviceHas (services : list ProtoService) (serviceName : string)
  (method : ProtoMethod) : Prop :=
  exists service,
    In service services /\ svc_Name service = serviceName /\ In method (svc_Methods service).

(** The longest prefix whose entries all pass the test: what a loop has
    gone through when it leaves at the first entry that fails it. *)
Fixpoint takeWhile {A : Type} (test : A -> bool) (l : list A) : list A :=
  match l with
  | [] => []
  | x :: rest => if test x then x :: takeWhile test rest else []
  end.

(** The responses [generateResponseMessage] wraps: those met before the
    first one without content. *)
Definition wrapped (responses : list (string * ResponseRef)) : list (string * ResponseRef) :=
  takeWhile (fun response => negb (contentLess (snd response))) responses.

(** ** The registries of the thrift generator *)

Module Registry.

Import ThriftGen.

(** The registry of generated names lists the component schemas, each name
    once. *)
Definition registered (g : Generator) : Prop :=
  map fst (componentSchemas g) = generatedSchemas g /\ NoDup (generatedSchemas g).

(** Nothing was taken away or changed: the two registries and the component
    list of [g'] are those of [g] with entries appended. *)
Definition continues (g g' : Generator) : Prop :=
  (exists names, generatedSchemas g' = generatedSchemas g ++ names)
  /\ (exists schemas, componentSchemas g' = componentSchemas g ++ schemas)
  /\ (exists names, requiredSchemas g' = requiredSchemas g ++ names)
  /\ (registered g -> registered g')
  /\ (NoDup (requiredSchemas g) -> NoDup (requiredSchemas g')).

Section References.

Context `{Reflection}.

(** The schema names [schemaOrReferenceForField] refers to for a type: the
    struct whose descriptor it can get, below any number of maps and
    lists. *)
Fixpoint refsOf (fieldType : TypeDescriptor) : list string :=
  match fieldType with
  | TStruct name =>
      match TypeStructDescriptor name with
      | Some structDesc => [sd_Name structDesc]
      | None => []
      end
  | TMap valueType => refsOf valueType
  | TList valueType => refsOf valueType
  | TOther _ => []
  end.

(** The schema names the schema of a struct refers to. *)
Definition structRefs (structDesc : StructDescriptor) : list string :=
  flat_map (fun field =>
              match fd_Type field with
              | Some fieldType => refsOf fieldType
              | None => []
              end)
           (sd_Fields structDesc).

(** The name of a struct of the file. *)
Definition ownStruct (name : string) : Prop :=
  exists s, In s GetStructs /\ sd_Name s = name.

(** What one call of the function, on [structs] from [g] to [g'], has
    done. *)
Definition expanded (structs : list StructDescriptor) (g g' : Generator) : Prop :=
  continues g g'
  /\ (forall s, In s structs -> In (sd_Name s) (requiredSchemas g) ->
                In (sd_Name s) (generatedSchemas g'))
  /\ (forall name, In name (generatedSchemas g') -> ~ In name (generatedSchemas g) ->
                   exists structDesc,
                     lookupStruct name = Some structDesc
                     /\ incl (structRefs structDesc) (requiredSchemas g')).

(** The loop invariant behind the closure of the worklist: every schema
    generated since [old] refers only to names generated or still on the
    worklist, as far as they are names of structs of the file. *)
Definition closing (old : list string) (g : Generator) : Prop :=
  forall name, In name (generatedSchemas g) -> ~ In name old ->
    exists structDesc,
      lookupStruct name = Some structDesc
      /\ forall m, In m (structRefs structDesc) -> ownStruct m ->
                   In m (generatedSchemas g) \/ In m (requiredSchemas g).

(** A family of structs without cycle: the structs of the struct-typed
    fields of a member are members of lower rank. *)
Definition descending (family : StructDescriptor -> Prop) (rank : StructDescriptor -> nat)
  : Prop :=
  forall s, family s ->
    forall s', In s' (nestedStructs s) -> family s' /\ rank s' < rank s.

(** The first value of an annotation of a field, when it is not empty: the
    test [len(extOrNil) > 0] and [ext != ""] of [buildOperation]. *)
Definition annotated (v : FieldDescriptor) (key : string) : option string :=
  match annotation (fd_Annotations v) key with
  | Some (ext :: _) => if ext =? "" then None else Some ext
  | _ => None
  end.

(** The name and the location of the parameter of a field: those of the
    last of [api.query], [api.path], [api.cookie], [api.header] it is
    annotated with. *)
Definition parameterPlace (v : FieldDescriptor) : option (string * string) :=
  match annotated v ApiHeader, annotated v ApiCookie, annotated v ApiPath,
        annotated v ApiQuery with
  | Some ext, _, _, _ => Some (ext, "header")
  | None, Some ext, _, _ => Some (ext, "cookie")
  | None, None, Some ext, _ => Some (ext, "path")
  | None, None, None, Some ext => Some (ext, "query")
  | None, None, None, None => None
  end.

(** A parameter as [buildOperation] makes it for a field, before the merge
    with the [openapi.parameter] option of the field: named and placed after
    the annotation of the field, required exactly when the field has
    [api.path]. *)
Definition parameterOf (v : FieldDescriptor) (parameter : Param) : Prop :=
  exists made,
    parameter = MergeParameter made (ParseFieldOptionParameter v)
    /\ parameterPlace v = Some (par_Name made, par_In made)
    /\ par_Required made = match annotated v ApiPath with Some _ => true | None => false end
    /\ par_Description made = filterCommentString (fd_Comments v).

(** A call that has changed the generator has generated the schema of a
    struct of the family it went through. *)
Definition progressed (family : StructDescriptor -> Prop) (g g' : Generator) : Prop :=
  g' = g
  \/ exists s, family s /\ In (sd_Name s) (generatedSchemas g')
               /\ ~ In (sd_Name s) (generatedSchemas g).

(** The names of [universe] that have no schema yet. *)
Definition ungenerated (universe : list string) (g : Generator) : nat :=
  List.length (filter (fun name => negb (Contains (generatedSchemas g) name)) universe).

End References.

End Registry.

(** ** The servers of the document: the end of [BuildDocument] *)

Module Servers.

Import ThriftGen.

(** [openapi.PathItem]: the seven operations and the servers of a path; a
    server is its URL, a nil server list is the empty list. *)
Record PathItem : Type := mkPathItem {
  pi_Get : option Operation;
  pi_Post : option Operation;
  pi_Put : option Operation;
  pi_Delete : option Operation;
  pi_Patch : option Operation;
  pi_Options : option Operation;
  pi_Head : option Operation;
  pi_Servers : list string
}.

(** [openapi.Document], restricted to [Paths.Path] and [Servers]. *)
Record Document : Type := mkDocument {
  d_Paths : list (string * PathItem);
  d_Servers : list string
}.

Definition set_Servers (op : Operation) (servers : list string) : Operation :=
  mkOperation (op_Tags op) (op_Description op) (op_OperationID op) (op_Parameters op)
              (op_Responses op) (op_RequestBody op) servers.

(** [if op != nil { op.Servers = nil }] *)
Definition withoutServers (operation : option Operation) : option Operation :=
  option_map (fun op => set_Servers op []) operation.

(** The operations of a path the loop looks at: GET, POST, PUT, DELETE and
    PATCH, not OPTIONS and HEAD. *)
Definition hoisted (item : PathItem) : list Operation :=
  flat_map (fun operation => match operation with Some op => [op] | None => [] end)
           [pi_Get item; pi_Post item; pi_Put item; pi_Delete item; pi_Patch item].

(** No server, or the one server. *)
Definition atMost (server : string) (l : list string) : Prop := l = [] \/ l = [server].

Section Hoisting.

(** [common.AppendUnique], of the package [common/utils], which is not
    among the sources: a parameter. *)
Variable AppendUnique : list string -> string -> list string.

(** One of the five blocks [if path.Value.X != nil &&
    len(path.Value.X.Servers) == 1 { ... }]; the pair is [servers] and
    [allServers]. *)
Definition collect (operation : option Operation) (lists : list string * list string)
  : list string * list string :=
  match operation with
  | Some op =>
      match op_Servers op with
      | [url] => (AppendUnique (fst lists) url, AppendUnique (snd lists) url)
      | _ => lists
      end
  | None => lists
  end.

(** The body of the loop over [d.Paths.Path]. *)
Definition hoistPath (item : PathItem) (allServers : list string)
  : PathItem * list string :=
  let lists :=
    collect (pi_Patch item)
      (collect (pi_Delete item)
         (collect (pi_Put item)
            (collect (pi_Post item)
               (collect (pi_Get item) ([], allServers))))) in
  match fst lists with
  | [server] =>
      (mkPathItem (withoutServers (pi_Get item)) (withoutServers (pi_Post item))
                  (withoutServers (pi_Put item)) (withoutServers (pi_Delete item))
                  (withoutServers (pi_Patch item)) (pi_Options item) (pi_Head item)
                  [server],
       snd lists)
  | _ => (item, snd lists)
  end.

Fixpoint hoistPaths (paths : list (string * PathItem)) (allServers : list string)
  : list (string * PathItem) * list string :=
  match paths with
  | [] => ([], allServers)
  | (name, item) :: rest =>
      let (item', allServers1) := hoistPath item allServers in
      let (rest', allServers2) := hoistPaths rest allServers1 in
      ((name, item') :: rest', allServers2)
  end.

Definition clearPathServers (item : PathItem) : PathItem :=
  mkPathItem (pi_Get item) (pi_Post item) (pi_Put item) (pi_Delete item) (pi_Patch item)
             (pi_Options item) (pi_Head item) [].

(** The part of [BuildDocument] between the worklist loop and the sorting:
    servers shared by the operations of a path go to the path, the servers of
    all paths go to the document, and a single server of the document is
    taken off the paths. *)
Definition hoistServers (d : Document) : Document :=
  let (paths, allServers) := hoistPaths (d_Paths d) [] in
  mkDocument
    (if (List.length allServers =? 1)%nat
     then map (fun path => (fst path, clearPathServers (snd path))) paths
     else paths)
    (if (0 <? List.length allServers)%nat then allServers else d_Servers d).

End Hoisting.

End Servers.
(** ** Fixtures *)

Definition petById : ProtoMessage :=
  mkMessage "Pet" [newField "id" "int64"; newField "name" "string"] [] [] [].

Definition petByTag : ProtoMessage :=
  mkMessage "Pet" [newField "name" "bytes"; newField "tag" "string"] [] [] [].


(** An instance of the library functions to evaluate the examples with:
    [%q] as it is on printable ASCII without quotes or backslashes, the
    others are not reached by the examples. *)
#[local] Instance sampleLib : GoLib := {|
  ToCamel := fun s => s;
  Quote := fun s => dq +++ s +++ dq;
  FormatV := fun _ => "";
  FormatS := fun _ => "";
  TitleOfLower := fun s => s;
  StructToProtobuf := fun _ _ => ""
|}.

Definition stringSchema : SchemaRef :=
  mkSchemaRef "" (Some (mkSchema (Some ["string"]) "" None [] None)).

Definition objectSchema (props : list (string * SchemaRef)) : SchemaRef :=
  mkSchemaRef "" (Some (mkSchema (Some ["object"]) "" None props None)).

Definition typelessSchema : Schema := mkSchema None "" None [] None.

Definition pingOperation : Operation := mkOperation "ping" [] [] None None.

Definition pongOperation : Operation := mkOperation "pong" [] [] None None.

Definition pingSpec : T :=
  mkT None [("/ping", [("GET", pingOperation)]); ("/pong", [("GET", pongOperation)])].

Definition brokenSpec : T :=
  mkT (Some (mkComponents [("Pet", objectSchema [("name", stringSchema)]);
                           ("Broken", mkSchemaRef "" (Some typelessSchema))]))
      [].

Definition petSchema : Schema :=
  mkSchema (Some ["object"]) "" None
    [("owner", objectSchema [("name", stringSchema)]); ("name", stringSchema)] None.

Definition refBodyOperation : Operation :=
  mkOperation "createPet" []
    [mkParameterRef (Some (mkParam "tag" (Some stringSchema)))]
    (Some (mkRequestBodyRef "#/components/requestBodies/PetBody"
             (Some [("application/json", mkMediaType (Some stringSchema))])))
    None.

Definition tagOperation : Operation :=
  mkOperation "findPets" []
    [mkParameterRef (Some (mkParam "tag" (Some stringSchema)))]
    None None.

Definition okResponse : ResponseRef :=
  mkResponseRef "" (Some (mkResponse [] [("application/json", mkMediaType (Some stringSchema))])).

Definition noContentResponse : ResponseRef :=
  mkResponseRef "" (Some (mkResponse [] [])).

(** One operation, its two responses as two runs may range over them. *)
Definition getPetEmptyFirst : Operation :=
  mkOperation "getPet" [] [] None (Some [("204", noContentResponse); ("200", okResponse)]).

Definition getPetEmptyLast : Operation :=
  mkOperation "getPet" [] [] None (Some [("200", okResponse); ("204", noContentResponse)]).

(** One document, the two properties of its schema as two runs may range
    over them. *)
Definition pairSpec (first second : string) : T :=
  mkT (Some (mkComponents
               [("Pair", objectSchema [(first, objectSchema [("x", stringSchema)]);
                                       (second, objectSchema [("x", stringSchema)])])]))
      [].

(** A file with the import list that [Convert] leaves for [pingSpec]. *)
Definition unsortedImports : ProtoFile :=
  mkProtoFile "demo" [] [] [] ["google.protobuf.empty"; "api.proto"] [].

Definition importsText (first second : string) : string :=
  "syntax = " +++ dq +++ "proto3" +++ dq +++ ";" +++ nl +++ nl
  +++ "package demo;" +++ nl +++ nl
  +++ "import " +++ dq +++ first +++ dq +++ ";" +++ nl
  +++ "import " +++ dq +++ second +++ dq +++ ";" +++ nl +++ nl.

Module ThriftFixtures.

Import ThriftGen.

(** The reflection of a file that declares [structs] and includes nothing,
    with no [openapi.*] annotation on anything. *)
Definition fileReflection (structs : list StructDescriptor) : Reflection := {|
  GetStructs := structs;
  GetStructDescriptor := fun name => find (fun s => sd_Name s =? name) structs;
  TypeStructDescriptor := fun name => find (fun s => sd_Name s =? name) structs;
  Includes := [];
  GetIncludeFD := fun _ => None;
  SplitType := fun name => [name];
  filterCommentString := fun comment => comment;
  ParseFieldOptionSchema := fun _ => emptySchema;
  ParseStructOptionSchema := fun _ => None;
  ParseFieldOptionParameter := fun _ => None;
  MergeSchema := fun schema _ => schema;
  MergeParameter := fun parameter _ => parameter;
  MergeIntoNil := Ok tt;
  ComponentSchemaSuffixBody := "Body";
  ComponentSchemaSuffixRawBody := "RawBody"
|}.

Definition plainField (name : string) (type : TypeDescriptor) : FieldDescriptor :=
  mkFieldDescriptor name (Some type) [] "".

(** [struct A { 1: B b }  struct B { 1: A a }] *)
Definition structA : StructDescriptor := mkStructDescriptor "A" [plainField "b" (TStruct "B")] "".
Definition structB : StructDescriptor := mkStructDescriptor "B" [plainField "a" (TStruct "A")] "".

(** [struct Outer { 1: Inner inner }  struct Inner { 1: string name }] *)
Definition structOuter : StructDescriptor :=
  mkStructDescriptor "Outer" [plainField "inner" (TStruct "Inner")] "".
Definition structInner : StructDescriptor :=
  mkStructDescriptor "Inner" [plainField "name" (TOther "string")] "".

(** The generator after the paths of a service whose request refers to
    the struct [name]. *)
Definition requiring (name : string) : Generator := mkGenerator [] [name] [].

(** [struct Form { 1: string title (api.body = "title"), 2: string file
    (api.form = "file"), 3: string id (api.query = "id") }] *)
Definition structForm : StructDescriptor :=
  mkStructDescriptor "Form"
    [mkFieldDescriptor "title" (Some (TOther "string")) [("api.body", ["title"])] "";
     mkFieldDescriptor "file" (Some (TOther "string")) [("api.form", ["file"])] "";
     mkFieldDescriptor "id" (Some (TOther "string")) [("api.query", ["id"])] ""]
    "".

Definition structEmpty : StructDescriptor := mkStructDescriptor "Empty" [] "".

Definition formFile : Reflection := fileReflection [structForm; structEmpty].
Definition mutualFile : Reflection := fileReflection [structA; structB].
Definition nestedFile : Reflection := fileReflection [structOuter; structInner].

End ThriftFixtures.

(** ** Further fixtures *)

Definition dateSchema : SchemaRef :=
  mkSchemaRef "" (Some (mkSchema (Some ["string"]) "date-time" None [] None)).

(** [type: array, items: {type: object, properties: {name: {type: string}}}] *)
Definition petListSchema : Schema :=
  mkSchema (Some ["array"]) "" (Some (objectSchema [("name", stringSchema)])) [] None.

Definition petListRef : SchemaRef := mkSchemaRef "" (Some petListSchema).

(** [type: object, properties: {owner: {$ref: '#/components/schemas/User'}}] *)
Definition ownedSchema : Schema :=
  mkSchema (Some ["object"]) "" None
    [("owner", mkSchemaRef "#/components/schemas/User" None)] None.

Definition integerSchema : SchemaRef :=
  mkSchemaRef "" (Some (mkSchema (Some ["integer"]) "" None [] None)).

(** A body with one media type and three parameters, two of them named
    "tag". *)
Definition searchOperation : Operation :=
  mkOperation "searchPets" []
    [mkParameterRef (Some (mkParam "tag" (Some stringSchema)));
     mkParameterRef (Some (mkParam "tag" (Some integerSchema)));
     mkParameterRef (Some (mkParam "limit" (Some integerSchema)))]
    (Some (mkRequestBodyRef "" (Some [("Json", mkMediaType (Some petListRef))])))
    None.

Definition listPets : Operation :=
  mkOperation "listPets" ["pets"]
    [mkParameterRef (Some (mkParam "limit" (Some stringSchema)))]
    None (Some [("200", okResponse)]).

Definition createPet : Operation :=
  mkOperation "createPet" ["pets"] []
    (Some (mkRequestBodyRef "" (Some [("application/json", mkMediaType (Some stringSchema))])))
    (Some [("200", okResponse); ("204", noContentResponse)]).

Definition untagged : Operation := mkOperation "" [] [] None None.

(** A document with one component schema and three operations on two
    paths. *)
Definition shopSpec : T :=
  mkT (Some (mkComponents [("Pet", objectSchema [("name", stringSchema); ("born", dateSchema)])]))
      [("/pets", [("GET", listPets); ("POST", createPet)]);
       ("/health", [("GET", untagged)])].

Definition petService : ProtoService :=
  mkService "pets" [mkMethod "listPets" "listPetsRequest" "listPetsResponse_200" []] [].

Definition healthService : ProtoService :=
  mkService "DefaultService" [mkMethod "GETMethod" "google.protobuf.empty" "" []] [].

Definition shopFile (messages : list ProtoMessage) (services : list ProtoService) : ProtoFile :=
  mkProtoFile "shop" messages services [] ["api.proto"] [].

Definition tagged : ProtoMessage := mkMessage "Tag" [newField "label" "string"] [] [] [].

Module RegistryFixtures.

Import ThriftGen ThriftFixtures.

(** [struct Query { 1: string id (api.path = "id", api.header = "X-Id"),
    2: i32 limit (api.query = "limit"), 3: string note }] *)
Definition structQuery : StructDescriptor :=
  mkStructDescriptor "Query"
    [mkFieldDescriptor "id" (Some (TOther "string"))
       [("api.path", ["id"]); ("api.header", ["X-Id"])] "";
     mkFieldDescriptor "limit" (Some (TOther "i32")) [("api.query", ["limit"])] "";
     mkFieldDescriptor "note" (Some (TOther "string")) [] ""]
    "".

(** [struct Reply { 1: Inner inner (api.body = "inner") }] *)
Definition structReply : StructDescriptor :=
  mkStructDescriptor "Reply"
    [mkFieldDescriptor "inner" (Some (TStruct "Inner")) [("api.body", ["inner"])] ""]
    "".

Definition queryFile : Reflection :=
  fileReflection [structQuery; structReply; structOuter; structInner].

(** The structs of [nestedFile], and the depth below each. *)
Definition nestedFamily (s : StructDescriptor) : Prop := s = structOuter \/ s = structInner.

Definition nestedRank (s : StructDescriptor) : nat :=
  if sd_Name s =? "Outer" then 1 else 0.

End RegistryFixtures.

Module ServersFixtures.

Import ThriftGen Servers.

(** Appending what is not yet there. *)
Definition appendUnique (slice : list string) (item : string) : list string :=
  if Contains slice item then slice else slice ++ [item].

Definition served (operationID : string) (servers : list string) : Operation :=
  mkOperation ["Shop"] "" operationID [] None None servers.

(** [/a] with a GET and a POST operation on "http://a", [/b] with a GET
    operation without server. *)
Definition twoPaths : Document :=
  mkDocument
    [("/a", mkPathItem (Some (served "Shop_Get" ["http://a"]))
                       (Some (served "Shop_Post" ["http://a"])) None None None None None []);
     ("/b", mkPathItem (Some (served "Shop_List" [])) None None None None None None [])]
    [].

End ServersFixtures.
(** * Properties *)

(** ** Strings *)

Lemma append_assoc (a b c : string) : (a +++ b) +++ c = a +++ b +++ c.
Proof. induction a as [| ch a IH]; simpl; [reflexivity | now rewrite IH]. Qed.

(** ** Outcomes *)

Lemma bind_Ok {A B : Type} (r : result A) (k : A -> result B) (b : B) :
  bind r k = Ok b -> exists a, r = Ok a /\ k a = Ok b.
Proof. destruct r; simpl; intros Hk; try discriminate. now exists a. Qed.

Lemma wrap_Ok {A : Type} (prefix : string) (r : result A) (a : A) :
  wrap prefix r = Ok a -> r = Ok a.
Proof. destruct r; simpl; congruence. Qed.

Ltac bind_inv Hb :=
  let x := fresh "x" in
  let Hr := fresh "Hrun" in
  apply bind_Ok in Hb; destruct Hb as [x [Hr Hb]];
  repeat match type of x with (_ * _)%type => destruct x as [x ?] end.

(** ** Names in lists *)

Lemma hasName_In (name : string) (names : list string) :
  hasName name names = true <-> In name names.
Proof.
  unfold hasName. rewrite existsb_exists. split.
  - intros [x [Hin Heq]]. apply String.eqb_eq in Heq. now subst.
  - intros Hin. exists name. split; [assumption | apply String.eqb_refl].
Qed.

Lemma hasName_not_In (name : string) (names : list string) :
  hasName name names = false <-> ~ In name names.
Proof.
  rewrite <- hasName_In. destruct (hasName name names); split; congruence.
Qed.


Lemma mergeByName_union {A : Type} (name : A -> string) (existing new : list A) :
  unionByName name existing new (mergeByName name existing new).
Proof.
  unfold unionByName, mergeByName.
  eexists. split; [reflexivity |].
  intros x. rewrite filter_In, negb_true_iff, hasName_not_In. tauto.
Qed.

Lemma mergeByName_names {A : Type} (name : A -> string) (existing new : list A) (n : string) :
  In n (map name (mergeByName name existing new))
  <-> In n (map name existing) \/ In n (map name new).
Proof.
  unfold mergeByName. rewrite map_app, in_app_iff. split.
  - intros [Hin | Hin]; [now left |].
    right. apply in_map_iff in Hin. destruct Hin as [x [Hx Hin]].
    apply filter_In in Hin. apply in_map_iff. exists x. tauto.
  - intros [Hin | Hin]; [now left |].
    destruct (in_dec string_dec n (map name existing)) as [Hex | Hnex]; [now left |].
    right. apply in_map_iff in Hin. destruct Hin as [x [Hx Hin]]. subst n.
    apply in_map_iff. exists x. split; [reflexivity |].
    apply filter_In. split; [assumption |].
    now rewrite negb_true_iff, hasName_not_In.
Qed.

(** ** [addMessageToProto] *)

Lemma mergeIntoExisting_None (message : ProtoMessage) (msgs : list ProtoMessage) :
  mergeIntoExisting message msgs = None <-> ~ In (m_Name message) (map m_Name msgs).
Proof.
  induction msgs as [| msg rest IH]; simpl.
  - tauto.
  - destruct (String.eqb_spec (m_Name msg) (m_Name message)) as [Heq | Hneq].
    + split; [discriminate | intros Hn; exfalso; apply Hn; now left].
    + destruct (mergeIntoExisting message rest); simpl.
      * split; [discriminate |]. intros Hn. exfalso.
        assert (Some l = None) by (apply IH; tauto). discriminate.
      * split; [| reflexivity]. intros _ [Heq | Hin]; [congruence |].
        now apply IH.
Qed.

Lemma mergeIntoExisting_Some (message : ProtoMessage) (msgs ms : list ProtoMessage) :
  mergeIntoExisting message msgs = Some ms ->
  exists before existing after,
    msgs = before ++ existing :: after
    /\ ms = before ++ mergeMessage existing message :: after
    /\ m_Name existing = m_Name message
    /\ ~ In (m_Name message) (map m_Name before).
Proof.
  revert ms. induction msgs as [| msg rest IH]; simpl; intros ms Hm.
  - discriminate.
  - destruct (String.eqb_spec (m_Name msg) (m_Name message)) as [Heq | Hneq].
    + injection Hm as <-. exists [], msg, rest. simpl. tauto.
    + destruct (mergeIntoExisting message rest) as [ms' |]; [| discriminate].
      injection Hm as <-.
      destruct (IH ms' eq_refl) as [before [existing [after [H1 [H2 [H3 H4]]]]]].
      exists (msg :: before), existing, after. subst. simpl.
      repeat split; try assumption. intros [Heq | Hin]; [congruence | contradiction].
Qed.

Lemma mergeMessage_name (existing message : ProtoMessage) :
  m_Name (mergeMessage existing message) = m_Name existing.
Proof. reflexivity. Qed.

Lemma addMessageToProto_names_found (message : ProtoMessage) (c : ProtoConverter) :
  In (m_Name message) (map m_Name (Messages (ProtoFile_ c))) ->
  map m_Name (Messages (ProtoFile_ (addMessageToProto message c)))
  = map m_Name (Messages (ProtoFile_ c)).
Proof.
  intros Hin. unfold addMessageToProto.
  destruct (mergeIntoExisting message (Messages (ProtoFile_ c))) as [ms |] eqn:Hm.
  - apply mergeIntoExisting_Some in Hm.
    destruct Hm as [before [existing [after [H1 [H2 _]]]]].
    simpl. rewrite H1, H2, !map_app. reflexivity.
  - apply mergeIntoExisting_None in Hm. contradiction.
Qed.

Lemma addMessageToProto_fresh (message : ProtoMessage) (c : ProtoConverter) :
  ~ In (m_Name message) (map m_Name (Messages (ProtoFile_ c))) ->
  Messages (ProtoFile_ (addMessageToProto message c)) = Messages (ProtoFile_ c) ++ [message].
Proof.
  intros Hn. unfold addMessageToProto.
  apply mergeIntoExisting_None in Hn. now rewrite Hn.
Qed.

Lemma addMessageToProto_NoDup (message : ProtoMessage) (c : ProtoConverter) :
  NoDup (map m_Name (Messages (ProtoFile_ c))) ->
  NoDup (map m_Name (Messages (ProtoFile_ (addMessageToProto message c)))).
Proof.
  intros Hnd.
  destruct (in_dec string_dec (m_Name message) (map m_Name (Messages (ProtoFile_ c))))
    as [Hin | Hnin].
  - now rewrite addMessageToProto_names_found.
  - rewrite addMessageToProto_fresh by assumption.
    rewrite map_app. simpl.
    apply NoDup_app_remove_l with (l := []). simpl.
    apply Permutation_NoDup with (l := m_Name message :: map m_Name (Messages (ProtoFile_ c))).
    + apply Permutation_cons_append.
    + now constructor.
Qed.

Lemma addMessageToProto_merged (message existing : ProtoMessage) (c : ProtoConverter) :
  NoDup (map m_Name (Messages (ProtoFile_ c))) ->
  In existing (Messages (ProtoFile_ c)) ->
  m_Name existing = m_Name message ->
  In (mergeMessage existing message) (Messages (ProtoFile_ (addMessageToProto message c))).
Proof.
  intros Hnd Hin Hname. unfold addMessageToProto.
  destruct (mergeIntoExisting message (Messages (ProtoFile_ c))) as [ms |] eqn:Hm.
  - apply mergeIntoExisting_Some in Hm.
    destruct Hm as [before [found [after [H1 [H2 [H3 H4]]]]]].
    simpl. rewrite H2.
    assert (found = existing) as ->.
    { rewrite H1 in Hnd, Hin. rewrite map_app in Hnd. simpl in Hnd.
      apply NoDup_remove_2 in Hnd.
      apply in_app_or in Hin. destruct Hin as [Hin | [Heq | Hin]].
      - exfalso. apply H4. rewrite <- Hname. now apply in_map.
      - assumption.
      - exfalso. apply Hnd. apply in_or_app. right. rewrite H3, <- Hname. now apply in_map. }
    apply in_or_app. right. now left.
  - apply mergeIntoExisting_None in Hm. exfalso. apply Hm.
    rewrite <- Hname. now apply in_map.
Qed.

Lemma addMessageToProto_twice (first second : ProtoMessage) (c : ProtoConverter) :
  ~ In (m_Name first) (map m_Name (Messages (ProtoFile_ c))) ->
  m_Name second = m_Name first ->
  Messages (ProtoFile_ (addMessageToProto second (addMessageToProto first c)))
  = Messages (ProtoFile_ c) ++ [mergeMessage first second].
Proof.
  intros Hfresh Hname.
  unfold addMessageToProto at 1.
  destruct (mergeIntoExisting second (Messages (ProtoFile_ (addMessageToProto first c))))
    as [ms |] eqn:Hm.
  - apply mergeIntoExisting_Some in Hm.
    destruct Hm as [before [found [after [H1 [H2 [H3 H4]]]]]].
    rewrite addMessageToProto_fresh in H1 by assumption.
    simpl. rewrite H2.
    destruct after as [| a after].
    + apply app_inj_tail in H1. destruct H1 as [-> ->]. reflexivity.
    + exfalso.
      assert (Hin : In found (Messages (ProtoFile_ c))).
      { assert (Hl : In found (removelast (Messages (ProtoFile_ c) ++ [first]))).
        { rewrite H1. rewrite removelast_app by discriminate.
          apply in_or_app. right. simpl. destruct after; now left. }
        now rewrite removelast_last in Hl. }
      apply Hfresh. rewrite <- Hname, <- H3. now apply in_map.
  - apply mergeIntoExisting_None in Hm. exfalso. apply Hm.
    rewrite addMessageToProto_fresh by assumption.
    rewrite map_app. apply in_or_app. right. simpl. now left.
Qed.

(** C4.  [addMessageToProto] keeps the message names of the file pairwise
    different.  When a message of the same name is already there, no message
    is added and the existing one becomes the union by name of both, field
    list, nested-message list, enum list and option list alike: existing
    entries stay where they are, a new entry is appended exactly when no
    existing entry has its name.  Two messages of one name added to a file
    that has none of that name leave exactly one message of that name, with
    the same set of field names whichever of the two came first. *)
Theorem addMessageToProto_unique_names_union (message : ProtoMessage) (c : ProtoConverter) :
  NoDup (map m_Name (Messages (ProtoFile_ c))) ->
  NoDup (map m_Name (Messages (ProtoFile_ (addMessageToProto message c))))
  /\ (forall existing,
        In existing (Messages (ProtoFile_ c)) ->
        m_Name existing = m_Name message ->
        map m_Name (Messages (ProtoFile_ (addMessageToProto message c)))
        = map m_Name (Messages (ProtoFile_ c))
        /\ exists merged,
             In merged (Messages (ProtoFile_ (addMessageToProto message c)))
             /\ m_Name merged = m_Name message
             /\ unionByName f_Name (m_Fields existing) (m_Fields message) (m_Fields merged)
             /\ unionByName m_Name (m_Messages existing) (m_Messages message) (m_Messages merged)
             /\ unionByName enum_Name (m_Enums existing) (m_Enums message) (m_Enums merged)
             /\ unionByName opt_Name (m_Options existing) (m_Options message) (m_Options merged))
  /\ (~ In (m_Name message) (map m_Name (Messages (ProtoFile_ c))) ->
      forall other,
        m_Name other = m_Name message ->
        exists thisFirst otherFirst,
          Messages (ProtoFile_ (addMessageToProto other (addMessageToProto message c)))
          = Messages (ProtoFile_ c) ++ [thisFirst]
          /\ Messages (ProtoFile_ (addMessageToProto message (addMessageToProto other c)))
             = Messages (ProtoFile_ c) ++ [otherFirst]
          /\ m_Name thisFirst = m_Name message
          /\ m_Name otherFirst = m_Name message
          /\ (forall n, In n (map f_Name (m_Fields thisFirst))
                        <-> In n (map f_Name (m_Fields otherFirst)))).
Proof.
  intros Hnd. split; [now apply addMessageToProto_NoDup |]. split.
  - intros existing Hin Hname. split.
    + apply addMessageToProto_names_found. rewrite <- Hname. now apply in_map.
    + exists (mergeMessage existing message).
      split; [now apply addMessageToProto_merged |].
      split; [now rewrite mergeMessage_name |].
      repeat split; apply mergeByName_union.
  - intros Hfresh other Hname.
    exists (mergeMessage message other), (mergeMessage other message).
    split; [now apply addMessageToProto_twice |].
    split; [apply addMessageToProto_twice; [now rewrite Hname | now symmetry] |].
    split; [reflexivity |]. split; [now rewrite mergeMessage_name |].
    intros n. simpl. rewrite !mergeByName_names. tauto.
Qed.


(** ** [ConvertSchemaToProtoFieldOrMessage] *)

Section SchemaRefInduction.

Variable P : SchemaRef -> Prop.

Hypothesis step :
  forall ref value,
    match value with
    | None => True
    | Some schema =>
        match Items schema with Some item => P item | None => True end
        /\ Forall (fun prop => P (snd prop)) (Properties schema)
        /\ match AdditionalProperties schema with Some a => P a | None => True end
    end ->
    P (mkSchemaRef ref value).

Lemma SchemaRef_nested_ind : forall schemaRef, P schemaRef.
Proof.
  fix IH 1. intros [ref [[types format items props additional] |]]; apply step; simpl.
  - split; [| split].
    + destruct items as [item |]; [apply IH | exact I].
    + induction props as [| [name prop] rest IHprops]; constructor; [apply IH | exact IHprops].
    + destruct additional as [a |]; [apply IH | exact I].
  - exact I.
Qed.

End SchemaRefInduction.

Section ConverterFacts.

Context `{GoLib}.

(** One unfolding of the converter, with the property loop by its name. *)
Lemma ConvertSchema_object_eq (schema : Schema) (types : list string) (protoName : string)
  (parentMessage : option ProtoMessage) (c : ProtoConverter) :
  Type_ schema = Some types ->
  Includes types "string" = false ->
  Includes types "integer" = false ->
  Includes types "number" = false ->
  Includes types "boolean" = false ->
  Includes types "array" = false ->
  Includes types "object" = true ->
  convertSchemaRef (mkSchemaRef "" (Some schema)) protoName parentMessage c
  = let* (message, c1) := convertProperties (Properties schema) (newMessage protoName) c in
    match AdditionalProperties schema with
    | Some additional =>
        let* (additionalPropMessage, parent1, c2) :=
          convertSchemaRef additional
            (protoName +++ "AdditionalProperties") parentMessage c1 in
        let mapValueType :=
          match additionalPropMessage with
          | IsMessage m => m_Name m
          | _ => "string"
          end in
        Ok (IsMessage
              (set_Fields message
                 (m_Fields message
                  ++ [newField "additionalProperties"
                        ("map<string, " +++ mapValueType +++ ">")])),
            parent1, c2)
    | None => Ok (IsMessage message, parentMessage, c1)
    end.
Proof.
  intros Ht Hs Hi Hn Hb Ha Ho. simpl. rewrite Ht, Hs, Hi, Hn, Hb, Ha, Ho. reflexivity.
Qed.


Lemma attach_nil (parent : option ProtoMessage) : attach parent [] = parent.
Proof.
  destruct parent as [[name fields nested enums options] |]; [| reflexivity].
  unfold attach, set_Messages. simpl. now rewrite app_nil_r.
Qed.

Lemma attach_attach (parent : option ProtoMessage) (l1 l2 : list ProtoMessage) :
  attach (attach parent l1) l2 = attach parent (l1 ++ l2).
Proof.
  destruct parent as [p |]; [| reflexivity].
  unfold attach, set_Messages. simpl. now rewrite app_assoc.
Qed.

Lemma addNested_attach (parent : option ProtoMessage) (l : list ProtoMessage)
  (nested : ProtoMessage) :
  addNestedMessageToParent (attach parent l) nested = attach parent (l ++ [nested]).
Proof.
  destruct parent as [p |]; [| reflexivity].
  unfold addNestedMessageToParent, attach, set_Messages. simpl. now rewrite app_assoc.
Qed.

Lemma addImports_app (i1 i2 : list string) (c : ProtoConverter) :
  addImports (i1 ++ i2) c = addImports i2 (addImports i1 c).
Proof. unfold addImports. apply fold_left_app. Qed.

Lemma grow_nil (message : ProtoMessage) : grow message [] [] = message.
Proof. destruct message. unfold grow. simpl. now rewrite !app_nil_r. Qed.

Lemma grow_grow (message : ProtoMessage) (f1 f2 : list ProtoField) (n1 n2 : list ProtoMessage) :
  grow (grow message f1 n1) f2 n2 = grow message (f1 ++ f2) (n1 ++ n2).
Proof. unfold grow. simpl. now rewrite !app_assoc. Qed.


Lemma shape_result
  (run : option ProtoMessage -> ProtoConverter
         -> result (FieldOrMessage * option ProtoMessage * ProtoConverter))
  r1 r2 nested imports p0 c0 p1 c1 :
  (forall parent c, run parent c = Ok (r1, attach parent nested, addImports imports c)) ->
  run p0 c0 = Ok (r2, p1, c1) ->
  r2 = r1 /\ p1 = attach p0 nested /\ c1 = addImports imports c0.
Proof.
  intros Hall Hrun. rewrite Hall in Hrun. injection Hrun as <- <- <-. tauto.
Qed.

Lemma convertProperties_shape (props : list (string * SchemaRef)) :
  Forall (fun prop => forall name, shape (convertSchemaRef (snd prop) name))
         props ->
  (exists fields nested imports,
     (forall message c,
        convertProperties props message c
        = Ok (grow message fields nested, addImports imports c))
     /\ (forall propName propSchema r p0 c0 p1 c1,
           In (propName, propSchema) props ->
           convertSchemaRef propSchema propName p0 c0 = Ok (r, p1, c1) ->
           contributes propName r fields nested))
  \/ (forall message c, convertProperties props message c = Err "schema type is required").
Proof.
  induction props as [| [propName propSchema] rest IH]; intros Hall.
  - left. exists [], [], []. split.
    + intros message c. simpl. now rewrite grow_nil.
    + intros ? ? ? ? ? ? ? [].
  - inversion Hall as [| ? ? Hhead Htail]; subst.
    destruct (Hhead propName) as [[r [l [i Hrun]]] | Herr]; simpl in *.
    2: { right. intros message c. simpl. now rewrite Herr. }
    destruct (IH Htail) as [[fs [ms [imps [Hrest Hcontrib]]]] | Hresterr].
    2: { right. intros message c. simpl. rewrite Hrun. simpl.
         destruct r; apply Hresterr. }
    left.
    set (fs1 := match r with
                | IsField v => [v]
                | IsMessage nm => [newField (propName +++ "Field") (m_Name nm)]
                | IsNil => []
                end).
    set (ms1 := match r with
                | IsMessage nm => l ++ [nm]
                | _ => l
                end).
    exists (fs1 ++ fs), (ms1 ++ ms), (i ++ imps). split.
    + intros message c. simpl. rewrite Hrun. simpl.
      rewrite addImports_app, <- grow_grow.
      destruct r; simpl; rewrite Hrest; subst fs1 ms1; f_equal; f_equal; f_equal;
        destruct message; unfold grow, set_Fields, set_Messages; simpl;
        rewrite ?app_nil_r, ?app_assoc; reflexivity.
    + intros pn ps r' p0 c0 p1 c1 [Heq | Hin] Hconv.
      * injection Heq as <- <-.
        destruct (shape_result _ _ _ _ _ _ _ _ _ Hrun Hconv) as [-> _].
        subst fs1 ms1. unfold contributes.
        destruct r; repeat rewrite in_app_iff; simpl; tauto.
      * specialize (Hcontrib pn ps r' p0 c0 p1 c1 Hin Hconv).
        unfold contributes in *.
        destruct r'; repeat rewrite in_app_iff; tauto.
Qed.


Lemma AddProtoImport_addImports (importFile : string) (c : ProtoConverter) :
  AddProtoImport importFile c = addImports [importFile] c.
Proof. reflexivity. Qed.

Lemma ConvertSchema_shape (schemaRef : SchemaRef) :
  forall protoName, shape (convertSchemaRef schemaRef protoName).
Proof.
  pattern schemaRef. apply SchemaRef_nested_ind. clear schemaRef.
  intros ref value IH protoName. unfold shape.
  destruct (String.eqb_spec ref "") as [-> | Hne].
  2: { left. exists (IsField (newField (ExtractMessageNameFromRef ref)
                                       (ExtractMessageNameFromRef ref))), [], [].
       intros parent c. rewrite attach_nil. simpl.
       apply String.eqb_neq in Hne. now rewrite Hne. }
  destruct value as [[types format items props additional] |].
  2: { left. exists IsNil, [], []. intros parent c. now rewrite attach_nil. }
  destruct types as [types |].
  2: { right. reflexivity. }
  simpl in IH. destruct IH as [IHitem [IHprops IHadd]].
  destruct (Includes types "string") eqn:Hs.
  { destruct ((format =? "date") || (format =? "date-time")) eqn:Hf.
    - left. exists (IsField (newField protoName "google.protobuf.Timestamp")), [],
        ["google/protobuf/timestamp.proto"].
      intros parent c. rewrite attach_nil. simpl. now rewrite Hs, Hf.
    - left. exists (IsField (newField protoName "string")), [], [].
      intros parent c. rewrite attach_nil. simpl. now rewrite Hs, Hf. }
  destruct (Includes types "integer") eqn:Hi.
  { left. exists (IsField (newField protoName (if format =? "int32" then "int32" else "int64"))),
      [], [].
    intros parent c. rewrite attach_nil. simpl. rewrite Hs, Hi. now destruct (format =? "int32"). }
  destruct (Includes types "number") eqn:Hn.
  { left. exists (IsField (newField protoName (if format =? "float" then "float" else "double"))),
      [], [].
    intros parent c. rewrite attach_nil. simpl. rewrite Hs, Hi, Hn.
    now destruct (format =? "float"). }
  destruct (Includes types "boolean") eqn:Hb.
  { left. exists (IsField (newField protoName "bool")), [], [].
    intros parent c. rewrite attach_nil. simpl. now rewrite Hs, Hi, Hn, Hb. }
  destruct (Includes types "array") eqn:Ha.
  { destruct items as [item |].
    - destruct (IHitem (protoName +++ "Item")) as [[r [l [i Hrun]]] | Herr].
      + left.
        exists (IsField match r with
                        | IsField it => mkField protoName (f_Type it) true []
                        | IsMessage nm => mkField protoName (m_Name nm) true []
                        | IsNil => newField protoName ""
                        end),
          (match r with IsMessage nm => l ++ [nm] | _ => l end), i.
        intros parent c. simpl. rewrite Hs, Hi, Hn, Hb, Ha, Hrun. simpl.
        destruct r; try reflexivity. now rewrite addNested_attach.
      + right. intros parent c. simpl. now rewrite Hs, Hi, Hn, Hb, Ha, Herr.
    - left. exists (IsField (newField protoName "")), [], [].
      intros parent c. rewrite attach_nil. simpl. now rewrite Hs, Hi, Hn, Hb, Ha. }
  destruct (Includes types "object") eqn:Ho.
  2: { left. exists (IsField (newField protoName "")), [], [].
       intros parent c. rewrite attach_nil. simpl. now rewrite Hs, Hi, Hn, Hb, Ha, Ho. }
  destruct (convertProperties_shape props IHprops) as [[fs [ms [imps [Hloop _]]]] | Hlooperr].
  2: { right. intros parent c.
       rewrite (ConvertSchema_object_eq _ types) by (simpl; assumption || reflexivity).
       simpl. now rewrite Hlooperr. }
  destruct additional as [a |].
  - destruct (IHadd (protoName +++ "AdditionalProperties")) as [[r [l [i Hrun]]] | Herr].
    + left. eexists _, l, (imps ++ i). intros parent c.
      rewrite (ConvertSchema_object_eq _ types) by (simpl; assumption || reflexivity).
      simpl. rewrite Hloop. simpl. rewrite Hrun. simpl.
      rewrite addImports_app. reflexivity.
    + right. intros parent c.
      rewrite (ConvertSchema_object_eq _ types) by (simpl; assumption || reflexivity).
      simpl. rewrite Hloop. simpl. now rewrite Herr.
  - left. exists (IsMessage (grow (newMessage protoName) fs ms)), [], imps.
    intros parent c. rewrite attach_nil.
    rewrite (ConvertSchema_object_eq _ types) by (simpl; assumption || reflexivity).
    simpl. now rewrite Hloop.
Qed.


(** ** The import list along a conversion *)


Lemma importsGrow_refl (c : ProtoConverter) : importsGrow c c.
Proof. split; auto. Qed.

Lemma importsGrow_trans (c1 c2 c3 : ProtoConverter) :
  importsGrow c1 c2 -> importsGrow c2 c3 -> importsGrow c1 c3.
Proof. intros [H1 H2] [H3 H4]. split; auto. Qed.

Lemma AddProtoImport_In (importFile : string) (c : ProtoConverter) :
  In importFile (Imports (ProtoFile_ (AddProtoImport importFile c))).
Proof.
  unfold AddProtoImport.
  destruct (hasName importFile (Imports (ProtoFile_ c))) eqn:Hh.
  - now apply hasName_In.
  - simpl. apply in_or_app. right. now left.
Qed.

Lemma AddProtoImport_grow (importFile : string) (c : ProtoConverter) :
  importsGrow c (AddProtoImport importFile c).
Proof.
  unfold AddProtoImport, importsGrow.
  destruct (hasName importFile (Imports (ProtoFile_ c))) eqn:Hh; [auto |].
  apply hasName_not_In in Hh. simpl. split.
  - intros Hnd. apply NoDup_app_remove_l with (l := []). simpl.
    apply Permutation_NoDup with (l := importFile :: Imports (ProtoFile_ c)).
    + apply Permutation_cons_append.
    + now constructor.
  - intros x Hx. apply in_or_app. now left.
Qed.

Lemma AddProtoImport_Messages (importFile : string) (c : ProtoConverter) :
  Messages (ProtoFile_ (AddProtoImport importFile c)) = Messages (ProtoFile_ c).
Proof. unfold AddProtoImport. now destruct (hasName _ _). Qed.

Lemma addImports_grow (imports : list string) (c : ProtoConverter) :
  importsGrow c (addImports imports c).
Proof.
  revert c. induction imports as [| i rest IH]; intros c.
  - apply importsGrow_refl.
  - simpl. eapply importsGrow_trans; [apply AddProtoImport_grow | apply IH].
Qed.

Lemma addImports_Messages (imports : list string) (c : ProtoConverter) :
  Messages (ProtoFile_ (addImports imports c)) = Messages (ProtoFile_ c).
Proof.
  revert c. induction imports as [| i rest IH]; intros c; [reflexivity |].
  simpl. fold (addImports rest (AddProtoImport i c)).
  now rewrite IH, AddProtoImport_Messages.
Qed.

Lemma addMessageToProto_Imports (message : ProtoMessage) (c : ProtoConverter) :
  Imports (ProtoFile_ (addMessageToProto message c)) = Imports (ProtoFile_ c).
Proof. unfold addMessageToProto. now destruct (mergeIntoExisting _ _). Qed.

Lemma addMessageToProto_grow (message : ProtoMessage) (c : ProtoConverter) :
  importsGrow c (addMessageToProto message c).
Proof. unfold importsGrow. rewrite addMessageToProto_Imports. auto. Qed.

(** A conversion that returns leaves the file as it was, but for imports. *)
Lemma ConvertSchema_Ok (schemaRef : SchemaRef) (protoName : string)
  (parent : option ProtoMessage) (c : ProtoConverter) r parent' c' :
  convertSchemaRef schemaRef protoName parent c = Ok (r, parent', c') ->
  exists nested imports, parent' = attach parent nested /\ c' = addImports imports c.
Proof.
  intros Hrun.
  destruct (ConvertSchema_shape schemaRef protoName) as [[r0 [l [i Hall]]] | Herr].
  - destruct (shape_result _ _ _ _ _ _ _ _ _ Hall Hrun) as [_ [-> ->]]. now exists l, i.
  - rewrite Herr in Hrun. discriminate.
Qed.

Lemma ConvertSchema_grow (schemaRef : SchemaRef) (protoName : string)
  (parent : option ProtoMessage) (c : ProtoConverter) r parent' c' :
  convertSchemaRef schemaRef protoName parent c = Ok (r, parent', c') ->
  importsGrow c c' /\ Messages (ProtoFile_ c') = Messages (ProtoFile_ c).
Proof.
  intros Hrun. apply ConvertSchema_Ok in Hrun. destruct Hrun as [l [i [_ ->]]].
  split; [apply addImports_grow | apply addImports_Messages].
Qed.

Lemma convertContent_grow (nameOf : string -> string) (content : Content) :
  forall message c message' c',
    convertContent nameOf content message c = Ok (message', c') ->
    importsGrow c c' /\ Messages (ProtoFile_ c') = Messages (ProtoFile_ c).
Proof.
  induction content as [| [mediaTypeStr mediaType] rest IH]; intros message c message' c' Hrun.
  - injection Hrun as <- <-. split; [apply importsGrow_refl | reflexivity].
  - simpl in Hrun. destruct (mt_Schema mediaType) as [schema |].
    + bind_inv Hrun. apply ConvertSchema_grow in Hrun0. apply IH in Hrun.
      destruct Hrun0 as [G1 M1], Hrun as [G2 M2].
      split; [eapply importsGrow_trans; eassumption | congruence].
    + now apply IH in Hrun.
Qed.

Lemma convertParameters_grow (params : list ParameterRef) :
  forall message c message' c',
    convertParameters params message c = Ok (message', c') ->
    importsGrow c c' /\ Messages (ProtoFile_ c') = Messages (ProtoFile_ c).
Proof.
  induction params as [| param rest IH]; intros message c message' c' Hrun.
  - injection Hrun as <- <-. split; [apply importsGrow_refl | reflexivity].
  - simpl in Hrun. destruct (pr_Value param) as [value |]; [| discriminate].
    destruct (p_Schema value) as [schema |].
    + bind_inv Hrun. apply ConvertSchema_grow in Hrun0. apply IH in Hrun.
      destruct Hrun0 as [G1 M1], Hrun as [G2 M2].
      split; [eapply importsGrow_trans; eassumption | congruence].
    + now apply IH in Hrun.
Qed.

Lemma convertHeaders_grow (headers : list (string * option HeaderRef)) :
  forall message c message' c',
    convertHeaders headers message c = Ok (message', c') ->
    importsGrow c c' /\ Messages (ProtoFile_ c') = Messages (ProtoFile_ c).
Proof.
  induction headers as [| [headerName headerRef] rest IH]; intros message c message' c' Hrun.
  - injection Hrun as <- <-. split; [apply importsGrow_refl | reflexivity].
  - simpl in Hrun. destruct headerRef as [ref |]; [| now apply IH in Hrun].
    destruct (h_Value ref) as [[schema |] |]; try discriminate.
    bind_inv Hrun. apply ConvertSchema_grow in Hrun0. apply IH in Hrun.
    destruct Hrun0 as [G1 M1], Hrun as [G2 M2].
    split; [eapply importsGrow_trans; eassumption | congruence].
Qed.

Lemma assembleRequestMessage_grow (operation : Operation) (content : Content)
  (c : ProtoConverter) name c' :
  assembleRequestMessage operation content c = Ok (name, c') -> importsGrow c c'.
Proof.
  unfold assembleRequestMessage. intros Hrun.
  bind_inv Hrun. bind_inv Hrun.
  apply convertContent_grow in Hrun0. apply convertParameters_grow in Hrun1.
  destruct Hrun0 as [G1 _], Hrun1 as [G2 _].
  destruct (_ || _)%bool; injection Hrun as <- <-.
  - eapply importsGrow_trans; [eassumption |].
    eapply importsGrow_trans; [eassumption | apply addMessageToProto_grow].
  - eapply importsGrow_trans; eassumption.
Qed.

Lemma generateRequestMessage_grow (operation : Operation) (c : ProtoConverter) name c' :
  generateRequestMessage operation c = Ok (name, c') -> importsGrow c c'.
Proof.
  unfold generateRequestMessage. intros Hrun.
  destruct (RequestBody operation) as [body |].
  - destruct (negb (rb_Ref body =? "")).
    + injection Hrun as <- <-. apply importsGrow_refl.
    + destruct (rb_Value body); now apply assembleRequestMessage_grow in Hrun.
  - destruct (List.length (Parameters operation) =? 0)%nat.
    + injection Hrun as <- <-. apply AddProtoImport_grow.
    + now apply assembleRequestMessage_grow in Hrun.
Qed.

Lemma processSingleResponse_grow statusCode responseRef operation (c : ProtoConverter) name c' :
  processSingleResponse statusCode responseRef operation c = Ok (name, c') -> importsGrow c c'.
Proof.
  unfold processSingleResponse. intros Hrun.
  destruct (negb (rr_Ref responseRef =? "")).
  - injection Hrun as <- <-. apply importsGrow_refl.
  - destruct (rr_Value responseRef) as [response |]; [| discriminate].
    bind_inv Hrun. bind_inv Hrun.
    apply convertHeaders_grow in Hrun0. apply convertContent_grow in Hrun1.
    destruct Hrun0 as [G1 _], Hrun1 as [G2 _].
    destruct (_ || _)%bool; injection Hrun as <- <-.
    + eapply importsGrow_trans; [eassumption |].
      eapply importsGrow_trans; [eassumption | apply addMessageToProto_grow].
    + eapply importsGrow_trans; eassumption.
Qed.

Lemma wrapResponses_grow operation (responses : list (string * ResponseRef)) :
  forall wrapper flag c wrapper' flag' c',
    wrapResponses operation responses wrapper flag c = Ok (wrapper', flag', c') ->
    importsGrow c c'.
Proof.
  induction responses as [| [statusCode responseRef] rest IH];
    intros wrapper flag c wrapper' flag' c' Hrun; simpl in Hrun.
  - injection Hrun as <- <- <-. apply importsGrow_refl.
  - destruct (contentLess responseRef).
    + injection Hrun as <- <- <-. apply importsGrow_refl.
    + bind_inv Hrun. apply processSingleResponse_grow in Hrun0. apply IH in Hrun.
      eapply importsGrow_trans; eassumption.
Qed.

Lemma generateResponseMessage_grow (operation : Operation) (c : ProtoConverter) name c' :
  generateResponseMessage operation c = Ok (name, c') -> importsGrow c c'.
Proof.
  unfold generateResponseMessage. intros Hrun.
  destruct (Responses operation) as [responses |].
  2: { injection Hrun as <- <-. apply importsGrow_refl. }
  assert (Hwrap :
    (let* (wrapperMessage, emptyFlag, c1) :=
       wrapResponses operation responses (newMessage (OperationID operation)) true c in
     if emptyFlag then Ok (EmptyProtoFile, AddProtoImport EmptyProtoFile c1)
     else Ok (OperationID operation, addMessageToProto wrapperMessage c1)) = Ok (name, c') ->
    importsGrow c c').
  { intros Hw. bind_inv Hw. apply wrapResponses_grow in Hrun0.
    destruct b; injection Hw as <- <-; (eapply importsGrow_trans; [eassumption |]).
    - apply AddProtoImport_grow.
    - apply addMessageToProto_grow. }
  destruct responses as [| [statusCode responseRef] [| second rest]]; try (now apply Hwrap).
  destruct (contentLess responseRef).
  - injection Hrun as <- <-. apply AddProtoImport_grow.
  - now apply processSingleResponse_grow in Hrun.
Qed.


Lemma generateRequestMessage_empty (operation : Operation) (c : ProtoConverter) :
  RequestBody operation = None ->
  Parameters operation = [] ->
  generateRequestMessage operation c = Ok (EmptyProtoFile, AddProtoImport EmptyProtoFile c).
Proof. intros Hb Hp. unfold generateRequestMessage. now rewrite Hb, Hp. Qed.

Lemma convertOperations_grow path (operations : list (string * Operation)) :
  forall services c services' c',
    convertOperations path operations services c = Ok (services', c') ->
    importsGrow c c'
    /\ (forall method operation,
          In (method, operation) operations ->
          RequestBody operation = None ->
          Parameters operation = [] ->
          In EmptyProtoFile (Imports (ProtoFile_ c'))).
Proof.
  induction operations as [| [method operation] rest IH]; intros services c services' c' Hrun.
  - injection Hrun as <- <-. split; [apply importsGrow_refl | intros ? ? []].
  - simpl in Hrun. bind_inv Hrun. bind_inv Hrun.
    apply wrap_Ok in Hrun0, Hrun1.
    pose proof (generateRequestMessage_grow _ _ _ _ Hrun0) as G1.
    pose proof (generateResponseMessage_grow _ _ _ _ Hrun1) as G2.
    apply IH in Hrun. destruct Hrun as [G3 Hempty].
    split.
    + eapply importsGrow_trans; [eassumption |]. eapply importsGrow_trans; eassumption.
    + intros m op [Heq | Hin] Hb Hp.
      * injection Heq as <- <-.
        rewrite generateRequestMessage_empty in Hrun0 by assumption.
        injection Hrun0 as <- <-.
        apply G3, G2, AddProtoImport_In.
      * eapply Hempty; eassumption.
Qed.

Lemma ConvertPathsToProtoServices_grow (paths : Paths) :
  forall services c services' c',
    ConvertPathsToProtoServices paths services c = Ok (services', c') ->
    importsGrow c c'
    /\ (forall path operations method operation,
          In (path, operations) paths ->
          In (method, operation) operations ->
          RequestBody operation = None ->
          Parameters operation = [] ->
          In EmptyProtoFile (Imports (ProtoFile_ c'))).
Proof.
  induction paths as [| [path operations] rest IH]; intros services c services' c' Hrun.
  - injection Hrun as <- <-. split; [apply importsGrow_refl | intros ? ? ? ? []].
  - simpl in Hrun. bind_inv Hrun.
    apply convertOperations_grow in Hrun0. destruct Hrun0 as [G1 E1].
    apply IH in Hrun. destruct Hrun as [G2 E2].
    split; [eapply importsGrow_trans; eassumption |].
    intros pa ops m op [Heq | Hin] Hop Hb Hpar.
    + injection Heq as <- <-. apply G2. eapply E1; eassumption.
    + eapply E2; eassumption.
Qed.

Lemma convertSchemas_grow (schemas : list (string * SchemaRef)) :
  forall c c', convertSchemas schemas c = Ok c' -> importsGrow c c'.
Proof.
  induction schemas as [| [name schema] rest IH]; intros c c' Hrun.
  - injection Hrun as <-. apply importsGrow_refl.
  - simpl in Hrun. bind_inv Hrun. apply wrap_Ok in Hrun0.
    apply ConvertSchema_grow in Hrun0. destruct Hrun0 as [G1 _].
    destruct x; apply IH in Hrun;
      (eapply importsGrow_trans; [eassumption |]); try assumption;
      (eapply importsGrow_trans; [apply addMessageToProto_grow | eassumption]).
Qed.

Lemma Convert_grow (spec : T) (c c' : ProtoConverter) :
  Convert spec c = Ok c' ->
  importsGrow c c'
  /\ (forall path operations method operation,
        In (path, operations) (spec_Paths spec) ->
        In (method, operation) operations ->
        RequestBody operation = None ->
        Parameters operation = [] ->
        In EmptyProtoFile (Imports (ProtoFile_ c'))).
Proof.
  unfold Convert. intros Hrun. bind_inv Hrun. bind_inv Hrun.
  apply wrap_Ok in Hrun0, Hrun1.
  assert (G1 : importsGrow c x).
  { unfold convertComponentsToProtoMessages in Hrun0.
    destruct (spec_Components spec).
    - now apply convertSchemas_grow in Hrun0.
    - injection Hrun0 as <-. apply importsGrow_refl. }
  unfold convertPathsToProtoServices in Hrun1. bind_inv Hrun1. apply wrap_Ok in Hrun2.
  apply ConvertPathsToProtoServices_grow in Hrun2. destruct Hrun2 as [G2 E2].
  injection Hrun1 as <-. injection Hrun as <-.
  set (c2 := set_Services p (Services (ProtoFile_ p) ++ x1)).
  assert (G3 : importsGrow p c2) by (split; auto).
  set (c3 := if openapiOption (converterOption c2) then AddProtoImport openapiProtoFile c2 else c2).
  assert (G4 : importsGrow c2 c3).
  { subst c3. destruct (openapiOption _); [apply AddProtoImport_grow | apply importsGrow_refl]. }
  assert (G5 : importsGrow c3 (if apiOption (converterOption c3)
                               then AddProtoImport apiProtoFile c3 else c3)).
  { destruct (apiOption _); [apply AddProtoImport_grow | apply importsGrow_refl]. }
  split.
  - apply (importsGrow_trans _ _ _ G1). apply (importsGrow_trans _ _ _ G2).
    apply (importsGrow_trans _ _ _ G3). apply (importsGrow_trans _ _ _ G4). exact G5.
  - intros path ops m op Hp Ho Hb Hpar.
    apply G5, G4, G3. eapply E2; eassumption.
Qed.

(** C8.  An operation with no request body and no parameters gets the input
    type [google.protobuf.empty]: the call registers that import and leaves
    the messages of the file as they were; and after a whole conversion
    started on a new converter, a document with such an operation, however
    many of them, has that import exactly once in the import list. *)
Theorem empty_request_imports_once (operation : Operation) :
  RequestBody operation = None ->
  Parameters operation = [] ->
  (forall c,
     generateRequestMessage operation c = Ok (EmptyProtoFile, AddProtoImport EmptyProtoFile c)
     /\ Messages (ProtoFile_ (AddProtoImport EmptyProtoFile c)) = Messages (ProtoFile_ c))
  /\ (forall spec packageName c' path operations method,
        In (path, operations) (spec_Paths spec) ->
        In (method, operation) operations ->
        Convert spec (NewProtoConverter packageName) = Ok c' ->
        count_occ string_dec (Imports (ProtoFile_ c')) EmptyProtoFile = 1).
Proof.
  intros Hb Hp. split.
  - intros c. split; [now apply generateRequestMessage_empty | apply AddProtoImport_Messages].
  - intros spec packageName c' path operations method Hpath Hop Hrun.
    apply Convert_grow in Hrun. destruct Hrun as [[Hnd _] Hempty].
    apply NoDup_count_occ'.
    + apply Hnd. simpl. constructor.
    + eapply Hempty; eassumption.
Qed.


(** ** Schemas without a type *)





(** ** Object schemas *)

(** C10.  When an object schema is converted, every property whose own
    schema converts to a message leaves two things in the message of the
    object: that message among the nested messages, and a field named after
    the property with "Field" appended whose type is the name of the nested
    message. *)
Theorem object_property_message_field (schema : Schema) (types : list string)
  protoName parent (c : ProtoConverter) r parent' c' :
  Type_ schema = Some types ->
  reachesObjectBranch types = true ->
  ConvertSchemaToProtoFieldOrMessage (Some (mkSchemaRef "" (Some schema))) protoName parent c
  = Ok (r, parent', c') ->
  exists message,
    r = IsMessage message
    /\ m_Name message = protoName
    /\ (forall propName propSchema nestedMessage p0 c0 p1 c1,
          In (propName, propSchema) (Properties schema) ->
          ConvertSchemaToProtoFieldOrMessage (Some propSchema) propName p0 c0
          = Ok (IsMessage nestedMessage, p1, c1) ->
          In nestedMessage (m_Messages message)
          /\ In (newField (propName +++ "Field") (m_Name nestedMessage)) (m_Fields message)).
Proof.
  unfold ConvertSchemaToProtoFieldOrMessage.
  intros Hty Hobj Hrun.
  unfold reachesObjectBranch in Hobj.
  repeat (apply andb_prop in Hobj; destruct Hobj as [Hobj ?]).
  repeat match goal with Hn : negb _ = true |- _ => apply negb_true_iff in Hn end.
  rewrite (ConvertSchema_object_eq _ types) in Hrun by assumption.
  destruct (convertProperties_shape (Properties schema)) as [[fs [ms [imps [Hloop Hc]]]] | Herr].
  { apply Forall_forall. intros prop _. apply ConvertSchema_shape. }
  2: { rewrite Herr in Hrun. discriminate. }
  rewrite Hloop in Hrun. simpl in Hrun.
  destruct (AdditionalProperties schema) as [additional |].
  - bind_inv Hrun. injection Hrun as <- <- <-.
    eexists. split; [reflexivity |]. split; [reflexivity |].
    intros propName propSchema nested p0 c0 p1 c1 Hin Hconv.
    specialize (Hc _ _ _ _ _ _ _ Hin Hconv). simpl in Hc. destruct Hc as [Hm Hf].
    simpl. rewrite !in_app_iff. tauto.
  - injection Hrun as <- <- <-.
    eexists. split; [reflexivity |]. split; [reflexivity |].
    intros propName propSchema nested p0 c0 p1 c1 Hin Hconv.
    specialize (Hc _ _ _ _ _ _ _ Hin Hconv). simpl in Hc. destruct Hc as [Hm Hf].
    simpl. tauto.
Qed.

(** ** Request messages *)


Lemma extendsMessage_refl (m : ProtoMessage) : extendsMessage m m.
Proof. repeat split; apply incl_refl. Qed.

Lemma extendsMessage_trans (m1 m2 m3 : ProtoMessage) :
  extendsMessage m1 m2 -> extendsMessage m2 m3 -> extendsMessage m1 m3.
Proof.
  intros [N1 [F1 [M1 [E1 O1]]]] [N2 [F2 [M2 [E2 O2]]]].
  repeat split; try congruence; eapply incl_tran; eassumption.
Qed.

Lemma holds_extends (r : FieldOrMessage) (m m' : ProtoMessage) :
  holds r m -> extendsMessage m m' -> holds r m'.
Proof.
  intros Hh [_ [F [M _]]]. destruct r; simpl in *; auto.
  - eapply incl_map; eassumption.
  - eapply incl_map; eassumption.
Qed.

Lemma addFieldOrMessage_step (r : FieldOrMessage) (message : ProtoMessage)
  (nested : list ProtoMessage) :
  let message' :=
    addFieldOrMessage r (pointee (attach (Some message) nested) message) in
  extendsMessage message message' /\ holds r message'.
Proof.
  simpl. destruct r as [v | v |]; simpl.
  - unfold addFieldIfNotExists, extendsMessage.
    destruct (hasName (f_Name v) (map f_Name (m_Fields message))) eqn:Hh; simpl.
    + apply hasName_In in Hh. repeat split; auto using incl_refl, incl_appl.
    + repeat split; auto using incl_refl, incl_appl.
      rewrite map_app, in_app_iff. right. now left.
  - unfold addMessageIfNotExists, extendsMessage.
    destruct (hasName (m_Name v) (map m_Name (m_Messages message ++ nested))) eqn:Hh; simpl.
    + apply hasName_In in Hh. repeat split; auto using incl_refl, incl_appl.
    + repeat split; auto using incl_refl, incl_appl.
      rewrite map_app, in_app_iff. right. now left.
  - unfold extendsMessage. simpl. repeat split; auto using incl_refl, incl_appl.
Qed.

Lemma ConvertSchema_same_result (schemaRef : SchemaRef) protoName p0 c0 p1 c1 r p0' c0' p1' c1' r' :
  convertSchemaRef schemaRef protoName p0 c0 = Ok (r, p1, c1) ->
  convertSchemaRef schemaRef protoName p0' c0' = Ok (r', p1', c1') ->
  r' = r.
Proof.
  intros H1 H2.
  destruct (ConvertSchema_shape schemaRef protoName) as [[r0 [l [i Hall]]] | Herr].
  - rewrite Hall in H1, H2. congruence.
  - rewrite Herr in H1. discriminate.
Qed.

Lemma convertContent_collects (nameOf : string -> string) (content : Content) :
  forall message c message' c',
    convertContent nameOf content message c = Ok (message', c') ->
    extendsMessage message message'
    /\ (forall mediaTypeStr mediaType schema r p0 c0 p1 c1,
          In (mediaTypeStr, mediaType) content ->
          mt_Schema mediaType = Some schema ->
          convertSchemaRef schema (nameOf mediaTypeStr) p0 c0
          = Ok (r, p1, c1) ->
          holds r message').
Proof.
  induction content as [| [mt mediaType] rest IH]; intros message c message' c' Hrun.
  - injection Hrun as <- <-. split; [apply extendsMessage_refl | intros ? ? ? ? ? ? ? ? []].
  - simpl in Hrun. destruct (mt_Schema mediaType) as [schema |] eqn:Hs.
    + bind_inv Hrun.
      destruct (ConvertSchema_Ok _ _ _ _ _ _ _ Hrun0) as [l [i [-> ->]]].
      destruct (addFieldOrMessage_step x message l) as [E1 H1].
      apply IH in Hrun. destruct Hrun as [E2 H2]. split.
      * eapply extendsMessage_trans; eassumption.
      * intros mt' mediaType' schema' r p0 c0 p1 c1 [Heq | Hin] Hs' Hconv.
        -- injection Heq as <- <-. rewrite Hs in Hs'. injection Hs' as <-.
           rewrite (ConvertSchema_same_result _ _ _ _ _ _ _ _ _ _ _ _ Hrun0 Hconv).
           eapply holds_extends; eassumption.
        -- eapply H2; eassumption.
    + apply IH in Hrun. destruct Hrun as [E2 H2]. split; [assumption |].
      intros mt' mediaType' schema' r p0 c0 p1 c1 [Heq | Hin] Hs' Hconv.
      * injection Heq as <- <-. congruence.
      * eapply H2; eassumption.
Qed.

Lemma convertParameters_collects (params : list ParameterRef) :
  forall message c message' c',
    convertParameters params message c = Ok (message', c') ->
    extendsMessage message message'
    /\ (forall param value schema r p0 c0 p1 c1,
          In param params ->
          pr_Value param = Some value ->
          p_Schema value = Some schema ->
          convertSchemaRef schema (p_Name value) p0 c0 = Ok (r, p1, c1) ->
          holds r message').
Proof.
  induction params as [| param rest IH]; intros message c message' c' Hrun.
  - injection Hrun as <- <-. split; [apply extendsMessage_refl | intros ? ? ? ? ? ? ? ? []].
  - simpl in Hrun. destruct (pr_Value param) as [value |] eqn:Hv; [| discriminate].
    destruct (p_Schema value) as [schema |] eqn:Hs.
    + bind_inv Hrun.
      destruct (ConvertSchema_Ok _ _ _ _ _ _ _ Hrun0) as [l [i [-> ->]]].
      destruct (addFieldOrMessage_step x message l) as [E1 H1].
      apply IH in Hrun. destruct Hrun as [E2 H2]. split.
      * eapply extendsMessage_trans; eassumption.
      * intros param' value' schema' r p0 c0 p1 c1 [Heq | Hin] Hv' Hs' Hconv.
        -- subst param'. rewrite Hv in Hv'. injection Hv' as <-.
           rewrite Hs in Hs'. injection Hs' as <-.
           rewrite (ConvertSchema_same_result _ _ _ _ _ _ _ _ _ _ _ _ Hrun0 Hconv).
           eapply holds_extends; eassumption.
        -- eapply H2; eassumption.
    + apply IH in Hrun. destruct Hrun as [E2 H2]. split; [assumption |].
      intros param' value' schema' r p0 c0 p1 c1 [Heq | Hin] Hv' Hs' Hconv.
      * subst param'. congruence.
      * eapply H2; eassumption.
Qed.

Lemma fold_addFieldIfNotExists (fields acc : list ProtoField) :
  fold_left addFieldIfNotExists fields acc
  = acc ++ firstOfEachNameFrom f_Name (map f_Name acc) fields.
Proof.
  revert acc. induction fields as [| v rest IH]; intros acc; simpl.
  - now rewrite app_nil_r.
  - rewrite IH. unfold addFieldIfNotExists.
    destruct (hasName (f_Name v) (map f_Name acc)); [reflexivity |].
    rewrite map_app, <- app_assoc. reflexivity.
Qed.

Lemma nestedOf_app (results1 results2 : list Converted) :
  forall seen, nestedOf seen (results1 ++ results2) = nestedOf (nestedOf seen results1) results2.
Proof.
  induction results1 as [| [r handed] rest IH]; intros seen; simpl; [reflexivity |].
  apply IH.
Qed.

Lemma grown_nil (message : ProtoMessage) : grown message [] = message.
Proof. now destruct message. Qed.

Lemma grown_app (message : ProtoMessage) (results1 results2 : list Converted) :
  grown message (results1 ++ results2) = grown (grown message results1) results2.
Proof.
  unfold grown, fieldsOf. simpl. rewrite flat_map_app, fold_left_app, nestedOf_app. reflexivity.
Qed.

Lemma grown_new (name : string) (results : list Converted) :
  grown (newMessage name) results
  = mkMessage name (firstOfEachName f_Name (fieldsOf results)) (nestedOf [] results) [] [].
Proof.
  unfold grown, firstOfEachName. simpl. now rewrite fold_addFieldIfNotExists.
Qed.

Lemma addFieldOrMessage_grown (r : FieldOrMessage) (message : ProtoMessage)
  (handed : list ProtoMessage) :
  addFieldOrMessage r (pointee (attach (Some message) handed) message)
  = grown message [(r, handed)].
Proof.
  destruct message as [name fields messages enums options].
  destruct r as [v | v |]; reflexivity.
Qed.

Lemma convertSchemaRef_convertsTo (schema : SchemaRef) (protoName : string)
  parent (c : ProtoConverter) r parent' c' :
  convertSchemaRef schema protoName parent c = Ok (r, parent', c') ->
  exists handed imports,
    convertsTo schema protoName (r, handed)
    /\ parent' = attach parent handed
    /\ c' = addImports imports c.
Proof.
  intros Hrun.
  destruct (ConvertSchema_shape schema protoName) as [[r0 [l [i Hall]]] | Herr].
  - destruct (shape_result _ _ _ _ _ _ _ _ _ Hall Hrun) as [-> [-> ->]].
    exists l, i. split; [| split; reflexivity].
    intros p0 c0. exists (addImports i c0). apply Hall.
  - rewrite Herr in Hrun. discriminate.
Qed.

Lemma convertsTo_determined (schema : SchemaRef) (protoName : string) (result : Converted)
  r handed (c c' : ProtoConverter) :
  ConvertSchemaToProtoFieldOrMessage (Some schema) protoName (Some (newMessage "")) c
  = Ok (r, Some (mkMessage "" [] handed [] []), c') ->
  convertsTo schema protoName result ->
  result = (r, handed).
Proof.
  intros Hrun Hto. destruct result as [r' handed'].
  destruct (Hto (Some (newMessage "")) c) as [c'' Hrun'].
  rewrite Hrun in Hrun'. cbn [fst snd attach newMessage m_Name m_Fields m_Messages m_Enums
    m_Options app] in Hrun'.
  now injection Hrun' as -> ->.
Qed.

Lemma convertContent_exact (nameOf : string -> string) (content : Content) :
  forall message c message' c',
    convertContent nameOf content message c = Ok (message', c') ->
    exists results imports,
      Forall2 (fun entry result => convertsTo (snd entry) (fst entry) result)
        (flat_map (fun entry =>
                     match mt_Schema (snd entry) with
                     | Some schema => [(nameOf (fst entry), schema)]
                     | None => []
                     end) content)
        results
      /\ message' = grown message results
      /\ c' = addImports imports c.
Proof.
  induction content as [| [mt mediaType] rest IH]; intros message c message' c' Hrun.
  - injection Hrun as <- <-. exists [], []. split; [constructor |].
    split; [now rewrite grown_nil | reflexivity].
  - simpl in Hrun. simpl. destruct (mt_Schema mediaType) as [schema |].
    + bind_inv Hrun.
      match goal with
      | Hconv : _ = Ok (?r, ?p, ?c1) |- _ =>
          destruct (convertSchemaRef_convertsTo _ _ _ _ _ _ _ Hconv)
            as [handed [imports1 [Hto [-> ->]]]]
      end.
      rewrite addFieldOrMessage_grown in Hrun. apply IH in Hrun.
      destruct Hrun as [results [imports2 [Hall [-> ->]]]].
      exists ((x, handed) :: results), (imports1 ++ imports2).
      split; [simpl; now constructor |].
      split; [| now rewrite addImports_app].
      exact (eq_sym (grown_app message [(x, handed)] results)).
    + simpl. now apply IH.
Qed.

Lemma convertParameters_exact (params : list ParameterRef) :
  forall message c message' c',
    convertParameters params message c = Ok (message', c') ->
    exists results imports,
      Forall2 (fun entry result => convertsTo (snd entry) (fst entry) result)
        (flat_map (fun param =>
                     match pr_Value param with
                     | Some value =>
                         match p_Schema value with
                         | Some schema => [(p_Name value, schema)]
                         | None => []
                         end
                     | None => []
                     end) params)
        results
      /\ message' = grown message results
      /\ c' = addImports imports c.
Proof.
  induction params as [| param rest IH]; intros message c message' c' Hrun.
  - injection Hrun as <- <-. exists [], []. split; [constructor |].
    split; [now rewrite grown_nil | reflexivity].
  - simpl in Hrun. simpl. destruct (pr_Value param) as [value |]; [| discriminate].
    destruct (p_Schema value) as [schema |].
    + bind_inv Hrun.
      match goal with
      | Hconv : _ = Ok (?r, ?p, ?c1) |- _ =>
          destruct (convertSchemaRef_convertsTo _ _ _ _ _ _ _ Hconv)
            as [handed [imports1 [Hto [-> ->]]]]
      end.
      rewrite addFieldOrMessage_grown in Hrun. apply IH in Hrun.
      destruct Hrun as [results [imports2 [Hall [-> ->]]]].
      exists ((x, handed) :: results), (imports1 ++ imports2).
      split; [simpl; now constructor |].
      split; [| now rewrite addImports_app].
      exact (eq_sym (grown_app message [(x, handed)] results)).
    + simpl. now apply IH.
Qed.

Lemma assembleRequestMessage_exact (operation : Operation) (content : Content)
  (c : ProtoConverter) name c' :
  assembleRequestMessage operation content c = Ok (name, c') ->
  exists results imports,
    Forall2 (fun entry result => convertsTo (snd entry) (fst entry) result)
      (flat_map (fun entry =>
                   match mt_Schema (snd entry) with
                   | Some schema =>
                       [(SanitizeName ((OperationID operation +++ "Request") +++ fst entry),
                         schema)]
                   | None => []
                   end) content
       ++ flat_map (fun param =>
                      match pr_Value param with
                      | Some value =>
                          match p_Schema value with
                          | Some schema => [(p_Name value, schema)]
                          | None => []
                          end
                      | None => []
                      end) (Parameters operation))
      results
    /\ let message :=
         mkMessage (OperationID operation +++ "Request")
           (firstOfEachName f_Name (fieldsOf results)) (nestedOf [] results) [] [] in
       (m_Fields message <> [] \/ m_Messages message <> [] ->
        name = OperationID operation +++ "Request"
        /\ c' = addMessageToProto message (addImports imports c))
       /\ (m_Fields message = [] -> m_Messages message = [] ->
           name = "" /\ c' = addImports imports c).
Proof.
  unfold assembleRequestMessage. intros Hrun. bind_inv Hrun. bind_inv Hrun.
  match goal with
  | Hc : convertContent _ _ _ _ = Ok _, Hp : convertParameters _ _ _ = Ok _ |- _ =>
      apply convertContent_exact in Hc; destruct Hc as [results1 [imports1 [Hall1 [-> ->]]]];
      apply convertParameters_exact in Hp; destruct Hp as [results2 [imports2 [Hall2 [-> ->]]]]
  end.
  exists (results1 ++ results2), (imports1 ++ imports2).
  split; [now apply Forall2_app |].
  rewrite <- grown_app, grown_new, <- addImports_app in Hrun.
  cbv zeta. cbn [m_Fields m_Messages m_Name] in *.
  destruct (firstOfEachName f_Name (fieldsOf (results1 ++ results2))) as [| f fs];
    destruct (nestedOf [] (results1 ++ results2)) as [| m ms];
    simpl in Hrun; injection Hrun as <- <-;
    (split; [intros [Hne | Hne]; try (now exfalso; apply Hne); now split
            | intros; try discriminate; now split]).
Qed.

Lemma convertContent_returns (nameOf : string -> string) (content : Content) :
  forall results message c,
    Forall2 (fun entry result => convertsTo (snd entry) (fst entry) result)
      (flat_map (fun entry =>
                   match mt_Schema (snd entry) with
                   | Some schema => [(nameOf (fst entry), schema)]
                   | None => []
                   end) content)
      results ->
    exists message' c', convertContent nameOf content message c = Ok (message', c').
Proof.
  induction content as [| [mt mediaType] rest IH]; intros results message c Hall.
  - now exists message, c.
  - simpl in *. destruct (mt_Schema mediaType) as [schema |].
    + inversion Hall as [| entry result entries results' Hto Hrest]; subst.
      destruct (Hto (Some message) c) as [c1 Hrun]. simpl in Hrun.
      rewrite Hrun. simpl. now apply (IH results').
    + now apply (IH results).
Qed.

Lemma convertParameters_returns (params : list ParameterRef) :
  Forall (fun param => pr_Value param <> None) params ->
  forall results message c,
    Forall2 (fun entry result => convertsTo (snd entry) (fst entry) result)
      (flat_map (fun param =>
                   match pr_Value param with
                   | Some value =>
                       match p_Schema value with
                       | Some schema => [(p_Name value, schema)]
                       | None => []
                       end
                   | None => []
                   end) params)
      results ->
    exists message' c', convertParameters params message c = Ok (message', c').
Proof.
  induction params as [| param rest IH]; intros Hvalues results message c Hall.
  - now exists message, c.
  - inversion Hvalues as [| ? ? Hvalue Hrest]; subst. simpl in *.
    destruct (pr_Value param) as [value |]; [| now exfalso; apply Hvalue].
    destruct (p_Schema value) as [schema |].
    + inversion Hall as [| entry result entries results' Hto Hall']; subst.
      destruct (Hto (Some message) c) as [c1 Hrun]. simpl in Hrun.
      rewrite Hrun. simpl. now apply (IH Hrest results').
    + now apply (IH Hrest results).
Qed.

Lemma assembleRequestMessage_returns (operation : Operation) (content : Content)
  (c : ProtoConverter) results :
  Forall (fun param => pr_Value param <> None) (Parameters operation) ->
  Forall2 (fun entry result => convertsTo (snd entry) (fst entry) result)
    (flat_map (fun entry =>
                 match mt_Schema (snd entry) with
                 | Some schema =>
                     [(SanitizeName ((OperationID operation +++ "Request") +++ fst entry),
                       schema)]
                 | None => []
                 end) content
     ++ flat_map (fun param =>
                    match pr_Value param with
                    | Some value =>
                        match p_Schema value with
                        | Some schema => [(p_Name value, schema)]
                        | None => []
                        end
                    | None => []
                    end) (Parameters operation))
    results ->
  exists name c', assembleRequestMessage operation content c = Ok (name, c').
Proof.
  intros Hvalues Hall.
  apply Forall2_app_inv_l in Hall. destruct Hall as [results1 [results2 [Hall1 [Hall2 _]]]].
  unfold assembleRequestMessage.
  destruct (convertContent_returns
              (fun mediaTypeStr =>
                 SanitizeName ((OperationID operation +++ "Request") +++ mediaTypeStr))
              content results1 (newMessage (OperationID operation +++ "Request")) c Hall1)
    as [message1 [c1 Hrun1]].
  cbv zeta. rewrite Hrun1. simpl.
  destruct (convertParameters_returns (Parameters operation) Hvalues results2 message1 c1
              Hall2) as [message2 [c2 Hrun2]].
  rewrite Hrun2. simpl.
  destruct ((0 <? List.length (m_Fields message2))
            || (0 <? List.length (m_Messages message2)))%nat; eauto.
Qed.

(** C3, as the code has it.  When the request body of an operation is a
    reference, [generateRequestMessage] returns the name at the end of the
    reference at once: nothing is converted and the converter is as before.
    Otherwise, for an operation with a request body or a parameter, a call
    that returns has assembled one message named after the operation with
    "Request" appended, out of the media-type schemas of the body, each
    converted under the sanitized name made of that message name and the
    media type, followed by the parameter schemas, each converted under the
    name of its parameter.  The fields of the message are the fields these
    conversions return, the first of each name; its nested messages are the
    messages the conversions hand over and the messages they return, one
    that is returned only when none of its name is there.  With a field or
    a nested message the message is added to the file, which otherwise has
    gained imports only, and its name is returned; with neither, the empty
    string is returned without error and nothing is added.  The call does
    return whenever every one of these schemas converts and no parameter of
    the operation is without a value. *)
Theorem request_message_assembled (operation : Operation) (c : ProtoConverter) :
  (RequestBody operation <> None \/ Parameters operation <> []) ->
  (forall body,
     RequestBody operation = Some body -> rb_Ref body <> "" ->
     generateRequestMessage operation c = Ok (ExtractMessageNameFromRef (rb_Ref body), c))
  /\ ((forall body, RequestBody operation = Some body -> rb_Ref body = "") ->
      forall name c',
        generateRequestMessage operation c = Ok (name, c') ->
        exists results imports,
          Forall2 (fun entry result => convertsTo (snd entry) (fst entry) result)
                  (requestSchemas operation) results
          /\ let message :=
               mkMessage (OperationID operation +++ "Request")
                 (firstOfEachName f_Name (fieldsOf results)) (nestedOf [] results) [] [] in
             (m_Fields message <> [] \/ m_Messages message <> [] ->
              name = OperationID operation +++ "Request"
              /\ c' = addMessageToProto message (addImports imports c))
             /\ (m_Fields message = [] -> m_Messages message = [] ->
                 name = "" /\ c' = addImports imports c))
  /\ ((forall body, RequestBody operation = Some body -> rb_Ref body = "") ->
      Forall (fun param => pr_Value param <> None) (Parameters operation) ->
      forall results,
        Forall2 (fun entry result => convertsTo (snd entry) (fst entry) result)
                (requestSchemas operation) results ->
        exists name c', generateRequestMessage operation c = Ok (name, c')).
Proof.
  intros Hsome. unfold generateRequestMessage, requestSchemas. split; [| split].
  - intros body Hbody Href. rewrite Hbody.
    apply String.eqb_neq in Href. now rewrite Href.
  - intros Hnoref name c' Hrun.
    destruct (RequestBody operation) as [body |] eqn:Hb.
    + rewrite (Hnoref body eq_refl) in Hrun. simpl in Hrun.
      destruct (rb_Value body) as [content |];
        now apply assembleRequestMessage_exact in Hrun.
    + destruct (Parameters operation) as [| param rest] eqn:Hp.
      * exfalso. destruct Hsome as [Hs | Hs]; now apply Hs.
      * simpl in Hrun. rewrite <- Hp in *.
        now apply assembleRequestMessage_exact in Hrun.
  - intros Hnoref Hvalues results Hall.
    destruct (RequestBody operation) as [body |] eqn:Hb.
    + rewrite (Hnoref body eq_refl). simpl.
      destruct (rb_Value body) as [content |];
        now apply (assembleRequestMessage_returns _ _ _ results).
    + destruct (Parameters operation) as [| param rest] eqn:Hp.
      * exfalso. destruct Hsome as [Hs | Hs]; now apply Hs.
      * simpl. rewrite <- Hp in *.
        now apply (assembleRequestMessage_returns _ _ _ results).
Qed.

End ConverterFacts.

(** ** [sort.Slice] *)

Lemma insertSorted_Permutation {A : Type} (less : A -> A -> bool) (x : A) (l : list A) :
  Permutation (insertSorted less x l) (x :: l).
Proof.
  induction l as [| y rest IH]; simpl; [reflexivity |].
  destruct (less y x); [| reflexivity].
  rewrite IH. apply perm_swap.
Qed.

Lemma sortSlice_Permutation {A : Type} (less : A -> A -> bool) (l : list A) :
  Permutation (sortSlice less l) l.
Proof.
  induction l as [| x rest IH]; simpl; [reflexivity |].
  fold (sortSlice less rest). rewrite insertSorted_Permutation. now constructor.
Qed.

Lemma insertSorted_Sorted {A : Type} (less : A -> A -> bool) (x : A) (l : list A) :
  (forall a b, less a b = true -> less b a = false) ->
  Sorted (fun a b => less b a = false) l ->
  Sorted (fun a b => less b a = false) (insertSorted less x l).
Proof.
  intros Hasym Hs. induction Hs as [| y rest Hrest IH Hhd]; simpl.
  - repeat constructor.
  - destruct (less y x) eqn:Hyx.
    + constructor; [assumption |].
      destruct Hhd as [| z rest' Hz]; simpl.
      * constructor. now apply Hasym.
      * destruct (less z x); constructor; [assumption | now apply Hasym].
    + constructor; [now constructor | now constructor].
Qed.

Lemma sortSlice_Sorted {A : Type} (less : A -> A -> bool) (l : list A) :
  (forall a b, less a b = true -> less b a = false) ->
  Sorted (fun a b => less b a = false) (sortSlice less l).
Proof.
  intros Hasym. induction l as [| x rest IH]; simpl; [constructor |].
  now apply insertSorted_Sorted.
Qed.

Lemma ltb_asym (a b : string) : String.ltb a b = true -> String.ltb b a = false.
Proof.
  unfold String.ltb. rewrite (String.compare_antisym a b).
  destruct (String.compare b a); simpl; congruence.
Qed.

Lemma sortSlice_sortedBy {A : Type} (name : A -> string) (l : list A) :
  sortedBy name (sortSlice (lessBy name) l).
Proof.
  unfold sortedBy. apply (sortSlice_Sorted (lessBy name)).
  intros a b. apply ltb_asym.
Qed.

Lemma sortSlice_strings_sorted (l : list string) :
  sortedBy (fun key => key) (sortSlice String.ltb l).
Proof. unfold sortedBy. apply sortSlice_Sorted. intros a b. apply ltb_asym. Qed.

(** ** The encoder *)

Lemma append_nil_r (s : string) : s +++ "" = s.
Proof. induction s as [| ch s IH]; simpl; [reflexivity | now rewrite IH]. Qed.

Lemma concat_cons (x : string) (l : list string) :
  String.concat "" (x :: l) = x +++ String.concat "" l.
Proof. destruct l; simpl; [now rewrite append_nil_r | reflexivity]. Qed.

Lemma map_fst_combine {A B : Type} (l : list A) :
  forall l' : list B, List.length l = List.length l' -> map fst (combine l l') = l.
Proof.
  induction l as [| a l IH]; intros [| b l'] Hlen; simpl in *; try discriminate; [reflexivity |].
  f_equal. apply IH. now injection Hlen.
Qed.

Section EncoderFacts.

Context `{GoLib}.

Lemma encodeFields_numbered (indent : string) (fields : list ProtoField) :
  forall i,
    encodeFields indent i fields
    = String.concat ""
        (map (fun numbered => fieldLine indent (fst numbered) (snd numbered))
             (numberedFrom (i + 1) fields)).
Proof.
  induction fields as [| field rest IH]; intros i; [reflexivity |].
  unfold numberedFrom. cbn [List.length seq combine map].
  rewrite concat_cons. cbn [encodeFields fst snd].
  rewrite IH. unfold numberedFrom, fieldLine.
  replace (S (i + 1)) with (i + 1 + 1) by lia.
  destruct (f_Options field); cbn [List.length Nat.ltb Nat.leb];
    rewrite <- ?append_assoc; repeat rewrite append_assoc; reflexivity.
Qed.

(** C7, as the code has it.  The text of a file is the line
    [syntax = "proto3";], the package declaration, one [import] line for
    each import in the order of the import list, the file options, the
    messages sorted by name and the services sorted by name.  A message
    lists its fields sorted by name and numbered 1, 2, 3, ... in that order,
    then its nested messages.  A service lists its methods sorted by name,
    each as [rpc Name(Input) returns (Output)]; the options of a method are
    rendered as [option (name) = value;], and an option whose value is a map
    as a nested block with one line for each key, the keys sorted. *)
Theorem proto_text_layout (protoFile : ProtoFile) :
  (exists messages services,
     Permutation messages (Messages protoFile) /\ sortedBy m_Name messages
     /\ Permutation services (Services protoFile) /\ sortedBy svc_Name services
     /\ ConvertToProtoFile protoFile
        = "syntax = " +++ dq +++ "proto3" +++ dq +++ ";" +++ nl +++ nl
          +++ "package " +++ PackageName protoFile +++ ";" +++ nl +++ nl
          +++ (String.concat ""
                 (map (fun importFile => "import " +++ dq +++ importFile +++ dq +++ ";" +++ nl)
                      (Imports protoFile))
               +++ match Imports protoFile with [] => "" | _ => nl end)
          +++ encodeFileOptions (Options protoFile)
          +++ String.concat "" (map (fun message => encodeMessage message 0) messages)
          +++ String.concat "" (map encodeService services))
  /\ (forall message indentLevel,
        exists fields,
          Permutation fields (m_Fields message) /\ sortedBy f_Name fields
          /\ map fst (numberedFrom 1 fields) = seq 1 (List.length (m_Fields message))
          /\ encodeMessage message indentLevel
             = Repeat "  " indentLevel +++ "message " +++ m_Name message +++ " {" +++ nl
               +++ match m_Options message with
                   | [] => ""
                   | options =>
                       Repeat "  " indentLevel +++ "  option"
                       +++ String.concat ""
                             (map (fun option => encodeFieldOption option +++ ";" +++ nl) options)
                   end
               +++ String.concat ""
                     (map (fun numbered =>
                             fieldLine (Repeat "  " indentLevel) (fst numbered) (snd numbered))
                          (numberedFrom 1 fields))
               +++ String.concat ""
                     (map (fun nestedMessage => encodeMessage nestedMessage (indentLevel + 1))
                          (m_Messages message))
               +++ Repeat "  " indentLevel +++ "}" +++ nl +++ nl)
  /\ (forall service,
        exists methods,
          Permutation methods (svc_Methods service) /\ sortedBy meth_Name methods
          /\ encodeService service
             = "service " +++ svc_Name service +++ " {" +++ nl
               +++ String.concat ""
                     (map (fun method =>
                             "  rpc " +++ meth_Name method +++ "(" +++ meth_Input method
                             +++ ") returns (" +++ meth_Output method +++ ")"
                             +++ match meth_Options method with
                                 | [] => ";" +++ nl
                                 | options =>
                                     " {" +++ nl
                                     +++ String.concat ""
                                           (map (fun option =>
                                                   "     option " +++ encodeFieldOption option
                                                   +++ ";" +++ nl)
                                                options)
                                     +++ "  }" +++ nl
                                 end)
                          methods)
               +++ "}" +++ nl +++ nl)
  /\ (forall name value,
        encodeFieldOption (mkOption name (VString value)) = "(" +++ name +++ ") = " +++ value)
  /\ (forall name optionMap,
        exists keys,
          Permutation keys (map fst optionMap) /\ sortedBy (fun key => key) keys
          /\ encodeFieldOption (mkOption name (VMap optionMap))
             = "(" +++ name +++ ") = {" +++ nl
               +++ String.concat ""
                     (map (fun key =>
                             Repeat " " 6 +++ key +++ ": "
                             +++ match mapIndex key optionMap with
                                 | Some value => Stringify value
                                 | None => ""
                                 end
                             +++ ";" +++ nl)
                          keys)
               +++ "    }").
Proof.
  split; [| split; [| split; [| split]]].
  - exists (sortSlice (lessBy m_Name) (Messages protoFile)),
           (sortSlice (lessBy svc_Name) (Services protoFile)).
    split; [apply sortSlice_Permutation |]. split; [apply sortSlice_sortedBy |].
    split; [apply sortSlice_Permutation |]. split; [apply sortSlice_sortedBy |].
    unfold ConvertToProtoFile, encodeImports.
    destruct (Imports protoFile); reflexivity.
  - intros message indentLevel.
    exists (sortSlice (lessBy f_Name) (m_Fields message)).
    split; [apply sortSlice_Permutation |]. split; [apply sortSlice_sortedBy |].
    split.
    + unfold numberedFrom. rewrite map_fst_combine.
      * f_equal. apply Permutation_length, sortSlice_Permutation.
      * now rewrite length_seq.
    + destruct message as [name fields nested enums options].
      cbn [encodeMessage m_Name m_Options m_Fields m_Messages].
      rewrite (encodeFields_numbered _ _ 0). cbn [Nat.add].
      destruct options; reflexivity.
  - intros service. exists (sortSlice (lessBy meth_Name) (svc_Methods service)).
    split; [apply sortSlice_Permutation |]. split; [apply sortSlice_sortedBy |].
    unfold encodeService. erewrite (map_ext encodeMethod); [reflexivity |].
    intros method. unfold encodeMethod. destruct (meth_Options method); reflexivity.
  - reflexivity.
  - intros name optionMap. exists (sortSlice String.ltb (map fst optionMap)).
    split; [apply sortSlice_Permutation |]. split; [apply sortSlice_strings_sorted |].
    reflexivity.
Qed.

End EncoderFacts.

(** * thrift-gen-http-swagger *)

Module ThriftGenFacts.

Import ThriftGen.

Section GeneratorFacts.

Context `{Reflection}.

(** ** The request body of an operation *)

(** C9.  In [buildOperation], the methods GET, HEAD and DELETE give an
    operation without request body, whatever the annotations of the fields
    of the input struct.  Every other method gives a request body that
    carries, in this order, "application/json" with the schema of the
    [api.body] fields when that schema has a property,
    "multipart/form-data" and "application/x-www-form-urlencoded" with the
    schema of the [api.form] fields when that one has a property, and
    "text/plain" with the schema of the [api.raw_body] fields when that one
    has a property; and no request body when none of the three has. *)
Theorem request_body_by_method (methodName description operationID tagName path host : string)
  (inputDesc outputDesc : StructDescriptor) (g : Generator) op path' g' :
  buildOperation methodName description operationID tagName path host inputDesc outputDesc g
  = Ok (op, path', g') ->
  (methodName = "GET" \/ methodName = "HEAD" \/ methodName = "DELETE" ->
   op_RequestBody op = None)
  /\ (methodName <> "GET" -> methodName <> "HEAD" -> methodName <> "DELETE" ->
      exists g1 g2 g3 g4 bodySchema formSchema rawBodySchema,
        buildParameters (sd_Fields inputDesc) [] g = Ok (op_Parameters op, g1)
        /\ getSchemaByOption inputDesc "api.body" g1 = Ok (bodySchema, g2)
        /\ getSchemaByOption inputDesc "api.form" g2 = Ok (formSchema, g3)
        /\ getSchemaByOption inputDesc "api.raw_body" g3 = Ok (rawBodySchema, g4)
        /\ match
             match Properties bodySchema with
             | [] => []
             | _ => [("application/json", OfSchema bodySchema)]
             end
             ++ match Properties formSchema with
                | [] => []
                | _ => [("multipart/form-data", OfSchema formSchema);
                        ("application/x-www-form-urlencoded", OfSchema formSchema)]
                end
             ++ match Properties rawBodySchema with
                | [] => []
                | _ => [("text/plain", OfSchema rawBodySchema)]
                end
           with
           | [] => op_RequestBody op = None
           | entries =>
               exists requestBody,
                 op_RequestBody op = Some requestBody /\ rb_Content requestBody = entries
           end).
Proof.
  unfold buildOperation. intros Hrun.
  bind_inv Hrun. bind_inv Hrun. bind_inv Hrun. injection Hrun as <- <- <-.
  cbn [op_RequestBody]. unfold buildRequestBody in Hrun1.
  split.
  - intros Hm.
    assert (Hno : negb (methodName =? HttpMethodGet) && negb (methodName =? HttpMethodHead)
                  && negb (methodName =? HttpMethodDelete) = false).
    { destruct Hm as [-> | [-> | ->]]; reflexivity. }
    rewrite Hno in Hrun1. now injection Hrun1 as <- <-.
  - intros Hg Hh Hd.
    apply String.eqb_neq in Hg, Hh, Hd.
    unfold HttpMethodGet, HttpMethodHead, HttpMethodDelete in Hrun1.
    rewrite Hg, Hh, Hd in Hrun1. cbn [negb andb] in Hrun1.
    bind_inv Hrun1. bind_inv Hrun1. bind_inv Hrun1.
    do 7 eexists.
    split; [eassumption |].
    split; [eassumption |]. split; [eassumption |]. split; [eassumption |].
    unfold requestMediaTypes in Hrun1.
    repeat match goal with
           | |- context [Properties ?schema] => destruct (Properties schema)
           end;
      cbn in Hrun1 |- *; injection Hrun1 as <- <-;
      first [reflexivity | eexists; split; reflexivity].
Qed.

(** ** The struct-expansion worklist *)


Lemma eachStruct_never_completes (cyclic : StructDescriptor -> Prop)
  (recur : list StructDescriptor -> Generator -> option (result Generator)) :
  closedUnderNesting cyclic ->
  (forall sls g g', Exists cyclic sls -> recur sls g <> Some (Ok g')) ->
  forall structs g g', Exists cyclic structs -> eachStruct recur structs g <> Some (Ok g').
Proof.
  intros Hclosed Hrecur structs.
  induction structs as [| s rest IH]; intros g g' Hex; [inversion Hex |].
  simpl. inversion Hex as [? ? Hs | ? ? Hrest]; subst.
  - destruct (Hclosed s Hs) as [s' [Hin Hs']].
    destruct (nestedStructs s) as [| s0 sls] eqn:Hn; [destruct Hin |].
    cbn [List.length Nat.ltb Nat.leb].
    assert (Hnot : forall g1, recur (s0 :: sls) g <> Some (Ok g1)).
    { intros g1. apply Hrecur. apply Exists_exists. exists s'. now split. }
    destruct (recur (s0 :: sls) g) as [[g1 | e |] |]; try discriminate.
    exfalso. now apply (Hnot g1).
  - destruct (if (0 <? List.length (nestedStructs s))%nat
              then recur (nestedStructs s) g else Some (Ok g)) as [[g1 | e |] |];
      try discriminate.
    destruct (generateSchema s g1) as [g2 | e |]; try discriminate.
    now apply IH.
Qed.

(** X19.  On a list of structs with one that lies on a cycle, the expansion does
    not complete, whatever depth of calls it is given. *)
Lemma cyclic_structs_never_expand (cyclic : StructDescriptor -> Prop) :
  closedUnderNesting cyclic ->
  forall fuel structs g g',
    Exists cyclic structs ->
    addSchemasForStructsToDocument fuel structs g <> Some (Ok g').
Proof.
  intros Hclosed fuel. induction fuel as [| fuel IH]; intros structs g g' Hex.
  - discriminate.
  - simpl. apply (eachStruct_never_completes cyclic); assumption.
Qed.

End GeneratorFacts.

End ThriftGenFacts.


(** * Further properties *)

(** ** References and paths *)

Lemma lastPart_after_slash (prefix name acc : string) :
  lastPart (prefix +++ String "/" name) acc = lastPart name "".
Proof.
  revert acc. induction prefix as [| ch prefix IH]; intros acc; simpl.
  - reflexivity.
  - destruct (Ascii.eqb ch "/"); apply IH.
Qed.

Lemma lastPart_no_slash (name acc : string) :
  hasChar "/" name = false -> lastPart name acc = acc +++ name.
Proof.
  revert acc. induction name as [| ch name IH]; intros acc Hno; simpl in *.
  - now rewrite append_nil_r.
  - apply orb_false_iff in Hno. destruct Hno as [Hch Hrest].
    rewrite Hch, IH by assumption. rewrite append_assoc. reflexivity.
Qed.

Lemma lastPart_has_no_slash (s acc : string) :
  hasChar "/" acc = false -> hasChar "/" (lastPart s acc) = false.
Proof.
  revert acc. induction s as [| ch s IH]; intros acc Hacc; simpl.
  - assumption.
  - destruct (Ascii.eqb ch "/") eqn:Hch.
    + now apply IH.
    + apply IH. clear IH. induction acc as [| a acc IHacc]; simpl in *.
      * now rewrite Hch.
      * apply orb_false_iff in Hacc. destruct Hacc as [Ha Hacc].
        rewrite Ha. simpl. now apply IHacc.
Qed.

(** X1.  [ExtractMessageNameFromRef] returns what follows the last slash: the
    name at the end of a reference whatever precedes it, the whole string
    when there is no slash; and its result never has a slash. *)
Theorem ExtractMessageNameFromRef_last_segment (name : string) :
  hasChar "/" name = false ->
  (forall prefix, ExtractMessageNameFromRef (prefix +++ "/" +++ name) = name)
  /\ ExtractMessageNameFromRef name = name
  /\ (forall ref, hasChar "/" (ExtractMessageNameFromRef ref) = false).
Proof.
  intros Hno. unfold ExtractMessageNameFromRef. split; [| split].
  - intros prefix. simpl. rewrite lastPart_after_slash. now apply lastPart_no_slash.
  - now apply lastPart_no_slash.
  - intros ref. now apply lastPart_has_no_slash.
Qed.

Lemma convertPathFrom_literal (text rest : string) :
  hasChar "{" text = false ->
  convertPathFrom (text +++ rest) None = text +++ convertPathFrom rest None.
Proof.
  induction text as [| ch text IH]; intros Hno; simpl in *; [reflexivity |].
  apply orb_false_iff in Hno. destruct Hno as [Hch Hrest].
  rewrite Hch. now rewrite IH.
Qed.

Lemma convertPathFrom_word (w rest acc : string) :
  isWord w = true ->
  convertPathFrom (w +++ rest) (Some acc) = convertPathFrom rest (Some (acc +++ w)).
Proof.
  revert acc. induction w as [| ch w IH]; intros acc Hw; simpl in *.
  - now rewrite append_nil_r.
  - apply andb_prop in Hw. destruct Hw as [Hch Hw].
    rewrite Hch, IH by assumption. now rewrite append_assoc.
Qed.

Lemma convertPathFrom_parameter (name rest : string) :
  isWord name = true ->
  name <> "" ->
  convertPathFrom ("{" +++ name +++ "}" +++ rest) None
  = ":" +++ name +++ convertPathFrom rest None.
Proof.
  intros Hw Hne.
  change ("{" +++ name +++ "}" +++ rest) with (String "{" (name +++ String "}" rest)).
  cbn [convertPathFrom]. change (Ascii.eqb "{" "{") with true. cbn iota.
  rewrite convertPathFrom_word by assumption.
  cbn [convertPathFrom String.append].
  change (isWordChar "}") with false. change (Ascii.eqb "}" "}") with true.
  apply String.eqb_neq in Hne. rewrite Hne. reflexivity.
Qed.

Lemma bracePathFrom_literal (text rest : string) :
  hasChar ":" text = false ->
  ThriftGen.bracePathFrom (text +++ rest) None = text +++ ThriftGen.bracePathFrom rest None.
Proof.
  induction text as [| ch text IH]; intros Hno; simpl in *; [reflexivity |].
  apply orb_false_iff in Hno. destruct Hno as [Hch Hrest].
  rewrite Hch. now rewrite IH.
Qed.

Lemma bracePathFrom_word (w rest acc : string) :
  isWord w = true ->
  ThriftGen.bracePathFrom (w +++ rest) (Some acc)
  = ThriftGen.bracePathFrom rest (Some (acc +++ w)).
Proof.
  revert acc. induction w as [| ch w IH]; intros acc Hw; simpl in *.
  - now rewrite append_nil_r.
  - apply andb_prop in Hw. destruct Hw as [Hch Hw].
    rewrite Hch, IH by assumption. now rewrite append_assoc.
Qed.

Lemma bracePathFrom_close (w rest : string) :
  startsWithWordChar rest = false ->
  ThriftGen.bracePathFrom rest (Some w)
  = ThriftGen.closeParam w +++ ThriftGen.bracePathFrom rest None.
Proof.
  intros Hstart. destruct rest as [| ch rest]; simpl in *.
  - now rewrite append_nil_r.
  - rewrite Hstart. destruct (Ascii.eqb ch ":"); reflexivity.
Qed.

(** Without the third condition of [wellFormed] the second rewrite does not
    undo the first: a word character directly after a parameter is taken
    into the parameter's name. *)
Example path_parameter_followed_by_word_character :
  ConvertPath "/a/{id}b" = "/a/:idb"
  /\ ThriftGen.bracePathFrom (ConvertPath "/a/{id}b") None = "/a/{idb}".
Proof. split; reflexivity. Qed.

(** X2.  On a path made of literal text, which has neither an opening brace
    nor a colon, and of parameters whose names are non-empty words and
    which are not directly followed by a word character (a letter, a digit
    or an underscore), the two path rewrites are inverse to each other:
    [ConvertPath] turns every [{name}] of the brace spelling into [:name],
    the rewrite of [buildOperation] turns every [:name] of the colon
    spelling into [{name}], and so the second undoes the first. *)
Theorem path_parameter_round_trip (segments : list Segment) :
  wellFormed segments ->
  ConvertPath (braces segments) = colons segments
  /\ ThriftGen.bracePathFrom (colons segments) None = braces segments
  /\ ThriftGen.bracePathFrom (ConvertPath (braces segments)) None = braces segments.
Proof.
  intros Hwf.
  assert (Hto : ConvertPath (braces segments) = colons segments).
  { unfold ConvertPath.
    induction segments as [| [text | name] rest IH]; cbn [braces colons wellFormed] in *.
    - reflexivity.
    - destruct Hwf as [Hb [_ Hrest]]. rewrite convertPathFrom_literal by assumption.
      now rewrite IH.
    - destruct Hwf as [Hw [Hne [_ Hrest]]].
      rewrite (convertPathFrom_parameter name (braces rest)) by assumption.
      now rewrite IH. }
  assert (Hback : ThriftGen.bracePathFrom (colons segments) None = braces segments).
  { clear Hto.
    induction segments as [| [text | name] rest IH]; cbn [braces colons wellFormed] in *.
    - reflexivity.
    - destruct Hwf as [_ [Hc Hrest]]. rewrite bracePathFrom_literal by assumption.
      now rewrite IH.
    - destruct Hwf as [Hw [Hne [Hstart Hrest]]].
      change (":" +++ name +++ colons rest) with (String ":" (name +++ colons rest)).
      cbn [ThriftGen.bracePathFrom]. change (Ascii.eqb ":" ":") with true. cbn iota.
      rewrite (bracePathFrom_word name (colons rest) "") by assumption.
      rewrite bracePathFrom_close by assumption.
      rewrite IH by assumption. unfold ThriftGen.closeParam.
      apply String.eqb_neq in Hne. cbn [String.append]. rewrite Hne.
      cbn [String.append]. f_equal. now rewrite append_assoc. }
  split; [assumption |]. split; [assumption |]. now rewrite Hto.
Qed.

(** ** What a schema conversion does to its surroundings *)

Section ConversionEffects.

Context `{GoLib}.

Lemma convertProperties_uniform (props : list (string * SchemaRef)) :
  Forall (fun prop => forall name, uniform (convertSchemaRef (snd prop) name))
         props ->
  (exists fields nested imports,
     Forall (fun importFile => importFile = timestampProtoFile) imports
     /\ forall message c,
          convertProperties props message c
          = Ok (grow message fields nested, addImports imports c))
  \/ (forall message c, convertProperties props message c = Err "schema type is required").
Proof.
  induction props as [| [propName propSchema] rest IH]; intros Hall.
  - left. exists [], [], []. split; [constructor |].
    intros message c. simpl. now rewrite grow_nil.
  - inversion Hall as [| ? ? Hhead Htail]; subst.
    destruct (Hhead propName) as [[r [l [i [Hi Hrun]]]] | Herr]; simpl in *.
    2: { right. intros message c. simpl. now rewrite Herr. }
    destruct (IH Htail) as [[fs [ms [imps [Himps Hrest]]]] | Hresterr].
    2: { right. intros message c. simpl. rewrite Hrun. simpl.
         destruct r; apply Hresterr. }
    left.
    exists (match r with
            | IsField v => [v]
            | IsMessage nm => [newField (propName +++ "Field") (m_Name nm)]
            | IsNil => []
            end ++ fs),
           (match r with IsMessage nm => l ++ [nm] | _ => l end ++ ms),
           (i ++ imps).
    split; [now apply Forall_app |].
    intros message c. simpl. rewrite Hrun. simpl.
    rewrite addImports_app, <- grow_grow.
    destruct r; simpl; rewrite Hrest; f_equal; f_equal; f_equal;
      destruct message; unfold grow, set_Fields, set_Messages; simpl;
      rewrite ?app_nil_r, ?app_assoc; reflexivity.
Qed.

Lemma ConvertSchema_uniform (schemaRef : SchemaRef) :
  forall protoName, uniform (convertSchemaRef schemaRef protoName).
Proof.
  pattern schemaRef. apply SchemaRef_nested_ind. clear schemaRef.
  intros ref value IH protoName. unfold uniform.
  destruct (String.eqb_spec ref "") as [-> | Hne].
  2: { left. exists (IsField (newField (ExtractMessageNameFromRef ref)
                                       (ExtractMessageNameFromRef ref))), [], [].
       split; [constructor |].
       intros parent c. rewrite attach_nil. simpl.
       apply String.eqb_neq in Hne. now rewrite Hne. }
  destruct value as [[types format items props additional] |].
  2: { left. exists IsNil, [], []. split; [constructor |].
       intros parent c. now rewrite attach_nil. }
  destruct types as [types |].
  2: { right. reflexivity. }
  simpl in IH. destruct IH as [IHitem [IHprops IHadd]].
  destruct (Includes types "string") eqn:Hs.
  { destruct ((format =? "date") || (format =? "date-time")) eqn:Hf.
    - left. exists (IsField (newField protoName "google.protobuf.Timestamp")), [],
        [timestampProtoFile].
      split; [repeat constructor |].
      intros parent c. rewrite attach_nil. simpl. now rewrite Hs, Hf.
    - left. exists (IsField (newField protoName "string")), [], [].
      split; [constructor |].
      intros parent c. rewrite attach_nil. simpl. now rewrite Hs, Hf. }
  destruct (Includes types "integer") eqn:Hi.
  { left. exists (IsField (newField protoName (if format =? "int32" then "int32" else "int64"))),
      [], [].
    split; [constructor |].
    intros parent c. rewrite attach_nil. simpl. rewrite Hs, Hi. now destruct (format =? "int32"). }
  destruct (Includes types "number") eqn:Hn.
  { left. exists (IsField (newField protoName (if format =? "float" then "float" else "double"))),
      [], [].
    split; [constructor |].
    intros parent c. rewrite attach_nil. simpl. rewrite Hs, Hi, Hn.
    now destruct (format =? "float"). }
  destruct (Includes types "boolean") eqn:Hb.
  { left. exists (IsField (newField protoName "bool")), [], [].
    split; [constructor |].
    intros parent c. rewrite attach_nil. simpl. now rewrite Hs, Hi, Hn, Hb. }
  destruct (Includes types "array") eqn:Ha.
  { destruct items as [item |].
    - destruct (IHitem (protoName +++ "Item")) as [[r [l [i [Hi' Hrun]]]] | Herr].
      + left.
        exists (IsField match r with
                        | IsField it => mkField protoName (f_Type it) true []
                        | IsMessage nm => mkField protoName (m_Name nm) true []
                        | IsNil => newField protoName ""
                        end),
          (match r with IsMessage nm => l ++ [nm] | _ => l end), i.
        split; [assumption |].
        intros parent c. simpl. rewrite Hs, Hi, Hn, Hb, Ha, Hrun. simpl.
        destruct r; try reflexivity. now rewrite addNested_attach.
      + right. intros parent c. simpl. now rewrite Hs, Hi, Hn, Hb, Ha, Herr.
    - left. exists (IsField (newField protoName "")), [], [].
      split; [constructor |].
      intros parent c. rewrite attach_nil. simpl. now rewrite Hs, Hi, Hn, Hb, Ha. }
  destruct (Includes types "object") eqn:Ho.
  2: { left. exists (IsField (newField protoName "")), [], [].
       split; [constructor |].
       intros parent c. rewrite attach_nil. simpl. now rewrite Hs, Hi, Hn, Hb, Ha, Ho. }
  destruct (convertProperties_uniform props IHprops) as [[fs [ms [imps [Himps Hloop]]]] | Hlooperr].
  2: { right. intros parent c.
       rewrite (ConvertSchema_object_eq _ types) by (simpl; assumption || reflexivity).
       simpl. now rewrite Hlooperr. }
  destruct additional as [a |].
  - destruct (IHadd (protoName +++ "AdditionalProperties")) as [[r [l [i [Hi' Hrun]]]] | Herr].
    + left. eexists _, l, (imps ++ i). split; [now apply Forall_app |]. intros parent c.
      rewrite (ConvertSchema_object_eq _ types) by (simpl; assumption || reflexivity).
      simpl. rewrite Hloop. simpl. rewrite Hrun. simpl.
      rewrite addImports_app. reflexivity.
    + right. intros parent c.
      rewrite (ConvertSchema_object_eq _ types) by (simpl; assumption || reflexivity).
      simpl. rewrite Hloop. simpl. now rewrite Herr.
  - left. exists (IsMessage (grow (newMessage protoName) fs ms)), [], imps.
    split; [assumption |].
    intros parent c. rewrite attach_nil.
    rewrite (ConvertSchema_object_eq _ types) by (simpl; assumption || reflexivity).
    simpl. now rewrite Hloop.
Qed.

(** X3.  [ConvertSchemaToProtoFieldOrMessage] panics on a nil schema
    reference and returns one error only, "schema type is required"; whether
    it returns, fails or panics, and the field or message it returns, is the
    same for every parent message and every state of the converter. *)
Theorem conversion_outcome_independent_of_state (schemaRef : option SchemaRef)
  (protoName : string) (parent0 parent1 : option ProtoMessage) (c0 c1 : ProtoConverter) :
  ConvertSchemaToProtoFieldOrMessage None protoName parent0 c0 = Panic
  /\ (ConvertSchemaToProtoFieldOrMessage schemaRef protoName parent0 c0 = Panic ->
      ConvertSchemaToProtoFieldOrMessage schemaRef protoName parent1 c1 = Panic)
  /\ (forall e,
        ConvertSchemaToProtoFieldOrMessage schemaRef protoName parent0 c0 = Err e ->
        e = "schema type is required"
        /\ ConvertSchemaToProtoFieldOrMessage schemaRef protoName parent1 c1 = Err e)
  /\ (forall r parent0' c0',
        ConvertSchemaToProtoFieldOrMessage schemaRef protoName parent0 c0
        = Ok (r, parent0', c0') ->
        exists parent1' c1',
          ConvertSchemaToProtoFieldOrMessage schemaRef protoName parent1 c1
          = Ok (r, parent1', c1')).
Proof.
  split; [reflexivity |].
  destruct schemaRef as [ref |]; unfold ConvertSchemaToProtoFieldOrMessage.
  2: { split; [reflexivity |]. split; discriminate. }
  destruct (ConvertSchema_uniform ref protoName) as [[r0 [l [i [_ Hall]]]] | Herr].
  - rewrite !Hall. split; [discriminate |]. split; [discriminate |].
    intros r p c Heq. injection Heq as <- _ _. eauto.
  - rewrite !Herr. split; [discriminate |]. split.
    + intros e Heq. injection Heq as <-. now split.
    + discriminate.
Qed.

Lemma AddProtoImport_only_imports (importFile : string) (c : ProtoConverter) :
  set_Imports c (Imports (ProtoFile_ (AddProtoImport importFile c))) = AddProtoImport importFile c.
Proof.
  unfold AddProtoImport. destruct (hasName importFile (Imports (ProtoFile_ c))).
  - destruct c as [[pkg msgs svcs enums imports options] opt]. reflexivity.
  - reflexivity.
Qed.

Lemma addImports_only_imports (imports : list string) (c : ProtoConverter) :
  set_Imports c (Imports (ProtoFile_ (addImports imports c))) = addImports imports c.
Proof.
  revert c. induction imports as [| i rest IH]; intros c.
  - destruct c as [[pkg msgs svcs enums imps options] opt]. reflexivity.
  - simpl. fold (addImports rest (AddProtoImport i c)).
    rewrite <- (IH (AddProtoImport i c)).
    rewrite <- (AddProtoImport_only_imports i c). reflexivity.
Qed.

Lemma addImports_In (imports : list string) (c : ProtoConverter) (x : string) :
  In x (Imports (ProtoFile_ (addImports imports c))) ->
  In x (Imports (ProtoFile_ c)) \/ In x imports.
Proof.
  revert c. induction imports as [| i rest IH]; intros c Hin; [now left |].
  simpl in Hin. fold (addImports rest (AddProtoImport i c)) in Hin.
  apply IH in Hin. destruct Hin as [Hin | Hin]; [| right; now right].
  unfold AddProtoImport in Hin. destruct (hasName i (Imports (ProtoFile_ c))); [now left |].
  simpl in Hin. apply in_app_or in Hin. destruct Hin as [Hin | [<- | []]].
  - now left.
  - right. now left.
Qed.

(** X4.  A conversion that returns has changed nothing of the file but its
    import list, to which it can only have added the timestamp import, and
    nothing of the parent message but its list of nested messages, which it
    can only have extended at the end: no message is ever added to the top
    level of the file by the conversion itself. *)
Theorem conversion_touches_imports_and_parent_only (schemaRef : SchemaRef) (protoName : string)
  (parent : option ProtoMessage) (c : ProtoConverter) r parent' c' :
  ConvertSchemaToProtoFieldOrMessage (Some schemaRef) protoName parent c = Ok (r, parent', c') ->
  set_Imports c (Imports (ProtoFile_ c')) = c'
  /\ (forall importFile,
        In importFile (Imports (ProtoFile_ c')) ->
        In importFile (Imports (ProtoFile_ c)) \/ importFile = timestampProtoFile)
  /\ (parent = None -> parent' = None)
  /\ (forall p, parent = Some p ->
        exists nested, parent' = Some (grow p [] nested)).
Proof.
  unfold ConvertSchemaToProtoFieldOrMessage.
  intros Hrun.
  destruct (ConvertSchema_uniform schemaRef protoName) as [[r0 [l [i [Hi Hall]]]] | Herr].
  2: { rewrite Herr in Hrun. discriminate. }
  rewrite Hall in Hrun. injection Hrun as <- <- <-.
  split; [apply addImports_only_imports |]. split.
  - intros x Hx. apply addImports_In in Hx. destruct Hx as [Hx | Hx]; [now left |].
    right. rewrite Forall_forall in Hi. now apply Hi.
  - split.
    + intros ->. reflexivity.
    + intros p ->. exists l. unfold attach, grow, set_Messages. simpl.
      now rewrite app_nil_r.
Qed.

Lemma mergeIntoExisting_same_messages (message : ProtoMessage) (c1 c2 : ProtoConverter) :
  Messages (ProtoFile_ c1) = Messages (ProtoFile_ c2) ->
  Messages (ProtoFile_ (addMessageToProto message c1))
  = Messages (ProtoFile_ (addMessageToProto message c2)).
Proof.
  intros Heq. unfold addMessageToProto. rewrite Heq.
  destruct (mergeIntoExisting message (Messages (ProtoFile_ c2))); reflexivity.
Qed.

(** X5.  An array schema whose items convert to a message becomes a repeated
    field of the type of that message, and the message goes to the parent,
    as its last nested message.  Without a parent the message goes nowhere:
    a component schema that is an array of objects leaves, in the file, a
    message with a repeated field whose type is declared in no message. *)
Theorem array_of_messages_needs_a_parent (array : Schema) (types : list string)
  (item : SchemaRef) (protoName : string) (nestedMessage : ProtoMessage) p0 c0 p1 c1 :
  Type_ array = Some types ->
  reachesArrayBranch types = true ->
  Items array = Some item ->
  ConvertSchemaToProtoFieldOrMessage (Some item) (protoName +++ "Item") p0 c0
  = Ok (IsMessage nestedMessage, p1, c1) ->
  (forall parent c,
     exists earlier c',
       ConvertSchemaToProtoFieldOrMessage (Some (mkSchemaRef "" (Some array))) protoName
         (Some parent) c
       = Ok (IsField (mkField protoName (m_Name nestedMessage) true []),
             Some (grow parent [] (earlier ++ [nestedMessage])), c'))
  /\ (forall c,
        exists c',
          ConvertSchemaToProtoFieldOrMessage (Some (mkSchemaRef "" (Some array))) protoName None c
          = Ok (IsField (mkField protoName (m_Name nestedMessage) true []), None, c')
          /\ Messages (ProtoFile_ c') = Messages (ProtoFile_ c))
  /\ (forall c c',
        convertComponentsToProtoMessages
          (Some (mkComponents [(protoName, mkSchemaRef "" (Some array))])) c = Ok c' ->
        Messages (ProtoFile_ c')
        = Messages (ProtoFile_
                      (addMessageToProto
                         (mkMessage protoName
                            [mkField protoName (m_Name nestedMessage) true []] [] [] [])
                         c))).
Proof.
  unfold ConvertSchemaToProtoFieldOrMessage.
  intros Hty Hreach Hitems Hitem.
  unfold reachesArrayBranch in Hreach.
  repeat (apply andb_prop in Hreach; destruct Hreach as [Hreach ?]).
  repeat match goal with Hn : negb _ = true |- _ => apply negb_true_iff in Hn end.
  destruct (ConvertSchema_shape item (protoName +++ "Item")) as [[r [l [i Hall]]] | Herr].
  2: { rewrite Herr in Hitem. discriminate. }
  pose proof Hitem as Hsame. rewrite Hall in Hsame. injection Hsame as -> _ _.
  assert (Hrun : forall parent c,
             convertSchemaRef (mkSchemaRef "" (Some array)) protoName parent c
             = Ok (IsField (mkField protoName (m_Name nestedMessage) true []),
                   attach parent (l ++ [nestedMessage]), addImports i c)).
  { intros parent c. destruct array as [ty format items props additional].
    simpl in Hty, Hitems. subst ty items. simpl.
    repeat match goal with Hf : Includes _ _ = _ |- _ => rewrite Hf end.
    rewrite Hall. simpl. now rewrite addNested_attach. }
  split; [| split].
  - intros parent c. exists l, (addImports i c). rewrite Hrun.
    unfold attach, grow, set_Messages. simpl. now rewrite app_nil_r.
  - intros c. exists (addImports i c). rewrite Hrun. split; [reflexivity |].
    apply addImports_Messages.
  - intros c c' Hconv.
    cbn [convertComponentsToProtoMessages convertSchemas Schemas
         ConvertSchemaToProtoFieldOrMessage] in Hconv.
    rewrite Hrun in Hconv. cbn [wrap bind convertSchemas] in Hconv.
    injection Hconv as <-.
    apply mergeIntoExisting_same_messages, addImports_Messages.
Qed.

(** X6.  A property of an object schema that is a reference becomes a field
    whose name, like its type, is the name at the end of the reference: the
    name of the property is not used. *)
Theorem reference_property_named_after_target (schema : Schema) (types : list string)
  protoName parent (c : ProtoConverter) r parent' c' :
  Type_ schema = Some types ->
  reachesObjectBranch types = true ->
  ConvertSchemaToProtoFieldOrMessage (Some (mkSchemaRef "" (Some schema))) protoName parent c
  = Ok (r, parent', c') ->
  exists message,
    r = IsMessage message
    /\ (forall propName ref value,
          In (propName, mkSchemaRef ref value) (Properties schema) ->
          ref <> "" ->
          In (newField (ExtractMessageNameFromRef ref) (ExtractMessageNameFromRef ref))
             (m_Fields message)).
Proof.
  unfold ConvertSchemaToProtoFieldOrMessage.
  intros Hty Hobj Hrun.
  unfold reachesObjectBranch in Hobj.
  repeat (apply andb_prop in Hobj; destruct Hobj as [Hobj ?]).
  repeat match goal with Hn : negb _ = true |- _ => apply negb_true_iff in Hn end.
  rewrite (ConvertSchema_object_eq _ types) in Hrun by assumption.
  destruct (convertProperties_shape (Properties schema)) as [[fs [ms [imps [Hloop Hc]]]] | Herr].
  { apply Forall_forall. intros prop _. apply ConvertSchema_shape. }
  2: { rewrite Herr in Hrun. discriminate. }
  rewrite Hloop in Hrun. simpl in Hrun.
  assert (Hfield : forall propName ref value,
             In (propName, mkSchemaRef ref value) (Properties schema) ->
             ref <> "" ->
             In (newField (ExtractMessageNameFromRef ref) (ExtractMessageNameFromRef ref)) fs).
  { intros propName ref value Hin Hne.
    apply (Hc propName (mkSchemaRef ref value)
              (IsField (newField (ExtractMessageNameFromRef ref)
                                 (ExtractMessageNameFromRef ref)))
              None c None c Hin).
    simpl. apply String.eqb_neq in Hne. now rewrite Hne. }
  destruct (AdditionalProperties schema) as [additional |].
  - bind_inv Hrun. injection Hrun as <- <- <-.
    eexists. split; [reflexivity |].
    intros propName ref value Hin Hne.
    pose proof (Hfield propName ref value Hin Hne) as Hf.
    simpl. rewrite ?in_app_iff. tauto.
  - injection Hrun as <- <- <-.
    eexists. split; [reflexivity |].
    intros propName ref value Hin Hne. simpl. eapply Hfield; eassumption.
Qed.

End ConversionEffects.

(** ** What a whole conversion keeps *)

Lemma keeps_refl (c : ProtoConverter) : keeps c c.
Proof. repeat split; auto. Qed.

Lemma keeps_trans (c1 c2 c3 : ProtoConverter) : keeps c1 c2 -> keeps c2 c3 -> keeps c1 c3.
Proof.
  intros [N1 [I1 [S1 O1]]] [N2 [I2 [S2 O2]]]. repeat split; try congruence; auto.
  intros x Hx. apply I2 in Hx. destruct Hx as [Hx | Hx]; [| now right]. now apply I1.
Qed.

Lemma AddProtoImport_Services (importFile : string) (c : ProtoConverter) :
  Services (ProtoFile_ (AddProtoImport importFile c)) = Services (ProtoFile_ c)
  /\ converterOption (AddProtoImport importFile c) = converterOption c.
Proof. unfold AddProtoImport. destruct (hasName _ _); split; reflexivity. Qed.

Lemma AddProtoImport_In_inv (importFile x : string) (c : ProtoConverter) :
  In x (Imports (ProtoFile_ (AddProtoImport importFile c))) ->
  In x (Imports (ProtoFile_ c)) \/ x = importFile.
Proof.
  unfold AddProtoImport. destruct (hasName _ _); [now left |].
  simpl. intros Hin. apply in_app_or in Hin. destruct Hin as [Hin | [<- | []]]; auto.
Qed.

Lemma AddProtoImport_empty_keeps (c : ProtoConverter) :
  keeps c (AddProtoImport EmptyProtoFile c).
Proof.
  destruct (AddProtoImport_Services EmptyProtoFile c) as [Hs Ho].
  repeat split; try assumption.
  - now rewrite AddProtoImport_Messages.
  - intros x Hx. apply AddProtoImport_In_inv in Hx. destruct Hx as [Hx | ->]; [now left |].
    right. right. now left.
Qed.

Lemma addMessageToProto_keeps (message : ProtoMessage) (c : ProtoConverter) :
  keeps c (addMessageToProto message c).
Proof.
  repeat split.
  - apply addMessageToProto_NoDup.
  - rewrite addMessageToProto_Imports. now left.
  - unfold addMessageToProto. now destruct (mergeIntoExisting _ _).
  - unfold addMessageToProto. now destruct (mergeIntoExisting _ _).
Qed.

Lemma addImports_Services (imports : list string) (c : ProtoConverter) :
  Services (ProtoFile_ (addImports imports c)) = Services (ProtoFile_ c)
  /\ converterOption (addImports imports c) = converterOption c.
Proof.
  rewrite <- addImports_only_imports. split; reflexivity.
Qed.

Section ConvertKeeps.

Context `{GoLib}.

Lemma ConvertSchema_keeps (schemaRef : SchemaRef) (protoName : string)
  (parent : option ProtoMessage) (c : ProtoConverter) r parent' c' :
  convertSchemaRef schemaRef protoName parent c = Ok (r, parent', c') ->
  keeps c c'.
Proof.
  intros Hrun.
  destruct (ConvertSchema_uniform schemaRef protoName) as [[r0 [l [i [Hi Hall]]]] | Herr].
  2: { rewrite Herr in Hrun. discriminate. }
  rewrite Hall in Hrun. injection Hrun as <- <- <-.
  destruct (addImports_Services i c) as [Hs Ho].
  repeat split; try assumption.
  - now rewrite addImports_Messages.
  - intros x Hx. apply addImports_In in Hx. destruct Hx as [Hx | Hx]; [now left |].
    right. left. rewrite Forall_forall in Hi. symmetry. now apply Hi.
Qed.

Lemma convertContent_keeps (nameOf : string -> string) (content : Content) :
  forall message c message' c',
    convertContent nameOf content message c = Ok (message', c') -> keeps c c'.
Proof.
  induction content as [| [mediaTypeStr mediaType] rest IH]; intros message c message' c' Hrun.
  - injection Hrun as <- <-. apply keeps_refl.
  - simpl in Hrun. destruct (mt_Schema mediaType) as [schema |].
    + bind_inv Hrun. apply ConvertSchema_keeps in Hrun0. apply IH in Hrun.
      eapply keeps_trans; eassumption.
    + now apply IH in Hrun.
Qed.

Lemma convertParameters_keeps (params : list ParameterRef) :
  forall message c message' c',
    convertParameters params message c = Ok (message', c') -> keeps c c'.
Proof.
  induction params as [| param rest IH]; intros message c message' c' Hrun.
  - injection Hrun as <- <-. apply keeps_refl.
  - simpl in Hrun. destruct (pr_Value param) as [value |]; [| discriminate].
    destruct (p_Schema value) as [schema |].
    + bind_inv Hrun. apply ConvertSchema_keeps in Hrun0. apply IH in Hrun.
      eapply keeps_trans; eassumption.
    + now apply IH in Hrun.
Qed.

Lemma convertHeaders_keeps (headers : list (string * option HeaderRef)) :
  forall message c message' c',
    convertHeaders headers message c = Ok (message', c') -> keeps c c'.
Proof.
  induction headers as [| [headerName headerRef] rest IH]; intros message c message' c' Hrun.
  - injection Hrun as <- <-. apply keeps_refl.
  - simpl in Hrun. destruct headerRef as [ref |]; [| now apply IH in Hrun].
    destruct (h_Value ref) as [[schema |] |]; try discriminate.
    bind_inv Hrun. apply ConvertSchema_keeps in Hrun0. apply IH in Hrun.
    eapply keeps_trans; eassumption.
Qed.

Lemma assembleRequestMessage_keeps (operation : Operation) (content : Content)
  (c : ProtoConverter) name c' :
  assembleRequestMessage operation content c = Ok (name, c') -> keeps c c'.
Proof.
  unfold assembleRequestMessage. intros Hrun.
  bind_inv Hrun. bind_inv Hrun.
  apply convertContent_keeps in Hrun0. apply convertParameters_keeps in Hrun1.
  destruct (_ || _)%bool; injection Hrun as <- <-.
  - eapply keeps_trans; [eassumption |].
    eapply keeps_trans; [eassumption | apply addMessageToProto_keeps].
  - eapply keeps_trans; eassumption.
Qed.

Lemma generateRequestMessage_keeps (operation : Operation) (c : ProtoConverter) name c' :
  generateRequestMessage operation c = Ok (name, c') -> keeps c c'.
Proof.
  unfold generateRequestMessage. intros Hrun.
  destruct (RequestBody operation) as [body |].
  - destruct (negb (rb_Ref body =? "")).
    + injection Hrun as <- <-. apply keeps_refl.
    + destruct (rb_Value body); now apply assembleRequestMessage_keeps in Hrun.
  - destruct (List.length (Parameters operation) =? 0)%nat.
    + injection Hrun as <- <-. apply AddProtoImport_empty_keeps.
    + now apply assembleRequestMessage_keeps in Hrun.
Qed.

Lemma processSingleResponse_keeps statusCode responseRef operation (c : ProtoConverter) name c' :
  processSingleResponse statusCode responseRef operation c = Ok (name, c') -> keeps c c'.
Proof.
  unfold processSingleResponse. intros Hrun.
  destruct (negb (rr_Ref responseRef =? "")).
  - injection Hrun as <- <-. apply keeps_refl.
  - destruct (rr_Value responseRef) as [response |]; [| discriminate].
    bind_inv Hrun. bind_inv Hrun.
    apply convertHeaders_keeps in Hrun0. apply convertContent_keeps in Hrun1.
    destruct (_ || _)%bool; injection Hrun as <- <-.
    + eapply keeps_trans; [eassumption |].
      eapply keeps_trans; [eassumption | apply addMessageToProto_keeps].
    + eapply keeps_trans; eassumption.
Qed.

Lemma wrapResponses_keeps operation (responses : list (string * ResponseRef)) :
  forall wrapper flag c wrapper' flag' c',
    wrapResponses operation responses wrapper flag c = Ok (wrapper', flag', c') ->
    keeps c c'.
Proof.
  induction responses as [| [statusCode responseRef] rest IH];
    intros wrapper flag c wrapper' flag' c' Hrun; simpl in Hrun.
  - injection Hrun as <- <- <-. apply keeps_refl.
  - destruct (contentLess responseRef).
    + injection Hrun as <- <- <-. apply keeps_refl.
    + bind_inv Hrun. apply processSingleResponse_keeps in Hrun0. apply IH in Hrun.
      eapply keeps_trans; eassumption.
Qed.

Lemma generateResponseMessage_keeps (operation : Operation) (c : ProtoConverter) name c' :
  generateResponseMessage operation c = Ok (name, c') -> keeps c c'.
Proof.
  unfold generateResponseMessage. intros Hrun.
  destruct (Responses operation) as [responses |].
  2: { injection Hrun as <- <-. apply keeps_refl. }
  assert (Hwrap :
    (let* (wrapperMessage, emptyFlag, c1) :=
       wrapResponses operation responses (newMessage (OperationID operation)) true c in
     if emptyFlag then Ok (EmptyProtoFile, AddProtoImport EmptyProtoFile c1)
     else Ok (OperationID operation, addMessageToProto wrapperMessage c1)) = Ok (name, c') ->
    keeps c c').
  { intros Hw. bind_inv Hw. apply wrapResponses_keeps in Hrun0.
    destruct b; injection Hw as <- <-; (eapply keeps_trans; [eassumption |]).
    - apply AddProtoImport_empty_keeps.
    - apply addMessageToProto_keeps. }
  destruct responses as [| [statusCode responseRef] [| second rest]]; try (now apply Hwrap).
  destruct (contentLess responseRef).
  - injection Hrun as <- <-. apply AddProtoImport_empty_keeps.
  - now apply processSingleResponse_keeps in Hrun.
Qed.

Lemma convertOperations_keeps path (operations : list (string * Operation)) :
  forall services c services' c',
    convertOperations path operations services c = Ok (services', c') -> keeps c c'.
Proof.
  induction operations as [| [method operation] rest IH]; intros services c services' c' Hrun.
  - injection Hrun as <- <-. apply keeps_refl.
  - simpl in Hrun. bind_inv Hrun. bind_inv Hrun.
    apply wrap_Ok in Hrun0, Hrun1.
    apply generateRequestMessage_keeps in Hrun0.
    apply generateResponseMessage_keeps in Hrun1.
    apply IH in Hrun.
    eapply keeps_trans; [eassumption |]. eapply keeps_trans; eassumption.
Qed.

Lemma ConvertPathsToProtoServices_keeps (paths : Paths) :
  forall services c services' c',
    ConvertPathsToProtoServices paths services c = Ok (services', c') -> keeps c c'.
Proof.
  induction paths as [| [path operations] rest IH]; intros services c services' c' Hrun.
  - injection Hrun as <- <-. apply keeps_refl.
  - simpl in Hrun. bind_inv Hrun.
    apply convertOperations_keeps in Hrun0. apply IH in Hrun.
    eapply keeps_trans; eassumption.
Qed.

Lemma convertSchemas_keeps (schemas : list (string * SchemaRef)) :
  forall c c', convertSchemas schemas c = Ok c' -> keeps c c'.
Proof.
  induction schemas as [| [name schema] rest IH]; intros c c' Hrun.
  - injection Hrun as <-. apply keeps_refl.
  - simpl in Hrun. bind_inv Hrun. apply wrap_Ok in Hrun0.
    apply ConvertSchema_keeps in Hrun0.
    destruct x; apply IH in Hrun;
      (eapply keeps_trans; [eassumption |]); try assumption;
      (eapply keeps_trans; [apply addMessageToProto_keeps | eassumption]).
Qed.

Lemma addMethod_spec (c : ProtoConverter) path method operation methodName input output
  (service : ProtoService) :
  let service' := addMethod c path method operation methodName input output service in
  svc_Name service' = svc_Name service
  /\ (NoDup (map meth_Name (svc_Methods service)) ->
      NoDup (map meth_Name (svc_Methods service')))
  /\ incl (svc_Methods service) (svc_Methods service')
  /\ In methodName (map meth_Name (svc_Methods service')).
Proof.
  unfold addMethod, methodExistsInService.
  destruct (hasName methodName (map meth_Name (svc_Methods service))) eqn:Hh; simpl.
  - apply hasName_In in Hh. repeat split; auto using incl_refl.
  - apply hasName_not_In in Hh. repeat split.
    + intros Hnd. rewrite map_app. simpl.
      apply NoDup_app_remove_l with (l := []). simpl.
      apply Permutation_NoDup with (l := methodName :: map meth_Name (svc_Methods service)).
      * apply Permutation_cons_append.
      * now constructor.
    + apply incl_appl, incl_refl.
    + rewrite map_app, in_app_iff. right. now left.
Qed.

Lemma updateService_names (services : list ProtoService) (serviceName : string)
  (update : ProtoService -> ProtoService) :
  (forall service, svc_Name (update service) = svc_Name service) ->
  map svc_Name (updateService services serviceName update)
  = if hasName serviceName (map svc_Name services)
    then map svc_Name services
    else map svc_Name services ++ [serviceName].
Proof.
  intros Hname. induction services as [| service rest IH]; simpl.
  - now rewrite Hname.
  - rewrite (String.eqb_sym serviceName (svc_Name service)).
    destruct (svc_Name service =? serviceName) eqn:Heq; simpl.
    + now rewrite Hname.
    + rewrite IH. now destruct (hasName serviceName (map svc_Name rest)).
Qed.

Lemma updateService_addMethod (c : ProtoConverter) path method operation methodName input output
  (services : list ProtoService) (serviceName : string) :
  let services' :=
    updateService services serviceName
      (addMethod c path method operation methodName input output) in
  (servicesWellFormed services -> servicesWellFormed services')
  /\ (forall sn m, serviceHas services sn m -> serviceHas services' sn m)
  /\ (exists m, meth_Name m = methodName /\ serviceHas services' serviceName m).
Proof.
  simpl. split; [| split].
  - intros [Hnames Hmethods]. split.
    + rewrite updateService_names by (intros; apply addMethod_spec).
      destruct (hasName serviceName (map svc_Name services)) eqn:Hh; [assumption |].
      apply hasName_not_In in Hh.
      apply NoDup_app_remove_l with (l := []). simpl.
      apply Permutation_NoDup with (l := serviceName :: map svc_Name services).
      * apply Permutation_cons_append.
      * now constructor.
    + clear Hnames. induction services as [| service rest IH]; simpl.
      * constructor; [| constructor]. apply addMethod_spec. simpl. constructor.
      * inversion Hmethods as [| ? ? Hhead Htail]; subst.
        destruct (svc_Name service =? serviceName).
        -- constructor; [| assumption]. now apply addMethod_spec.
        -- constructor; [assumption | now apply IH].
  - intros sn m [service [Hin [Hsn Hm]]].
    induction services as [| s rest IH]; [destruct Hin |]. simpl.
    destruct (svc_Name s =? serviceName) eqn:Heq.
    + destruct Hin as [-> | Hin].
      * exists (addMethod c path method operation methodName input output service).
        split; [now left |]. split.
        -- rewrite <- Hsn. apply addMethod_spec.
        -- now apply addMethod_spec.
      * exists service. split; [now right |]. now split.
    + destruct Hin as [-> | Hin].
      * exists service. split; [now left |]. now split.
      * destruct (IH Hin) as [s' [Hin' [Hsn' Hm']]].
        exists s'. split; [now right |]. now split.
  - induction services as [| s rest IH]; simpl.
    + destruct (addMethod_spec c path method operation methodName input output
                  (mkService serviceName [] [])) as [Hn [_ [_ Hin]]].
      apply in_map_iff in Hin. destruct Hin as [m [Hm Hin]].
      exists m. split; [assumption |]. eexists. split; [now left |]. now split.
    + destruct (svc_Name s =? serviceName) eqn:Heq.
      * apply String.eqb_eq in Heq.
        destruct (addMethod_spec c path method operation methodName input output s)
          as [Hn [_ [_ Hin]]].
        apply in_map_iff in Hin. destruct Hin as [m [Hm Hin]].
        exists m. split; [assumption |]. eexists. split; [now left |].
        split; [congruence | assumption].
      * destruct IH as [m [Hm [s' [Hin' [Hsn' Hm']]]]].
        exists m. split; [assumption |]. exists s'. split; [now right |]. now split.
Qed.

Lemma convertOperations_services path (operations : list (string * Operation)) :
  forall services c services' c',
    convertOperations path operations services c = Ok (services', c') ->
    (servicesWellFormed services -> servicesWellFormed services')
    /\ (forall sn m, serviceHas services sn m -> serviceHas services' sn m)
    /\ (forall method operation,
          In (method, operation) operations ->
          exists m,
            meth_Name m = GenerateMethodName (OperationID operation) method
            /\ serviceHas services' (GetServiceName (Tags operation)) m).
Proof.
  induction operations as [| [method operation] rest IH]; intros services c services' c' Hrun.
  - injection Hrun as <- <-. split; [auto | split; [auto | intros ? ? []]].
  - simpl in Hrun. bind_inv Hrun. bind_inv Hrun.
    apply IH in Hrun. destruct Hrun as [Hwf [Hmono Hcover]].
    match type of Hwf with
    | servicesWellFormed (updateService _ ?sn (addMethod ?c0 ?p ?me ?op ?mn ?i ?o)) -> _ =>
        destruct (updateService_addMethod c0 p me op mn i o services sn) as [Hwf1 [Hmono1 Hnew]]
    end.
    split; [auto |]. split; [auto |].
    intros me op [Heq | Hin].
    + injection Heq as <- <-. destruct Hnew as [m [Hm Hhas]].
      exists m. split; [assumption | now apply Hmono].
    + now apply Hcover.
Qed.

Lemma ConvertPathsToProtoServices_services (paths : Paths) :
  forall services c services' c',
    ConvertPathsToProtoServices paths services c = Ok (services', c') ->
    (servicesWellFormed services -> servicesWellFormed services')
    /\ (forall sn m, serviceHas services sn m -> serviceHas services' sn m)
    /\ (forall path operations method operation,
          In (path, operations) paths ->
          In (method, operation) operations ->
          exists m,
            meth_Name m = GenerateMethodName (OperationID operation) method
            /\ serviceHas services' (GetServiceName (Tags operation)) m).
Proof.
  induction paths as [| [path operations] rest IH]; intros services c services' c' Hrun.
  - injection Hrun as <- <-. split; [auto | split; [auto | intros ? ? ? ? []]].
  - simpl in Hrun. bind_inv Hrun.
    apply convertOperations_services in Hrun0. destruct Hrun0 as [Hwf1 [Hmono1 Hcover1]].
    apply IH in Hrun. destruct Hrun as [Hwf [Hmono Hcover]].
    split; [auto |]. split; [auto |].
    intros pa ops me op [Heq | Hin] Hop.
    + injection Heq as <- <-. destruct (Hcover1 me op Hop) as [m [Hm Hhas]].
      exists m. split; [assumption | now apply Hmono].
    + eapply Hcover; eassumption.
Qed.

(** What [Convert] is known to do, in one place. *)
Lemma Convert_inversion (spec : T) (c c' : ProtoConverter) :
  Convert spec c = Ok c' ->
  exists c1 c2 services,
    convertComponentsToProtoMessages (spec_Components spec) c = Ok c1
    /\ ConvertPathsToProtoServices (spec_Paths spec) [] c1 = Ok (services, c2)
    /\ c' = (let c3 := set_Services c2 (Services (ProtoFile_ c2) ++ services) in
             let c4 := if openapiOption (converterOption c3)
                       then AddProtoImport openapiProtoFile c3 else c3 in
             if apiOption (converterOption c4) then AddProtoImport apiProtoFile c4 else c4).
Proof.
  unfold Convert. intros Hrun. bind_inv Hrun. bind_inv Hrun.
  apply wrap_Ok in Hrun0, Hrun1.
  unfold convertPathsToProtoServices in Hrun1. bind_inv Hrun1. apply wrap_Ok in Hrun2.
  injection Hrun1 as <-. injection Hrun as <-.
  eexists _, _, _. split; [eassumption |]. split; [eassumption | reflexivity].
Qed.

Lemma convertComponents_keeps (components : option Components) (c c' : ProtoConverter) :
  convertComponentsToProtoMessages components c = Ok c' -> keeps c c'.
Proof.
  unfold convertComponentsToProtoMessages. destruct components.
  - apply convertSchemas_keeps.
  - intros Heq. injection Heq as <-. apply keeps_refl.
Qed.

(** X7.  [Convert] keeps the invariant of the message list: started on a file
    whose message names are pairwise different, it ends on one. *)
Theorem Convert_keeps_message_names_unique (spec : T) (c c' : ProtoConverter) :
  NoDup (map m_Name (Messages (ProtoFile_ c))) ->
  Convert spec c = Ok c' ->
  NoDup (map m_Name (Messages (ProtoFile_ c'))).
Proof.
  intros Hnd Hrun. apply Convert_inversion in Hrun.
  destruct Hrun as [c1 [c2 [services [H1 [H2 ->]]]]].
  apply convertComponents_keeps in H1. apply ConvertPathsToProtoServices_keeps in H2.
  destruct H1 as [N1 _], H2 as [N2 _].
  cbv zeta. repeat match goal with
         | |- context [if ?b then _ else _] => destruct b
         end; rewrite ?AddProtoImport_Messages; simpl; auto.
Qed.

(** X8.  The imports of a file converted by a new converter are taken from
    three: the timestamp import, the empty import and "api.proto".  The last
    is always there, each is there at most once, and "openapi.proto" never
    is. *)
Theorem Convert_imports (spec : T) (packageName : string) (c' : ProtoConverter) :
  Convert spec (NewProtoConverter packageName) = Ok c' ->
  NoDup (Imports (ProtoFile_ c'))
  /\ In apiProtoFile (Imports (ProtoFile_ c'))
  /\ ~ In openapiProtoFile (Imports (ProtoFile_ c'))
  /\ (forall importFile,
        In importFile (Imports (ProtoFile_ c')) ->
        In importFile [timestampProtoFile; EmptyProtoFile; apiProtoFile]).
Proof.
  intros Hrun.
  pose proof (Convert_grow _ _ _ Hrun) as [[Hnd _] _].
  specialize (Hnd (NoDup_nil _)).
  apply Convert_inversion in Hrun.
  destruct Hrun as [c1 [c2 [services [H1 [H2 Hc']]]]].
  apply convertComponents_keeps in H1. apply ConvertPathsToProtoServices_keeps in H2.
  pose proof (keeps_trans _ _ _ H1 H2) as [_ [Himports [_ Hopt]]].
  assert (Hlast : c' = AddProtoImport apiProtoFile
                         (set_Services c2 (Services (ProtoFile_ c2) ++ services))).
  { rewrite Hc'. cbv zeta. repeat (simpl; rewrite ?Hopt). reflexivity. }
  clear Hc'. subst c'.
  assert (Hall : forall importFile,
             In importFile (Imports (ProtoFile_
                (AddProtoImport apiProtoFile
                   (set_Services c2 (Services (ProtoFile_ c2) ++ services))))) ->
             In importFile [timestampProtoFile; EmptyProtoFile; apiProtoFile]).
  { intros x Hx. apply AddProtoImport_In_inv in Hx. destruct Hx as [Hx | ->].
    - simpl in Hx. apply Himports in Hx. destruct Hx as [[] | [<- | [<- | []]]]; simpl; auto.
    - simpl. auto. }
  split; [exact Hnd |]. split; [apply AddProtoImport_In |].
  split; [| exact Hall].
  intros Hin. apply Hall in Hin. destruct Hin as [Hin | [Hin | [Hin | []]]]; discriminate.
Qed.

(** X9.  After a conversion by a new converter the service names are pairwise
    different and so are the method names of each service. *)
Theorem Convert_services_well_formed (spec : T) (packageName : string) (c' : ProtoConverter) :
  Convert spec (NewProtoConverter packageName) = Ok c' ->
  servicesWellFormed (Services (ProtoFile_ c')).
Proof.
  intros Hrun. apply Convert_inversion in Hrun.
  destruct Hrun as [c1 [c2 [services [H1 [H2 ->]]]]].
  apply convertComponents_keeps in H1.
  pose proof (ConvertPathsToProtoServices_keeps _ _ _ _ _ H2) as K2.
  destruct (keeps_trans _ _ _ H1 K2) as [_ [_ [Hsvc _]]].
  apply ConvertPathsToProtoServices_services in H2. destruct H2 as [Hwf _].
  assert (Hs : Services (ProtoFile_ c2) ++ services = services) by now rewrite Hsvc.
  cbv zeta. repeat match goal with
         | |- context [if ?b then _ else _] => destruct b
         end;
    repeat rewrite (proj1 (AddProtoImport_Services _ _)); simpl; rewrite Hs;
    apply Hwf; split; constructor.
Qed.

(** X10.  Every operation of every path is there after a conversion by a new
    converter: the service named after its first tag ("DefaultService"
    without tags) has a method named after its operation id (after the HTTP
    method without operation id). *)
Theorem Convert_covers_every_operation (spec : T) (packageName : string) (c' : ProtoConverter)
  path operations method operation :
  Convert spec (NewProtoConverter packageName) = Ok c' ->
  In (path, operations) (spec_Paths spec) ->
  In (method, operation) operations ->
  exists m,
    meth_Name m = GenerateMethodName (OperationID operation) method
    /\ serviceHas (Services (ProtoFile_ c')) (GetServiceName (Tags operation)) m.
Proof.
  intros Hrun Hpath Hop. apply Convert_inversion in Hrun.
  destruct Hrun as [c1 [c2 [services [H1 [H2 ->]]]]].
  apply convertComponents_keeps in H1.
  pose proof (ConvertPathsToProtoServices_keeps _ _ _ _ _ H2) as K2.
  destruct (keeps_trans _ _ _ H1 K2) as [_ [_ [Hsvc _]]].
  apply ConvertPathsToProtoServices_services in H2. destruct H2 as [_ [_ Hcover]].
  destruct (Hcover path operations method operation Hpath Hop) as [m [Hm Hhas]].
  exists m. split; [assumption |].
  assert (Hs : Services (ProtoFile_ c2) ++ services = services) by now rewrite Hsvc.
  cbv zeta. repeat match goal with
         | |- context [if ?b then _ else _] => destruct b
         end;
    repeat rewrite (proj1 (AddProtoImport_Services _ _)); simpl; rewrite Hs; exact Hhas.
Qed.

End ConvertKeeps.

(** ** Request and response messages *)

Section RequestResponse.

Context `{GoLib}.

Lemma addFieldOrMessage_distinct (r : FieldOrMessage) (message : ProtoMessage)
  (nested : list ProtoMessage) :
  NoDup (map f_Name (m_Fields message)) ->
  NoDup (map f_Name
           (m_Fields (addFieldOrMessage r (pointee (attach (Some message) nested) message)))).
Proof.
  intros Hnd. destruct r as [v | v |]; simpl; auto.
  unfold addFieldIfNotExists.
  destruct (hasName (f_Name v) (map f_Name (m_Fields message))) eqn:Hh; [assumption |].
  apply hasName_not_In in Hh. rewrite map_app. simpl.
  apply NoDup_app_remove_l with (l := []). simpl.
  apply Permutation_NoDup with (l := f_Name v :: map f_Name (m_Fields message)).
  - apply Permutation_cons_append.
  - now constructor.
Qed.

Lemma convertContent_distinct (nameOf : string -> string) (content : Content) :
  forall message c message' c',
    convertContent nameOf content message c = Ok (message', c') ->
    NoDup (map f_Name (m_Fields message)) ->
    NoDup (map f_Name (m_Fields message')).
Proof.
  induction content as [| [mt mediaType] rest IH]; intros message c message' c' Hrun Hnd.
  - now injection Hrun as <- <-.
  - simpl in Hrun. destruct (mt_Schema mediaType) as [schema |].
    + bind_inv Hrun.
      destruct (ConvertSchema_Ok _ _ _ _ _ _ _ Hrun0) as [l [i [-> ->]]].
      eapply IH; [eassumption |]. now apply addFieldOrMessage_distinct.
    + eapply IH; eassumption.
Qed.

Lemma convertParameters_distinct (params : list ParameterRef) :
  forall message c message' c',
    convertParameters params message c = Ok (message', c') ->
    NoDup (map f_Name (m_Fields message)) ->
    NoDup (map f_Name (m_Fields message')).
Proof.
  induction params as [| param rest IH]; intros message c message' c' Hrun Hnd.
  - now injection Hrun as <- <-.
  - simpl in Hrun. destruct (pr_Value param) as [value |]; [| discriminate].
    destruct (p_Schema value) as [schema |].
    + bind_inv Hrun.
      destruct (ConvertSchema_Ok _ _ _ _ _ _ _ Hrun0) as [l [i [-> ->]]].
      eapply IH; [eassumption |]. now apply addFieldOrMessage_distinct.
    + eapply IH; eassumption.
Qed.

Lemma convertHeaders_distinct (headers : list (string * option HeaderRef)) :
  forall message c message' c',
    convertHeaders headers message c = Ok (message', c') ->
    NoDup (map f_Name (m_Fields message)) ->
    NoDup (map f_Name (m_Fields message')).
Proof.
  induction headers as [| [headerName headerRef] rest IH]; intros message c message' c' Hrun Hnd.
  - now injection Hrun as <- <-.
  - simpl in Hrun. destruct headerRef as [ref |]; [| eapply IH; eassumption].
    destruct (h_Value ref) as [[schema |] |]; try discriminate.
    bind_inv Hrun.
    destruct (ConvertSchema_Ok _ _ _ _ _ _ _ Hrun0) as [l [i [-> ->]]].
    eapply IH; [eassumption |]. now apply addFieldOrMessage_distinct.
Qed.

Lemma assembleRequestMessage_distinct (operation : Operation) (content : Content)
  (c : ProtoConverter) name c' :
  assembleRequestMessage operation content c = Ok (name, c') ->
  (name = "" /\ Messages (ProtoFile_ c') = Messages (ProtoFile_ c))
  \/ exists message c2,
       name = OperationID operation +++ "Request"
       /\ m_Name message = name
       /\ NoDup (map f_Name (m_Fields message))
       /\ Messages (ProtoFile_ c2) = Messages (ProtoFile_ c)
       /\ c' = addMessageToProto message c2.
Proof.
  unfold assembleRequestMessage. intros Hrun. bind_inv Hrun. bind_inv Hrun.
  pose proof (convertContent_grow _ _ _ _ _ _ Hrun0) as [_ M1].
  pose proof (convertParameters_grow _ _ _ _ _ Hrun1) as [_ M2].
  pose proof (convertContent_collects _ _ _ _ _ _ Hrun0) as [[N1 _] _].
  pose proof (convertParameters_collects _ _ _ _ _ Hrun1) as [[N2 _] _].
  apply convertContent_distinct in Hrun0; [| constructor].
  apply convertParameters_distinct in Hrun1; [| assumption].
  match type of Hrun with
  | (if ?b then _ else _) = _ => destruct b
  end; injection Hrun as <- <-.
  - right. exists x0, p0. repeat split; try assumption.
    + now rewrite N2, N1.
    + congruence.
  - left. split; [reflexivity | congruence].
Qed.

(** X11.  Two fields of a request message never share a name: whatever the
    media types of the body and the parameters are called, the message
    [generateRequestMessage] adds to the file under the name of the
    operation followed by "Request" has pairwise different field names, and
    it is the only change to the messages of the file. *)
Theorem request_message_field_names_distinct (operation : Operation) (c : ProtoConverter)
  name c' :
  generateRequestMessage operation c = Ok (name, c') ->
  Messages (ProtoFile_ c') = Messages (ProtoFile_ c)
  \/ exists message c2,
       name = OperationID operation +++ "Request"
       /\ m_Name message = name
       /\ NoDup (map f_Name (m_Fields message))
       /\ Messages (ProtoFile_ c2) = Messages (ProtoFile_ c)
       /\ c' = addMessageToProto message c2.
Proof.
  unfold generateRequestMessage. intros Hrun.
  assert (Hassemble : forall content,
             assembleRequestMessage operation content c = Ok (name, c') ->
             Messages (ProtoFile_ c') = Messages (ProtoFile_ c)
             \/ exists message c2,
                  name = OperationID operation +++ "Request"
                  /\ m_Name message = name
                  /\ NoDup (map f_Name (m_Fields message))
                  /\ Messages (ProtoFile_ c2) = Messages (ProtoFile_ c)
                  /\ c' = addMessageToProto message c2).
  { intros content Hc. apply assembleRequestMessage_distinct in Hc.
    destruct Hc as [[_ Hm] | Hc]; [now left | now right]. }
  destruct (RequestBody operation) as [body |].
  - destruct (negb (rb_Ref body =? "")).
    + injection Hrun as <- <-. now left.
    + destruct (rb_Value body); eapply Hassemble; eassumption.
  - destruct (List.length (Parameters operation) =? 0)%nat.
    + injection Hrun as <- <-. left. apply AddProtoImport_Messages.
    + eapply Hassemble; eassumption.
Qed.

Lemma wrapResponses_spec (operation : Operation) (responses : list (string * ResponseRef)) :
  forall wrapperMessage emptyFlag c wrapperMessage' emptyFlag' c',
    wrapResponses operation responses wrapperMessage emptyFlag c
    = Ok (wrapperMessage', emptyFlag', c') ->
    m_Name wrapperMessage' = m_Name wrapperMessage
    /\ map f_Name (m_Fields wrapperMessage')
       = map f_Name (m_Fields wrapperMessage)
         ++ map (fun response => "response_" +++ fst response) (wrapped responses)
    /\ emptyFlag' = match wrapped responses with [] => emptyFlag | _ => false end.
Proof.
  induction responses as [| [statusCode responseRef] rest IH];
    intros wrapperMessage emptyFlag c wrapperMessage' emptyFlag' c' Hrun.
  - injection Hrun as <- <- <-. simpl. now rewrite app_nil_r.
  - simpl in Hrun. unfold wrapped. simpl.
    destruct (contentLess responseRef); simpl.
    + injection Hrun as <- <- <-. now rewrite app_nil_r.
    + bind_inv Hrun. apply IH in Hrun. destruct Hrun as [Hname [Hfields Hflag]].
      simpl in Hname, Hfields. split; [assumption |]. split.
      * rewrite Hfields, map_app, <- app_assoc. reflexivity.
      * rewrite Hflag. now destruct (wrapped rest).
Qed.

(** X12.  With no response or more than one, the response message is decided by
    the responses met before the first one without content.  When there is
    none, the operation returns [google.protobuf.empty] and only that import
    is added.  Otherwise it returns a wrapper named after the operation id,
    added to the file, with one field "response_<status code>" for each of
    them, in the order they were met; the responses after the first one
    without content have no field. *)
Theorem response_wrapper_fields (operation : Operation) (c : ProtoConverter)
  (responses : list (string * ResponseRef)) name c' :
  Responses operation = Some responses ->
  List.length responses <> 1 ->
  generateResponseMessage operation c = Ok (name, c') ->
  match wrapped responses with
  | [] => name = EmptyProtoFile /\ c' = AddProtoImport EmptyProtoFile c
  | _ =>
      name = OperationID operation
      /\ exists wrapperMessage c1,
           c' = addMessageToProto wrapperMessage c1
           /\ m_Name wrapperMessage = OperationID operation
           /\ map f_Name (m_Fields wrapperMessage)
              = map (fun response => "response_" +++ fst response) (wrapped responses)
  end.
Proof.
  intros Hresponses Hlen Hrun. unfold generateResponseMessage in Hrun.
  rewrite Hresponses in Hrun.
  assert (Hwrap :
            (let* (wrapperMessage, emptyFlag, c1) :=
               wrapResponses operation responses (newMessage (OperationID operation)) true c in
             if emptyFlag then Ok (EmptyProtoFile, AddProtoImport EmptyProtoFile c1)
             else Ok (OperationID operation, addMessageToProto wrapperMessage c1))
            = Ok (name, c')).
  { destruct responses as [| [statusCode responseRef] [| second rest]];
      [exact Hrun | now elim Hlen | exact Hrun]. }
  clear Hrun. bind_inv Hwrap. rename Hrun into Hloop.
  pose proof (wrapResponses_spec _ _ _ _ _ _ _ _ Hloop) as [Hname [Hfields Hflag]].
  simpl in Hname, Hfields. subst b.
  destruct (wrapped responses) as [| first kept] eqn:Hkept.
  - injection Hwrap as <- <-. split; [reflexivity |].
    destruct responses as [| [statusCode responseRef] rest].
    + now injection Hloop as <- <-.
    + unfold wrapped in Hkept. simpl in Hkept, Hloop.
      destruct (contentLess responseRef); [| discriminate].
      now injection Hloop as <- <-.
  - injection Hwrap as <- <-. split; [reflexivity |].
    eexists _, _. split; [reflexivity |]. split; assumption.
Qed.

Lemma mergeByName_absorbs {A : Type} (name : A -> string) (existing new : list A) :
  mergeByName name (mergeByName name existing new) new = mergeByName name existing new.
Proof.
  unfold mergeByName at 1.
  assert (Hnone : filter (fun x => negb (hasName (name x)
                                           (map name (mergeByName name existing new)))) new = []).
  { assert (Hall : forall x, In x new ->
                     hasName (name x) (map name (mergeByName name existing new)) = true).
    { intros x Hin. destruct (hasName (name x) (map name (mergeByName name existing new))) eqn:Hh;
        [reflexivity |].
      apply hasName_not_In in Hh. exfalso. apply Hh.
      unfold mergeByName. rewrite map_app, in_app_iff.
      destruct (hasName (name x) (map name existing)) eqn:He.
      - left. now apply hasName_In.
      - right. apply in_map. apply filter_In. split; [assumption |]. now rewrite He. }
    induction new as [| x rest IH]; [reflexivity |].
    (* the names looked up are those of the whole merge *)
    revert Hall. generalize (map name (mergeByName name existing (x :: rest))).
    intros names Hall. simpl. rewrite (Hall x (or_introl eq_refl)). simpl.
    clear IH. induction rest as [| y rest IH]; [reflexivity |].
    simpl. rewrite (Hall y (or_intror (or_introl eq_refl))). simpl.
    apply IH. intros z [-> | Hz]; apply Hall; simpl; auto. }
  rewrite Hnone. apply app_nil_r.
Qed.

Lemma mergeMessage_absorbs (existing message : ProtoMessage) :
  mergeMessage (mergeMessage existing message) message = mergeMessage existing message.
Proof.
  unfold mergeMessage. simpl. now rewrite !mergeByName_absorbs.
Qed.

Lemma mergeByName_self {A : Type} (name : A -> string) (l : list A) :
  mergeByName name l l = l.
Proof.
  unfold mergeByName.
  assert (Hnone : forall names, incl (map name l) names ->
                    filter (fun x => negb (hasName (name x) names)) l = []).
  { intros names. induction l as [| x rest IH]; intros Hincl; [reflexivity |].
    simpl. assert (Hx : hasName (name x) names = true).
    { destruct (hasName (name x) names) eqn:Hh; [reflexivity |].
      apply hasName_not_In in Hh. exfalso. apply Hh, Hincl. now left. }
    rewrite Hx. simpl. apply IH. intros y Hy. apply Hincl. now right. }
  rewrite Hnone by apply incl_refl. apply app_nil_r.
Qed.

(** X13.  Adding a message a second time changes nothing: the merge by name
    finds every field, nested message, enum and option of the message
    already there. *)
Theorem addMessageToProto_idempotent (message : ProtoMessage) (c : ProtoConverter) :
  addMessageToProto message (addMessageToProto message c) = addMessageToProto message c.
Proof.
  destruct (mergeIntoExisting message (Messages (ProtoFile_ c))) as [ms |] eqn:Hm.
  - assert (Hfirst : addMessageToProto message c = set_FileMessages c ms)
      by (unfold addMessageToProto; now rewrite Hm).
    apply mergeIntoExisting_Some in Hm.
    destruct Hm as [before [existing [after [H1 [H2 [H3 H4]]]]]].
    rewrite Hfirst. unfold addMessageToProto. simpl. subst ms.
    assert (Hagain : mergeIntoExisting message (before ++ mergeMessage existing message :: after)
                     = Some (before ++ mergeMessage existing message :: after)).
    { clear H1 Hfirst. induction before as [| b before IH]; simpl.
      - rewrite H3, String.eqb_refl. now rewrite mergeMessage_absorbs.
      - destruct (m_Name b =? m_Name message) eqn:Hb.
        + apply String.eqb_eq in Hb. exfalso. apply H4. simpl. now left.
        + rewrite IH; [reflexivity |]. intros Hin. apply H4. simpl. now right. }
    rewrite Hagain. destruct c as [file option]. reflexivity.
  - assert (Hfirst : addMessageToProto message c
                     = set_FileMessages c (Messages (ProtoFile_ c) ++ [message]))
      by (unfold addMessageToProto; now rewrite Hm).
    apply mergeIntoExisting_None in Hm.
    rewrite Hfirst. unfold addMessageToProto. simpl.
    assert (Hagain : mergeIntoExisting message (Messages (ProtoFile_ c) ++ [message])
                     = Some (Messages (ProtoFile_ c) ++ [message])).
    { clear Hfirst. induction (Messages (ProtoFile_ c)) as [| b before IH]; simpl.
      - rewrite String.eqb_refl. unfold mergeMessage. rewrite !mergeByName_self.
        now destruct message.
      - destruct (m_Name b =? m_Name message) eqn:Hb.
        + apply String.eqb_eq in Hb. exfalso. apply Hm. simpl. now left.
        + rewrite IH; [reflexivity |]. intros Hin. apply Hm. simpl. now right. }
    rewrite Hagain. destruct c as [file option]. reflexivity.
Qed.

End RequestResponse.

(** ** The order of Go strings and [sort.Slice] on pairwise different names *)

Lemma ascii_compare_refl (a : ascii) : Ascii.compare a a = Eq.
Proof. unfold Ascii.compare. apply N.compare_refl. Qed.

Lemma ascii_compare_Lt_trans (a b c : ascii) :
  Ascii.compare a b = Lt -> Ascii.compare b c = Lt -> Ascii.compare a c = Lt.
Proof. unfold Ascii.compare. rewrite !N.compare_lt_iff. apply N.lt_trans. Qed.

Lemma string_compare_refl (s : string) : String.compare s s = Eq.
Proof. induction s as [| a s IH]; simpl; [reflexivity |]. now rewrite ascii_compare_refl. Qed.

Lemma string_compare_Lt_trans (s1 : string) :
  forall s2 s3,
    String.compare s1 s2 = Lt -> String.compare s2 s3 = Lt -> String.compare s1 s3 = Lt.
Proof.
  induction s1 as [| a s1 IH]; intros [| b s2] [| c s3]; simpl; try easy.
  destruct (Ascii.compare a b) eqn:Hab; destruct (Ascii.compare b c) eqn:Hbc; try easy.
  - apply Ascii.compare_eq_iff in Hab, Hbc. subst. rewrite ascii_compare_refl. apply IH.
  - apply Ascii.compare_eq_iff in Hab. subst. now rewrite Hbc.
  - apply Ascii.compare_eq_iff in Hbc. subst. now rewrite Hab.
  - now rewrite (ascii_compare_Lt_trans _ _ _ Hab Hbc).
Qed.

Lemma ltb_irrefl (s : string) : String.ltb s s = false.
Proof. unfold String.ltb. now rewrite string_compare_refl. Qed.

Lemma ltb_trans (a b c : string) :
  String.ltb a b = true -> String.ltb b c = true -> String.ltb a c = true.
Proof.
  unfold String.ltb. intros Hab Hbc.
  destruct (String.compare a b) eqn:H1; try discriminate.
  destruct (String.compare b c) eqn:H2; try discriminate.
  now rewrite (string_compare_Lt_trans _ _ _ H1 H2).
Qed.

Lemma ltb_trichotomy (a b : string) :
  String.ltb a b = true \/ a = b \/ String.ltb b a = true.
Proof.
  unfold String.ltb. rewrite (String.compare_antisym b a).
  destruct (String.compare a b) eqn:Hc; simpl; auto.
  right. left. now apply String.compare_eq_iff.
Qed.

Lemma notBelow_trans (a b c : string) :
  String.ltb b a = false -> String.ltb c b = false -> String.ltb c a = false.
Proof.
  intros Hab Hbc. destruct (String.ltb c a) eqn:Hca; [| reflexivity]. exfalso.
  destruct (ltb_trichotomy a b) as [Hlt | [-> | Hlt]]; [| congruence | congruence].
  destruct (ltb_trichotomy b c) as [Hlt' | [-> | Hlt']]; [| | congruence].
  - pose proof (ltb_trans _ _ _ (ltb_trans _ _ _ Hlt Hlt') Hca) as Habs.
    rewrite ltb_irrefl in Habs. discriminate.
  - pose proof (ltb_trans _ _ _ Hlt Hca) as Habs.
    rewrite ltb_irrefl in Habs. discriminate.
Qed.

Lemma sortedBy_head_least {A : Type} (name : A -> string) (x : A) (l : list A) :
  sortedBy name (x :: l) ->
  forall y, In y l -> String.ltb (name y) (name x) = false.
Proof.
  unfold sortedBy. intros Hs.
  apply Sorted_StronglySorted in Hs.
  - inversion Hs as [| ? ? _ Hall]; subst. now apply Forall_forall.
  - intros a b c. apply notBelow_trans.
Qed.

Lemma sortedBy_tail {A : Type} (name : A -> string) (x : A) (l : list A) :
  sortedBy name (x :: l) -> sortedBy name l.
Proof. unfold sortedBy. intros Hs. now inversion Hs. Qed.

(** A list has one arrangement sorted by name when its names are pairwise
    different. *)
Lemma sortedBy_unique {A : Type} (name : A -> string) (l : list A) :
  forall l',
    NoDup (map name l) -> sortedBy name l -> sortedBy name l' -> Permutation l l' -> l = l'.
Proof.
  induction l as [| x rest IH]; intros l' Hnd Hs Hs' Hperm.
  - apply Permutation_nil in Hperm. now subst.
  - destruct l' as [| y rest'].
    + apply Permutation_sym, Permutation_nil in Hperm. discriminate.
    + assert (Hxy : x = y).
      { assert (Hx : In x (y :: rest')) by (eapply Permutation_in; [eassumption | now left]).
        assert (Hy : In y (x :: rest))
          by (eapply Permutation_in; [apply Permutation_sym; eassumption | now left]).
        destruct Hx as [Hx | Hx]; [now symmetry |].
        destruct Hy as [Hy | Hy]; [assumption |]. exfalso.
        pose proof (sortedBy_head_least name y rest' Hs' x Hx) as H1.
        pose proof (sortedBy_head_least name x rest Hs y Hy) as H2.
        destruct (ltb_trichotomy (name x) (name y)) as [Hlt | [Heq | Hlt]]; try congruence.
        simpl in Hnd. apply NoDup_cons_iff in Hnd. destruct Hnd as [Hnin _].
        apply Hnin. rewrite Heq. now apply in_map. }
      subst y. f_equal. apply IH.
      * simpl in Hnd. now apply NoDup_cons_iff in Hnd.
      * eapply sortedBy_tail; eassumption.
      * eapply sortedBy_tail; eassumption.
      * eapply Permutation_cons_inv; eassumption.
Qed.

Lemma sortSlice_order_independent {A : Type} (name : A -> string) (l l' : list A) :
  NoDup (map name l) -> Permutation l l' ->
  sortSlice (lessBy name) l = sortSlice (lessBy name) l'.
Proof.
  intros Hnd Hperm. apply (sortedBy_unique name).
  - eapply Permutation_NoDup; [| eassumption].
    apply Permutation_map, Permutation_sym, sortSlice_Permutation.
  - apply sortSlice_sortedBy.
  - apply sortSlice_sortedBy.
  - rewrite sortSlice_Permutation, Hperm. apply Permutation_sym, sortSlice_Permutation.
Qed.

Section EncoderOrder.

Context `{GoLib}.

(** X14.  The text of a file does not depend on the order of its messages nor on
    the order of its services, when the message names are pairwise different
    and the service names are. *)
Theorem proto_text_independent_of_list_order (protoFile protoFile' : ProtoFile) :
  PackageName protoFile' = PackageName protoFile ->
  Imports protoFile' = Imports protoFile ->
  Options protoFile' = Options protoFile ->
  Permutation (Messages protoFile) (Messages protoFile') ->
  Permutation (Services protoFile) (Services protoFile') ->
  NoDup (map m_Name (Messages protoFile)) ->
  NoDup (map svc_Name (Services protoFile)) ->
  ConvertToProtoFile protoFile' = ConvertToProtoFile protoFile.
Proof.
  intros Hpackage Himports Hoptions Hmessages Hservices Hnd Hnd'.
  unfold ConvertToProtoFile. rewrite Hpackage, Himports, Hoptions.
  rewrite (sortSlice_order_independent m_Name _ _ Hnd Hmessages).
  rewrite (sortSlice_order_independent svc_Name _ _ Hnd' Hservices).
  reflexivity.
Qed.

(** X15.  The numbers of the fields of a message are decided by the field names
    alone: two messages that differ only in the order of their fields, the
    names pairwise different, are written as the same text. *)
Theorem field_numbers_independent_of_field_order (message message' : ProtoMessage)
  (indentLevel : nat) :
  m_Name message' = m_Name message ->
  m_Messages message' = m_Messages message ->
  m_Options message' = m_Options message ->
  Permutation (m_Fields message) (m_Fields message') ->
  NoDup (map f_Name (m_Fields message)) ->
  encodeMessage message' indentLevel = encodeMessage message indentLevel.
Proof.
  intros Hname Hmessages Hoptions Hfields Hnd.
  destruct message as [name fields messages enums options].
  destruct message' as [name' fields' messages' enums' options'].
  simpl in *. subst.
  now rewrite (sortSlice_order_independent f_Name _ _ Hnd Hfields).
Qed.

End EncoderOrder.

(** ** The registries of the thrift generator *)

Module RegistryFacts.

Import ThriftGen Registry.

Ltac continues_split := split; [| split; [| split; [| split]]].

Lemma continues_refl (g : Generator) : continues g g.
Proof.
  continues_split; try (exists []; now rewrite app_nil_r); tauto.
Qed.

Lemma continues_trans (g1 g2 g3 : Generator) :
  continues g1 g2 -> continues g2 g3 -> continues g1 g3.
Proof.
  intros [[n1 G1] [[s1 C1] [[r1 R1] [K1 D1]]]] [[n2 G2] [[s2 C2] [[r2 R2] [K2 D2]]]].
  continues_split.
  - exists (n1 ++ n2). now rewrite G2, G1, app_assoc.
  - exists (s1 ++ s2). now rewrite C2, C1, app_assoc.
  - exists (r1 ++ r2). now rewrite R2, R1, app_assoc.
  - auto.
  - auto.
Qed.

Lemma NoDup_snoc {A : Type} (l : list A) (x : A) : NoDup l -> ~ In x l -> NoDup (l ++ [x]).
Proof.
  intros Hnd Hnin. apply NoDup_app_remove_l with (l := []). simpl.
  apply Permutation_NoDup with (l := x :: l); [apply Permutation_cons_append | now constructor].
Qed.

Lemma Contains_In (slice : list string) (item : string) :
  Contains slice item = true <-> In item slice.
Proof. apply hasName_In. Qed.

Lemma Contains_not_In (slice : list string) (item : string) :
  Contains slice item = false <-> ~ In item slice.
Proof. apply hasName_not_In. Qed.

Section GeneratorInvariants.

Context `{Reflection}.

Lemma schemaReferenceForMessage_continues (message : StructDescriptor) (g : Generator) :
  continues g (snd (schemaReferenceForMessage message g))
  /\ In (sd_Name message) (requiredSchemas (snd (schemaReferenceForMessage message g))).
Proof.
  unfold schemaReferenceForMessage. simpl.
  destruct (Contains (requiredSchemas g) (sd_Name message)) eqn:Hc; simpl.
  - split; [apply continues_refl | now apply Contains_In].
  - split.
    + continues_split; simpl; try (exists []; now rewrite app_nil_r); try tauto.
      * now exists [sd_Name message].
      * intros Hnd. apply NoDup_snoc; [assumption | now apply Contains_not_In].
    + rewrite in_app_iff. right. now left.
Qed.

Lemma schemaOrReferenceForField_continues (fieldType : TypeDescriptor) :
  forall g,
    continues g (snd (schemaOrReferenceForField fieldType g))
    /\ incl (refsOf fieldType) (requiredSchemas (snd (schemaOrReferenceForField fieldType g))).
Proof.
  induction fieldType as [name | valueType IH | valueType IH | name]; intros g;
    cbn [schemaOrReferenceForField refsOf].
  - destruct (TypeStructDescriptor name) as [structDesc |].
    + destruct (schemaReferenceForMessage_continues structDesc g) as [Hc Hin].
      destruct (schemaReferenceForMessage structDesc g) as [ref g1]. cbn [snd] in *.
      split; [assumption |]. intros n [<- | []]. assumption.
    + split; [apply continues_refl | intros n []].
  - specialize (IH g). destruct (schemaOrReferenceForField valueType g). exact IH.
  - specialize (IH g). destruct (schemaOrReferenceForField valueType g). exact IH.
  - split; [apply continues_refl | intros n []].
Qed.

Lemma schemaForFieldType_continues (fieldType : option TypeDescriptor) (g : Generator)
  schema g' :
  schemaForFieldType fieldType g = Ok (schema, g') ->
  continues g g'
  /\ incl (match fieldType with Some t => refsOf t | None => [] end) (requiredSchemas g').
Proof.
  destruct fieldType as [t |]; [| discriminate]. simpl. intros Heq.
  pose proof (schemaOrReferenceForField_continues t g) as Hc.
  destruct (schemaOrReferenceForField t g). injection Heq as <- <-. exact Hc.
Qed.

Lemma addSchemaToDocument_continues (name : string) (schema : SchemaOrReference)
  (g : Generator) :
  continues g (addSchemaToDocument name schema g)
  /\ In name (generatedSchemas (addSchemaToDocument name schema g)).
Proof.
  unfold addSchemaToDocument.
  destruct (Contains (generatedSchemas g) name) eqn:Hc.
  - split; [apply continues_refl | now apply Contains_In].
  - apply Contains_not_In in Hc. split.
    + continues_split; simpl; try (exists []; now rewrite app_nil_r); try tauto.
      * now exists [name].
      * now exists [(name, schema)].
      * intros [Hmap Hnd]. split; simpl.
        -- rewrite map_app, Hmap. reflexivity.
        -- now apply NoDup_snoc.
    + simpl. rewrite in_app_iff. right. now left.
Qed.

Lemma addSchemaToDocument_generated (name : string) (schema : SchemaOrReference)
  (g : Generator) (n : string) :
  In n (generatedSchemas (addSchemaToDocument name schema g)) ->
  In n (generatedSchemas g) \/ n = name.
Proof.
  unfold addSchemaToDocument. destruct (Contains (generatedSchemas g) name); [now left |].
  simpl. rewrite in_app_iff. intros [Hin | [Hin | []]]; [now left | now right].
Qed.

Lemma schemaProperties_continues (option : string) (allRequired : list string)
  (fields : list FieldDescriptor) :
  forall required properties g required' properties' g',
    schemaProperties option allRequired fields required properties g
    = Ok (required', properties', g') ->
    continues g g'.
Proof.
  induction fields as [| field rest IH]; intros required properties g required' properties' g' Hrun.
  - injection Hrun as <- <- <-. apply continues_refl.
  - simpl in Hrun.
    destruct (annotation (fd_Annotations field) option) as [[| first values] |];
      [discriminate | | eapply IH; eassumption].
    bind_inv Hrun. apply schemaForFieldType_continues in Hrun0. destruct Hrun0 as [Hc _].
    destruct x as [schema |]; apply IH in Hrun; eapply continues_trans; eassumption.
Qed.

Lemma getSchemaByOption_continues (inputDesc : StructDescriptor) (option : string)
  (g : Generator) schema g' :
  getSchemaByOption inputDesc option g = Ok (schema, g') -> continues g g'.
Proof.
  unfold getSchemaByOption. intros Hrun. bind_inv Hrun. injection Hrun as <- <-.
  eapply schemaProperties_continues; eassumption.
Qed.

Lemma responseHeaders_continues (fields : list FieldDescriptor) :
  forall headers g headers' g',
    responseHeaders fields headers g = Ok (headers', g') -> continues g g'.
Proof.
  induction fields as [| field rest IH]; intros headers g headers' g' Hrun.
  - injection Hrun as <- <-. apply continues_refl.
  - simpl in Hrun.
    destruct (annotation (fd_Annotations field) ApiHeader) as [[| ext values] |];
      try (eapply IH; eassumption).
    destruct (negb (ext =? "")); [| eapply IH; eassumption].
    bind_inv Hrun. apply schemaForFieldType_continues in Hrun0. destruct Hrun0 as [Hc _].
    apply IH in Hrun. eapply continues_trans; eassumption.
Qed.

Lemma getResponseForStruct_continues (desc : StructDescriptor) (g : Generator)
  name headers content g' :
  getResponseForStruct desc g = Ok (name, headers, content, g') -> continues g g'.
Proof.
  unfold getResponseForStruct. intros Hrun.
  bind_inv Hrun. bind_inv Hrun. bind_inv Hrun.
  apply responseHeaders_continues in Hrun0.
  apply getSchemaByOption_continues in Hrun1, Hrun2.
  pose proof (continues_trans _ _ _ (continues_trans _ _ _ Hrun0 Hrun1) Hrun2) as Hc.
  repeat match type of Hrun with
         | context [if ?b then _ else _] => destruct b
         end;
    injection Hrun as <- <- <- <-;
    repeat (eapply continues_trans; [| apply addSchemaToDocument_continues]);
    exact Hc.
Qed.

Lemma parameterBlock_continues (v : FieldDescriptor) (key place : string) (isPath : bool)
  (vars : ParamVars) (g : Generator) vars' g' :
  parameterBlock v key place isPath vars g = Ok (vars', g') -> continues g g'.
Proof.
  unfold parameterBlock. intros Hrun.
  destruct (annotation (fd_Annotations v) key) as [[| ext values] |];
    try (injection Hrun as <- <-; apply continues_refl).
  destruct (negb (ext =? "")); [| injection Hrun as <- <-; apply continues_refl].
  bind_inv Hrun. bind_inv Hrun. injection Hrun as <- <-.
  now apply schemaForFieldType_continues in Hrun0.
Qed.

Lemma buildParameters_continues (fields : list FieldDescriptor) :
  forall parameters g parameters' g',
    buildParameters fields parameters g = Ok (parameters', g') -> continues g g'.
Proof.
  induction fields as [| v rest IH]; intros parameters g parameters' g' Hrun.
  - injection Hrun as <- <-. apply continues_refl.
  - simpl in Hrun. bind_inv Hrun. bind_inv Hrun. bind_inv Hrun. bind_inv Hrun.
    apply parameterBlock_continues in Hrun0, Hrun1, Hrun2, Hrun3.
    pose proof (continues_trans _ _ _ (continues_trans _ _ _
                  (continues_trans _ _ _ Hrun0 Hrun1) Hrun2) Hrun3) as Hc.
    match type of Hrun with
    | (if ?b then _ else _) = _ => destruct b
    end; apply IH in Hrun; eapply continues_trans; eassumption.
Qed.

Lemma buildRequestBody_continues (methodName : string) (inputDesc : StructDescriptor)
  (g : Generator) requestBody g' :
  buildRequestBody methodName inputDesc g = Ok (requestBody, g') -> continues g g'.
Proof.
  unfold buildRequestBody. intros Hrun.
  match type of Hrun with
  | (if ?b then _ else _) = _ => destruct b
  end; [| injection Hrun as <- <-; apply continues_refl].
  bind_inv Hrun. bind_inv Hrun. bind_inv Hrun.
  apply getSchemaByOption_continues in Hrun0, Hrun1, Hrun2.
  match type of Hrun with
  | (if ?b then _ else _) = _ => destruct b
  end; injection Hrun as <- <-;
    exact (continues_trans _ _ _ (continues_trans _ _ _ Hrun0 Hrun1) Hrun2).
Qed.

(** X16.  [buildOperation] takes nothing from the generator and changes nothing
    that is there: names are appended to the two registries and schemas to
    the component list.  A registry that lists the component schemas, each
    name once, still does afterwards, and the names of the worklist stay
    pairwise different. *)
Theorem buildOperation_continues
  (methodName description operationID tagName path host : string)
  (inputDesc outputDesc : StructDescriptor) (g : Generator) op path' g' :
  buildOperation methodName description operationID tagName path host inputDesc outputDesc g
  = Ok (op, path', g') ->
  continues g g'.
Proof.
  unfold buildOperation. intros Hrun.
  bind_inv Hrun. bind_inv Hrun. bind_inv Hrun. injection Hrun as <- <- <-.
  apply buildParameters_continues in Hrun0.
  apply buildRequestBody_continues in Hrun1.
  apply getResponseForStruct_continues in Hrun2.
  exact (continues_trans _ _ _ (continues_trans _ _ _ Hrun0 Hrun1) Hrun2).
Qed.

(** *** The worklist *)

Lemma continues_required (g g' : Generator) (name : string) :
  continues g g' -> In name (requiredSchemas g) -> In name (requiredSchemas g').
Proof.
  intros [_ [_ [[names Hr] _]]] Hin. rewrite Hr. apply in_or_app. now left.
Qed.

Lemma continues_generated (g g' : Generator) (name : string) :
  continues g g' -> In name (generatedSchemas g) -> In name (generatedSchemas g').
Proof.
  intros [[names Hg] _] Hin. rewrite Hg. apply in_or_app. now left.
Qed.

Lemma schemaOrReferenceForField_generated (fieldType : TypeDescriptor) :
  forall g, generatedSchemas (snd (schemaOrReferenceForField fieldType g)) = generatedSchemas g.
Proof.
  induction fieldType as [name | valueType IH | valueType IH | name]; intros g;
    cbn [schemaOrReferenceForField].
  - destruct (TypeStructDescriptor name) as [structDesc |]; [| reflexivity].
    unfold schemaReferenceForMessage.
    now destruct (negb (Contains (requiredSchemas g) (sd_Name structDesc))).
  - specialize (IH g). now destruct (schemaOrReferenceForField valueType g).
  - specialize (IH g). now destruct (schemaOrReferenceForField valueType g).
  - reflexivity.
Qed.

Lemma structProperties_spec (fields : list FieldDescriptor) :
  forall properties g properties' g',
    structProperties fields properties g = Ok (properties', g') ->
    continues g g'
    /\ generatedSchemas g' = generatedSchemas g
    /\ incl (flat_map (fun field => match fd_Type field with
                                    | Some fieldType => refsOf fieldType
                                    | None => []
                                    end) fields)
            (requiredSchemas g').
Proof.
  induction fields as [| field rest IH]; intros properties g properties' g' Hrun.
  - injection Hrun as <- <-. split; [apply continues_refl |]. split; [reflexivity | intros n []].
  - simpl in Hrun. bind_inv Hrun.
    rename g0 into g1.
    assert (Hgen : generatedSchemas g1 = generatedSchemas g).
    { destruct (fd_Type field) as [t |]; [| discriminate]. simpl in Hrun0.
      pose proof (schemaOrReferenceForField_generated t g) as Hg.
      destruct (schemaOrReferenceForField t g). injection Hrun0 as <- <-. exact Hg. }
    apply schemaForFieldType_continues in Hrun0. destruct Hrun0 as [Hc Hrefs].
    assert (Hrest : exists properties1,
               structProperties rest properties1 g1 = Ok (properties', g'))
      by (destruct x; eexists; eassumption).
    destruct Hrest as [properties1 Hrest]. apply IH in Hrest.
    destruct Hrest as [Hc' [Hgen' Hrefs']].
    split; [eapply continues_trans; eassumption |]. split; [congruence |].
    simpl. apply incl_app; [| assumption].
    intros n Hn. eapply continues_required; [eassumption |]. now apply Hrefs.
Qed.

Lemma generateSchema_spec (s : StructDescriptor) (g g' : Generator) :
  generateSchema s g = Ok g' -> expanded [s] g g'.
Proof.
  unfold generateSchema. intros Hrun.
  destruct (negb (Contains (requiredSchemas g) (sd_Name s))
            || Contains (generatedSchemas g) (sd_Name s)) eqn:Htest.
  - injection Hrun as <-. split; [apply continues_refl |]. split.
    + intros s' [<- | []] Hreq. apply Contains_In in Hreq. rewrite Hreq in Htest.
      now apply Contains_In.
    + intros name Hin Hnin. contradiction.
  - destruct (lookupStruct (sd_Name s)) as [structDesc |] eqn:Hlook; [| discriminate].
    bind_inv Hrun. injection Hrun as <-.
    apply structProperties_spec in Hrun0. destruct Hrun0 as [Hc [Hgen Hrefs]].
    rename g0 into g1.
    match goal with
    | |- expanded _ _ (addSchemaToDocument ?name ?schema g1) =>
        destruct (addSchemaToDocument_continues name schema g1) as [Hc' Hin'];
        pose proof (addSchemaToDocument_generated name schema g1) as Hadd
    end.
    split; [eapply continues_trans; eassumption |]. split.
    + intros s' [<- | []] _. exact Hin'.
    + intros name Hin Hnin. exists structDesc.
      assert (Hname : name = sd_Name s).
      { apply Hadd in Hin. rewrite Hgen in Hin. destruct Hin as [Hin | Hin];
          [contradiction | assumption]. }
      subst name. split; [assumption |].
      intros n Hn. eapply continues_required; [eassumption |]. now apply Hrefs.
Qed.

Lemma expanded_step (s : StructDescriptor) (rest : list StructDescriptor)
  (g ga gb g' : Generator) :
  continues g ga ->
  (forall name, In name (generatedSchemas ga) -> ~ In name (generatedSchemas g) ->
                exists structDesc,
                  lookupStruct name = Some structDesc
                  /\ incl (structRefs structDesc) (requiredSchemas ga)) ->
  expanded [s] ga gb -> expanded rest gb g' -> expanded (s :: rest) g g'.
Proof.
  intros Ca Na [Cb [Rb Nb]] [C' [R' N']].
  split; [eapply continues_trans; [eassumption | eapply continues_trans; eassumption] |].
  split.
  - intros s' [<- | Hin] Hreq.
    + eapply continues_generated; [eassumption |]. apply Rb; [now left |].
      eapply continues_required; eassumption.
    + apply R'; [assumption |].
      eapply continues_required; [eassumption |]. eapply continues_required; eassumption.
  - intros name Hin Hnin.
    destruct (in_dec string_dec name (generatedSchemas gb)) as [Hb | Hb]; [| now apply N'].
    destruct (in_dec string_dec name (generatedSchemas ga)) as [Ha | Ha].
    + destruct (Na name Ha Hnin) as [structDesc [Hlook Hrefs]].
      exists structDesc. split; [assumption |]. intros n Hn.
      eapply continues_required; [eassumption |].
      eapply continues_required; [eassumption |]. now apply Hrefs.
    + destruct (Nb name Hb Ha) as [structDesc [Hlook Hrefs]].
      exists structDesc. split; [assumption |]. intros n Hn.
      eapply continues_required; [eassumption |]. now apply Hrefs.
Qed.

Lemma eachStruct_expanded
  (recur : list StructDescriptor -> Generator -> option (result Generator)) :
  (forall sls g g', recur sls g = Some (Ok g') -> expanded sls g g') ->
  forall structs g g', eachStruct recur structs g = Some (Ok g') -> expanded structs g g'.
Proof.
  intros Hrecur structs. induction structs as [| s rest IH]; intros g g' Hrun.
  - injection Hrun as <-. split; [apply continues_refl |]. split.
    + intros s [].
    + intros name Hin Hnin. contradiction.
  - simpl in Hrun.
    destruct (if (0 <? List.length (nestedStructs s))%nat
              then recur (nestedStructs s) g else Some (Ok g)) as [[ga | e |] |] eqn:Hnested;
      try discriminate.
    destruct (generateSchema s ga) as [gb | e |] eqn:Hgen; try discriminate.
    apply generateSchema_spec in Hgen. apply IH in Hrun.
    destruct (0 <? List.length (nestedStructs s))%nat.
    + apply Hrecur in Hnested. destruct Hnested as [Ca [_ Na]].
      eapply expanded_step; eassumption.
    + injection Hnested as <-.
      eapply expanded_step; try eassumption; [apply continues_refl |].
      intros name Hin Hnin. contradiction.
Qed.

Lemma addSchemasForStructsToDocument_expanded (fuel : nat) :
  forall structs g g',
    addSchemasForStructsToDocument fuel structs g = Some (Ok g') -> expanded structs g g'.
Proof.
  induction fuel as [| fuel IH]; intros structs g g' Hrun; [discriminate |].
  simpl in Hrun. eapply eachStruct_expanded; eassumption.
Qed.

Lemma expandRequiredSchemas_round (fuel : nat) (g g' : Generator) :
  expandRequiredSchemas (S fuel) g = Some (Ok g') ->
  requiredSchemas g <> [] ->
  exists g1 names,
    addSchemasForStructsToDocument fuel GetStructs g = Some (Ok g1)
    /\ requiredSchemas g1 = requiredSchemas g ++ names
    /\ expandRequiredSchemas fuel (set_required g1 names) = Some (Ok g').
Proof.
  intros Hrun Hne. cbn [expandRequiredSchemas] in Hrun.
  destruct (requiredSchemas g) as [| first others] eqn:Hreq; [congruence |].
  cbn [List.length Nat.ltb Nat.leb] in Hrun. rewrite <- Hreq in *.
  destruct (addSchemasForStructsToDocument fuel GetStructs g) as [[g1 | e |] |] eqn:Hround;
    try discriminate.
  pose proof (addSchemasForStructsToDocument_expanded _ _ _ _ Hround)
    as [[_ [_ [[names Hr] _]]] _].
  exists g1, names. split; [reflexivity |]. split; [assumption |].
  rewrite Hr in Hrun.
  replace (S (List.length others)) with (List.length (requiredSchemas g)) in Hrun
    by now rewrite Hreq.
  rewrite skipn_app, skipn_all, Nat.sub_diag in Hrun. exact Hrun.
Qed.

Lemma expandRequiredSchemas_done (fuel : nat) (g g' : Generator) :
  expandRequiredSchemas fuel g = Some (Ok g') -> requiredSchemas g = [] -> g' = g.
Proof.
  intros Hrun Hreq. destruct fuel; simpl in Hrun; rewrite Hreq in Hrun; simpl in Hrun;
    congruence.
Qed.

Lemma expandRequiredSchemas_drained (fuel : nat) :
  forall g g', expandRequiredSchemas fuel g = Some (Ok g') -> requiredSchemas g' = [].
Proof.
  induction fuel as [| fuel IH]; intros g g' Hrun.
  - simpl in Hrun. destruct (requiredSchemas g) eqn:Hreq; [| discriminate].
    now injection Hrun as <-.
  - destruct (requiredSchemas g) as [| first others] eqn:Hreq.
    + apply expandRequiredSchemas_done in Hrun; [| assumption]. now subst g'.
    + apply expandRequiredSchemas_round in Hrun; [| congruence].
      destruct Hrun as [g1 [names [_ [_ Hrest]]]]. now apply IH in Hrest.
Qed.

(** X17.  The worklist loop of [BuildDocument] returns with an empty worklist.
    It only appends to the component list, and a registry that lists the
    component schemas, each name once, still does when the loop returns. *)
Theorem worklist_keeps_registry (fuel : nat) :
  forall g g',
    expandRequiredSchemas fuel g = Some (Ok g') ->
    requiredSchemas g' = []
    /\ (exists schemas, componentSchemas g' = componentSchemas g ++ schemas)
    /\ (registered g -> registered g').
Proof.
  induction fuel as [| fuel IH]; intros g g' Hrun.
  - simpl in Hrun. destruct (requiredSchemas g) eqn:Hreq; [| discriminate].
    injection Hrun as <-. split; [assumption |].
    split; [exists []; now rewrite app_nil_r | tauto].
  - destruct (requiredSchemas g) as [| first others] eqn:Hreq.
    + apply expandRequiredSchemas_done in Hrun; [| assumption]. subst g'.
      split; [assumption |]. split; [exists []; now rewrite app_nil_r | tauto].
    + apply expandRequiredSchemas_round in Hrun; [| congruence].
      destruct Hrun as [g1 [names [Hround [Hr Hrest]]]].
      apply addSchemasForStructsToDocument_expanded in Hround.
      destruct Hround as [[_ [[schemas Hc] [_ [Hk _]]]] _].
      apply IH in Hrest. destruct Hrest as [Hempty [[schemas' Hc'] Hk']].
      split; [assumption |]. split.
      * exists (schemas ++ schemas'). simpl in Hc'. now rewrite Hc', Hc, app_assoc.
      * intros Hreg. apply Hk', Hk. exact Hreg.
Qed.

Lemma worklist_closing (old : list string) (fuel : nat) :
  forall g g',
    expandRequiredSchemas fuel g = Some (Ok g') ->
    closing old g ->
    closing old g'
    /\ (forall m, In m (requiredSchemas g) -> ownStruct m -> In m (generatedSchemas g'))
    /\ (forall m, In m (generatedSchemas g) -> In m (generatedSchemas g')).
Proof.
  induction fuel as [| fuel IH]; intros g g' Hrun Hinv.
  - simpl in Hrun. destruct (requiredSchemas g) eqn:Hreq; [| discriminate].
    injection Hrun as <-. split; [assumption |]. split; [intros m [] | auto].
  - destruct (requiredSchemas g) as [| first others] eqn:Hreq.
    + apply expandRequiredSchemas_done in Hrun; [| assumption]. subst g'.
      split; [assumption |]. split; [intros m [] | auto].
    + rewrite <- Hreq in *.
      apply expandRequiredSchemas_round in Hrun; [| rewrite Hreq; congruence].
      destruct Hrun as [g1 [names [Hround [Hr Hrest]]]].
      apply addSchemasForStructsToDocument_expanded in Hround.
      destruct Hround as [Hc [Hvisited Hnew]].
      assert (Hown : forall m, In m (requiredSchemas g) -> ownStruct m ->
                               In m (generatedSchemas g1)).
      { intros m Hm [s [Hs <-]]. now apply Hvisited. }
      assert (Hinv1 : closing old (set_required g1 names)).
      { intros name Hin Hold. simpl in Hin.
        destruct (in_dec string_dec name (generatedSchemas g)) as [Hg | Hg].
        - destruct (Hinv name Hg Hold) as [structDesc [Hlook Hrefs]].
          exists structDesc. split; [assumption |]. intros m Hm Hself. simpl.
          destruct (Hrefs m Hm Hself) as [Hgen | Hrq].
          + left. eapply continues_generated; eassumption.
          + left. now apply Hown.
        - destruct (Hnew name Hin Hg) as [structDesc [Hlook Hrefs]].
          exists structDesc. split; [assumption |]. intros m Hm Hself. simpl.
          apply Hrefs in Hm. rewrite Hr in Hm. apply in_app_or in Hm.
          destruct Hm as [Hm | Hm]; [left; now apply Hown | now right]. }
      apply IH in Hrest; [| assumption]. destruct Hrest as [Hinv' [_ Hgrow]].
      simpl in Hgrow. split; [assumption |]. split.
      * intros m Hm Hself. apply Hgrow. now apply Hown.
      * intros m Hm. apply Hgrow. eapply continues_generated; eassumption.
Qed.

(** X18.  When the worklist loop of [BuildDocument] returns, the references to
    structs of the file are closed: every name that was on the worklist has
    its schema, and so has every name that the struct of a schema generated
    by the loop refers to. *)
Theorem worklist_closed_under_references (fuel : nat) (g g' : Generator) :
  expandRequiredSchemas fuel g = Some (Ok g') ->
  (forall m, In m (requiredSchemas g) -> ownStruct m -> In m (generatedSchemas g'))
  /\ (forall name, In name (generatedSchemas g') -> ~ In name (generatedSchemas g) ->
        exists structDesc,
          lookupStruct name = Some structDesc
          /\ forall m, In m (structRefs structDesc) -> ownStruct m ->
                       In m (generatedSchemas g')).
Proof.
  intros Hrun.
  pose proof (expandRequiredSchemas_drained fuel g g' Hrun) as Hempty.
  destruct (worklist_closing (generatedSchemas g) fuel g g' Hrun) as [Hinv [Hreq _]].
  { intros name Hin Hnin. contradiction. }
  split; [assumption |].
  intros name Hin Hnin. destruct (Hinv name Hin Hnin) as [structDesc [Hlook Hrefs]].
  exists structDesc. split; [assumption |]. intros m Hm Hself.
  destruct (Hrefs m Hm Hself) as [Hgen | Hrq]; [assumption |].
  rewrite Hempty in Hrq. destruct Hrq.
Qed.

(** *** Struct graphs without cycle *)

Lemma eachStruct_ends (family : StructDescriptor -> Prop) (rank : StructDescriptor -> nat)
  (bound : nat)
  (recur : list StructDescriptor -> Generator -> option (result Generator)) :
  descending family rank ->
  (forall sls g, sls <> [] -> (forall s, In s sls -> family s /\ rank s < bound) ->
                 recur sls g <> None) ->
  forall structs g,
    (forall s, In s structs -> family s /\ rank s <= bound) ->
    eachStruct recur structs g <> None.
Proof.
  intros Hdesc Hrecur structs. induction structs as [| s rest IH]; intros g Hall; [discriminate |].
  simpl.
  assert (Hnested : (if (0 <? List.length (nestedStructs s))%nat
                     then recur (nestedStructs s) g else Some (Ok g)) <> None).
  { destruct (nestedStructs s) as [| s0 sls] eqn:Hsls; [discriminate |].
    cbn [List.length Nat.ltb Nat.leb]. apply Hrecur; [discriminate |].
    intros s' Hin. rewrite <- Hsls in Hin.
    destruct (Hall s (or_introl eq_refl)) as [Hfam Hrank].
    destruct (Hdesc s Hfam s' Hin) as [Hfam' Hlt]. split; [assumption | lia]. }
  destruct (if (0 <? List.length (nestedStructs s))%nat
            then recur (nestedStructs s) g else Some (Ok g)) as [[ga | e |] |];
    try discriminate; [| congruence].
  destruct (generateSchema s ga) as [gb | e |]; try discriminate.
  apply IH. intros s' Hin. apply Hall. now right.
Qed.

Lemma addSchemasForStructsToDocument_ends (family : StructDescriptor -> Prop)
  (rank : StructDescriptor -> nat) :
  descending family rank ->
  forall fuel structs g,
    (forall s, In s structs -> family s /\ rank s <= fuel) ->
    addSchemasForStructsToDocument (S fuel) structs g <> None.
Proof.
  intros Hdesc. induction fuel as [| fuel IH]; intros structs g Hall.
  - change (eachStruct (addSchemasForStructsToDocument 0) structs g <> None).
    apply (eachStruct_ends family rank 0); try assumption.
    intros sls g0 Hne Hsls. destruct sls as [| s0 sls]; [congruence |].
    destruct (Hsls s0 (or_introl eq_refl)); lia.
  - change (eachStruct (addSchemasForStructsToDocument (S fuel)) structs g <> None).
    apply (eachStruct_ends family rank (S fuel)); try assumption.
    intros sls g0 _ Hsls. apply IH. intros s Hin.
    destruct (Hsls s Hin). split; [assumption | lia].
Qed.

(** X20.  On structs of a family without cycle the expansion ends, with a
    generator or with an error: a depth of calls above their ranks is
    enough. *)
Theorem acyclic_structs_expansion_ends (family : StructDescriptor -> Prop)
  (rank : StructDescriptor -> nat) (depth : nat) (structs : list StructDescriptor)
  (g : Generator) :
  descending family rank ->
  (forall s, In s structs -> family s /\ rank s <= depth) ->
  exists outcome, addSchemasForStructsToDocument (S depth) structs g = Some outcome.
Proof.
  intros Hdesc Hall.
  pose proof (addSchemasForStructsToDocument_ends family rank Hdesc depth structs g Hall)
    as Hends.
  destruct (addSchemasForStructsToDocument (S depth) structs g) as [outcome |]; [| congruence].
  now exists outcome.
Qed.

Lemma generateSchema_progressed (family : StructDescriptor -> Prop) (s : StructDescriptor)
  (g g' : Generator) :
  family s -> generateSchema s g = Ok g' -> progressed family g g'.
Proof.
  intros Hfam Hrun. unfold generateSchema in Hrun.
  destruct (negb (Contains (requiredSchemas g) (sd_Name s))
            || Contains (generatedSchemas g) (sd_Name s)) eqn:Htest.
  - left. now injection Hrun as <-.
  - right. exists s. split; [assumption |].
    apply orb_false_iff in Htest. destruct Htest as [_ Hgen]. apply Contains_not_In in Hgen.
    destruct (lookupStruct (sd_Name s)) as [structDesc |]; [| discriminate].
    bind_inv Hrun. injection Hrun as <-. split; [| assumption].
    apply addSchemaToDocument_continues.
Qed.

Lemma progressed_trans (family : StructDescriptor -> Prop) (g1 g2 g3 : Generator) :
  continues g2 g3 ->
  progressed family g1 g2 -> progressed family g2 g3 -> progressed family g1 g3.
Proof.
  intros C23 [-> | [s [Hfam [Hin Hnin]]]] P23; [exact P23 |].
  right. exists s. split; [assumption |]. split; [| assumption].
  eapply continues_generated; eassumption.
Qed.

Lemma eachStruct_progressed (family : StructDescriptor -> Prop) (rank : StructDescriptor -> nat)
  (recur : list StructDescriptor -> Generator -> option (result Generator)) :
  descending family rank ->
  (forall sls g g', recur sls g = Some (Ok g') -> expanded sls g g') ->
  (forall sls g g', (forall s, In s sls -> family s) ->
                    recur sls g = Some (Ok g') -> progressed family g g') ->
  forall structs g g',
    (forall s, In s structs -> family s) ->
    eachStruct recur structs g = Some (Ok g') ->
    progressed family g g'.
Proof.
  intros Hdesc Hexpanded Hrecur structs.
  induction structs as [| s rest IH]; intros g g' Hall Hrun.
  - injection Hrun as <-. now left.
  - simpl in Hrun.
    destruct (if (0 <? List.length (nestedStructs s))%nat
              then recur (nestedStructs s) g else Some (Ok g)) as [[ga | e |] |] eqn:Hnested;
      try discriminate.
    destruct (generateSchema s ga) as [gb | e |] eqn:Hgen; try discriminate.
    assert (Hfam : family s) by (apply Hall; now left).
    assert (Pa : progressed family g ga).
    { destruct (0 <? List.length (nestedStructs s))%nat.
      - eapply Hrecur; [| eassumption]. intros s' Hin. now apply (Hdesc s Hfam s').
      - injection Hnested as <-. now left. }
    pose proof (generateSchema_progressed family s ga gb Hfam Hgen) as Pb.
    pose proof (generateSchema_spec s ga gb Hgen) as [Cb _].
    pose proof (eachStruct_expanded recur Hexpanded rest gb g' Hrun) as [C' _].
    assert (P' : progressed family gb g').
    { eapply IH; [| eassumption]. intros s' Hin. apply Hall. now right. }
    eapply progressed_trans; [| eapply progressed_trans; [| eassumption | eassumption] |];
      eassumption.
Qed.

Lemma addSchemasForStructsToDocument_progressed (family : StructDescriptor -> Prop)
  (rank : StructDescriptor -> nat) :
  descending family rank ->
  forall fuel structs g g',
    (forall s, In s structs -> family s) ->
    addSchemasForStructsToDocument fuel structs g = Some (Ok g') ->
    progressed family g g'.
Proof.
  intros Hdesc. induction fuel as [| fuel IH]; intros structs g g' Hall Hrun; [discriminate |].
  simpl in Hrun.
  eapply (eachStruct_progressed family rank); try eassumption.
  apply addSchemasForStructsToDocument_expanded.
Qed.

Lemma filter_length_lt {A : Type} (p q : A -> bool) (l : list A) (x : A) :
  (forall y, q y = true -> p y = true) ->
  In x l -> p x = true -> q x = false ->
  List.length (filter q l) < List.length (filter p l).
Proof.
  intros Hqp Hin Hp Hq.
  assert (Hle : forall l', List.length (filter q l') <= List.length (filter p l')).
  { induction l' as [| y l' IH]; simpl; [lia |].
    destruct (q y) eqn:Hqy.
    - rewrite (Hqp y Hqy). simpl. lia.
    - destruct (p y); simpl; lia. }
  induction l as [| y l IH]; [destruct Hin |].
  simpl. destruct Hin as [-> | Hin].
  - rewrite Hp, Hq. simpl. specialize (Hle l). lia.
  - specialize (IH Hin). destruct (q y) eqn:Hqy.
    + rewrite (Hqp y Hqy). simpl. lia.
    + destruct (p y); simpl; lia.
Qed.

Lemma ungenerated_decreases (universe : list string) (g g' : Generator) (name : string) :
  continues g g' ->
  In name universe -> In name (generatedSchemas g') -> ~ In name (generatedSchemas g) ->
  ungenerated universe g' < ungenerated universe g.
Proof.
  intros Hc Hu Hin Hnin. unfold ungenerated.
  apply filter_length_lt with (x := name); try assumption.
  - intros y Hy. apply negb_true_iff in Hy. apply negb_true_iff.
    apply Contains_not_In in Hy. apply Contains_not_In.
    intros Hgen. apply Hy. eapply continues_generated; eassumption.
  - apply negb_true_iff. now apply Contains_not_In.
  - apply negb_false_iff. now apply Contains_In.
Qed.

Lemma expandRequiredSchemas_unfold (fuel : nat) (g : Generator) :
  requiredSchemas g <> [] ->
  expandRequiredSchemas (S fuel) g
  = match addSchemasForStructsToDocument fuel GetStructs g with
    | Some (Ok g1) =>
        expandRequiredSchemas fuel
          (set_required g1 (skipn (List.length (requiredSchemas g)) (requiredSchemas g1)))
    | other => other
    end.
Proof.
  intros Hne. cbn [expandRequiredSchemas].
  destruct (requiredSchemas g) as [| first others] eqn:Hreq; [congruence |]. reflexivity.
Qed.

Lemma expandRequiredSchemas_empty (fuel : nat) (g : Generator) :
  requiredSchemas g = [] -> expandRequiredSchemas fuel g = Some (Ok g).
Proof. intros Hreq. destruct fuel; simpl; now rewrite Hreq. Qed.

Lemma worklist_ends (family : StructDescriptor -> Prop) (rank : StructDescriptor -> nat)
  (depth : nat) (universe : list string) :
  descending family rank ->
  (forall s, In s GetStructs -> family s /\ rank s <= depth) ->
  (forall s, family s -> In (sd_Name s) universe) ->
  forall n fuel g,
    ungenerated universe g <= n -> n + depth + 2 <= fuel ->
    expandRequiredSchemas fuel g <> None.
Proof.
  intros Hdesc Hstructs Huniverse.
  induction n as [n IH] using lt_wf_ind. intros fuel g Hmeasure Hfuel.
  destruct fuel as [| fuel]; [lia |].
  destruct (requiredSchemas g) as [| first others] eqn:Hreq.
  { rewrite expandRequiredSchemas_empty by assumption. discriminate. }
  rewrite expandRequiredSchemas_unfold by congruence.
  destruct fuel as [| fuel]; [lia |].
  pose proof (addSchemasForStructsToDocument_ends family rank Hdesc fuel GetStructs g)
    as Hends.
  destruct (addSchemasForStructsToDocument (S fuel) GetStructs g)
    as [[g1 | e |] |] eqn:Hround; try discriminate.
  2: { exfalso. apply Hends; [| reflexivity].
       intros s Hs. destruct (Hstructs s Hs). split; [assumption | lia]. }
  pose proof (addSchemasForStructsToDocument_expanded _ _ _ _ Hround) as [Hc _].
  pose proof (addSchemasForStructsToDocument_progressed family rank Hdesc _ _ _ _
                (fun s Hs => proj1 (Hstructs s Hs)) Hround) as Hprogress.
  destruct Hprogress as [-> | [s [Hfam [Hin Hnin]]]].
  - rewrite skipn_all. rewrite expandRequiredSchemas_empty by reflexivity. discriminate.
  - pose proof (ungenerated_decreases universe g g1 (sd_Name s) Hc (Huniverse s Hfam) Hin Hnin)
      as Hlt.
    apply (IH (n - 1)); [lia | | lia].
    unfold ungenerated in *. simpl. lia.
Qed.

(** X21.  Without a cycle in the struct graph the worklist loop of
    [BuildDocument] ends, with a generator or with an error: when the
    structs of the file and the structs below them have ranks that descend
    along struct-typed fields and names from a finite list, a number of
    rounds above the length of that list is enough. *)
Theorem acyclic_worklist_ends (family : StructDescriptor -> Prop)
  (rank : StructDescriptor -> nat) (depth : nat) (universe : list string) (g : Generator) :
  descending family rank ->
  (forall s, In s GetStructs -> family s /\ rank s <= depth) ->
  (forall s, family s -> In (sd_Name s) universe) ->
  exists outcome,
    expandRequiredSchemas (List.length universe + depth + 2) g = Some outcome.
Proof.
  intros Hdesc Hstructs Huniverse.
  assert (Hends : expandRequiredSchemas (List.length universe + depth + 2) g <> None).
  { apply (worklist_ends family rank depth universe Hdesc Hstructs Huniverse
             (List.length universe)); [| lia].
    unfold ungenerated. apply filter_length_le. }
  destruct (expandRequiredSchemas (List.length universe + depth + 2) g) as [outcome |];
    [| congruence].
  now exists outcome.
Qed.

(** *** The parameters and the shape of an operation *)

Lemma annotated_nonempty (v : FieldDescriptor) (key ext : string) :
  annotated v key = Some ext -> (ext =? "") = false.
Proof.
  unfold annotated. destruct (annotation (fd_Annotations v) key) as [[| e values] |];
    try discriminate.
  destruct (e =? "") eqn:He; [discriminate |]. now intros [= <-].
Qed.

Lemma parameterBlock_spec (v : FieldDescriptor) (key place : string) (isPath : bool)
  (vars : ParamVars) (g : Generator) vars' g' :
  parameterBlock v key place isPath vars g = Ok (vars', g') ->
  match annotated v key with
  | Some ext =>
      paramName vars' = ext /\ paramIn vars' = place
      /\ paramDesc vars' = filterCommentString (fd_Comments v)
      /\ required vars' = (if isPath then true else required vars)
  | None => vars' = vars
  end.
Proof.
  unfold parameterBlock, annotated. intros Hrun.
  destruct (annotation (fd_Annotations v) key) as [[| ext values] |];
    try (now injection Hrun as <- <-).
  destruct (ext =? ""); simpl in Hrun; [now injection Hrun as <- <- |].
  bind_inv Hrun. bind_inv Hrun. injection Hrun as <- <-. simpl. auto.
Qed.

Lemma parameterVars_spec (v : FieldDescriptor) (g g1 g2 g3 g4 : Generator)
  (vars1 vars2 vars3 vars4 : ParamVars) :
  parameterBlock v ApiQuery "query" false (mkParamVars "" "" "" None false) g = Ok (vars1, g1) ->
  parameterBlock v ApiPath "path" true vars1 g1 = Ok (vars2, g2) ->
  parameterBlock v ApiCookie "cookie" false vars2 g2 = Ok (vars3, g3) ->
  parameterBlock v ApiHeader "header" false vars3 g3 = Ok (vars4, g4) ->
  match parameterPlace v with
  | Some (name, place) =>
      paramName vars4 = name /\ paramIn vars4 = place
      /\ paramDesc vars4 = filterCommentString (fd_Comments v)
      /\ (name =? "") = false /\ (place =? "") = false
  | None => paramName vars4 = ""
  end
  /\ required vars4 = match annotated v ApiPath with Some _ => true | None => false end.
Proof.
  intros H1 H2 H3 H4.
  apply parameterBlock_spec in H1, H2, H3, H4. unfold parameterPlace.
  destruct (annotated v ApiHeader) as [eh |] eqn:Hh;
    destruct (annotated v ApiCookie) as [ec |] eqn:Hc;
    destruct (annotated v ApiPath) as [ep |] eqn:Hp;
    destruct (annotated v ApiQuery) as [eq |] eqn:Hq;
    try apply annotated_nonempty in Hh;
    try apply annotated_nonempty in Hc;
    try apply annotated_nonempty in Hp;
    try apply annotated_nonempty in Hq;
    repeat match goal with
           | Hs : _ /\ _ |- _ => destruct Hs
           end;
    subst; cbn [paramName paramIn paramDesc required] in *;
    repeat split; try assumption; try reflexivity; try congruence.
Qed.

Lemma buildParameters_spec (fields : list FieldDescriptor) :
  forall parameters g parameters' g',
    buildParameters fields parameters g = Ok (parameters', g') ->
    exists made,
      parameters' = parameters ++ made
      /\ Forall2 parameterOf
           (filter (fun v => match parameterPlace v with Some _ => true | None => false end)
                   fields)
           made.
Proof.
  induction fields as [| v rest IH]; intros parameters g parameters' g' Hrun.
  - injection Hrun as <- <-. exists []. split; [now rewrite app_nil_r | constructor].
  - cbn [buildParameters] in Hrun.
    bind_inv Hrun. bind_inv Hrun. bind_inv Hrun. bind_inv Hrun.
    destruct (parameterVars_spec _ _ _ _ _ _ _ _ _ _ Hrun0 Hrun1 Hrun2 Hrun3)
      as [Hplace Hrequired].
    cbn [filter].
    destruct (parameterPlace v) as [[name place] |] eqn:Hpp.
    + destruct Hplace as [Hn [Hi [Hd [Hne Hpe]]]].
      rewrite Hn, Hi, Hne, Hpe in Hrun. cbn [negb andb] in Hrun.
      apply IH in Hrun. destruct Hrun as [made [-> Hmade]].
      rewrite <- app_assoc. eexists. split; [reflexivity |].
      constructor; [| exact Hmade].
      eexists. split; [reflexivity |]. cbn [par_Name par_In par_Required par_Description].
      repeat split; try assumption; try (now rewrite Hn, Hi).
    + rewrite Hplace in Hrun. cbn [negb andb String.eqb] in Hrun.
      apply IH in Hrun. exact Hrun.
Qed.

(** X22.  The parameters of an operation are those of the annotated fields of
    the input struct, one for each in the order of the fields; a field
    without [api.query], [api.path], [api.cookie] and [api.header] has none.
    Each is named and placed after the last of the four annotations its
    field has, in that order, and is required exactly when its field has
    [api.path], wherever it is placed. *)
Theorem parameters_follow_annotations
  (methodName description operationID tagName path host : string)
  (inputDesc outputDesc : StructDescriptor) (g : Generator) op path' g' :
  buildOperation methodName description operationID tagName path host inputDesc outputDesc g
  = Ok (op, path', g') ->
  Forall2 parameterOf
    (filter (fun v => match parameterPlace v with Some _ => true | None => false end)
            (sd_Fields inputDesc))
    (op_Parameters op).
Proof.
  unfold buildOperation. intros Hrun.
  bind_inv Hrun. bind_inv Hrun. bind_inv Hrun. injection Hrun as <- <- <-.
  cbn [op_Parameters].
  apply buildParameters_spec in Hrun0. destruct Hrun0 as [made [-> Hmade]]. exact Hmade.
Qed.

Lemma prefix_append (a b : string) : String.prefix a (a +++ b) = true.
Proof.
  induction a as [| ch a IH]; simpl; [now destruct b |].
  destruct (ascii_dec ch ch); [exact IH | congruence].
Qed.

(** X23.  An operation has no server without a host and otherwise one: the host
    when it starts with one of the two URL prefixes, else the host after the
    first prefix; so its address always starts with a prefix.  It has at most
    one response, under the status of success; the description of that
    response is the filtered comment of the output struct or, when that is
    empty, the default description, and neither its header list nor its
    content list is present and empty. *)
Theorem operation_servers_and_responses
  (methodName description operationID tagName path host : string)
  (inputDesc outputDesc : StructDescriptor) (g : Generator) op path' g' :
  buildOperation methodName description operationID tagName path host inputDesc outputDesc g
  = Ok (op, path', g') ->
  (op_Servers op = [] /\ host = ""
   \/ exists server,
        op_Servers op = [server] /\ host <> ""
        /\ (String.prefix URLDefaultPrefixHTTP server = true
            \/ String.prefix URLDefaultPrefixHTTPS server = true)
        /\ (server = host \/ server = URLDefaultPrefixHTTP +++ host))
  /\ (op_Responses op = None
      \/ exists response,
           op_Responses op = Some [(StatusOK, response)]
           /\ (rs_Description response = filterCommentString (sd_Comments outputDesc)
               /\ rs_Description response <> ""
               \/ rs_Description response = DefaultResponseDesc
                  /\ filterCommentString (sd_Comments outputDesc) = "")
           /\ rs_Headers response <> Some []
           /\ rs_Content response <> Some []).
Proof.
  unfold buildOperation. intros Hrun.
  bind_inv Hrun. bind_inv Hrun. bind_inv Hrun. injection Hrun as <- <- <-.
  cbn [op_Servers op_Responses]. split.
  - destruct (host =? "") eqn:Hhost; cbn [negb].
    + left. split; [reflexivity | now apply String.eqb_eq].
    + right. apply String.eqb_neq in Hhost.
      destruct (String.prefix URLDefaultPrefixHTTP host) eqn:H1; cbn [negb andb].
      * exists host. auto.
      * destruct (String.prefix URLDefaultPrefixHTTPS host) eqn:H2; cbn [negb andb].
        -- exists host. auto.
        -- exists (URLDefaultPrefixHTTP +++ host). split; [reflexivity |].
           split; [assumption |]. split; [| now right].
           left. apply prefix_append.
  - match goal with
    | Hr : getResponseForStruct _ _ = Ok (?n, ?hd, ?ct, _) |- _ =>
        rename n into status; rename hd into headers; rename ct into content;
        rename Hr into Hresp
    end.
    assert (Hstatus : status = StatusOK).
    { unfold getResponseForStruct in Hresp.
      bind_inv Hresp. bind_inv Hresp. bind_inv Hresp.
      repeat match type of Hresp with
             | context [if ?b then _ else _] => destruct b
             end; now injection Hresp as <- _ _ _. }
    subst status.
    assert (Hdesc : forall desc,
               desc = (if filterCommentString (sd_Comments outputDesc) =? ""
                       then DefaultResponseDesc
                       else filterCommentString (sd_Comments outputDesc)) ->
               desc = filterCommentString (sd_Comments outputDesc) /\ desc <> ""
               \/ desc = DefaultResponseDesc
                  /\ filterCommentString (sd_Comments outputDesc) = "").
    { intros desc ->.
      destruct (filterCommentString (sd_Comments outputDesc) =? "") eqn:Hd.
      - right. split; [reflexivity | now apply String.eqb_eq].
      - left. split; [reflexivity | now apply String.eqb_neq]. }
    destruct headers as [| h hs]; destruct content as [| m ms];
      cbn [List.length Nat.eqb negb];
      [now left | right | right | right];
      eexists; (split; [reflexivity |]); cbn [rs_Description rs_Headers rs_Content];
      (split; [now apply Hdesc |]); split; discriminate.
Qed.

End GeneratorInvariants.

End RegistryFacts.

(** ** The servers of the document *)

Module ServersFacts.

Import ThriftGen Servers.

Section HoistingFacts.

Variable AppendUnique : list string -> string -> list string.

Hypothesis AppendUnique_spec :
  forall slice item,
    AppendUnique slice item = if Contains slice item then slice else slice ++ [item].

Variable server : string.

Lemma AppendUnique_atMost (l : list string) :
  atMost server l -> AppendUnique l server = [server].
Proof.
  intros [-> | ->]; rewrite AppendUnique_spec; simpl; [reflexivity |].
  now rewrite String.eqb_refl.
Qed.

Lemma collect_atMost (operation : option Operation) (lists : list string * list string) :
  (forall op, operation = Some op -> atMost server (op_Servers op)) ->
  atMost server (fst lists) -> atMost server (snd lists) ->
  let lists' := collect AppendUnique operation lists in
  atMost server (fst lists') /\ atMost server (snd lists')
  /\ (fst lists = [server] -> fst lists' = [server])
  /\ (snd lists = [server] -> snd lists' = [server])
  /\ (forall op, operation = Some op -> op_Servers op = [server] ->
                 fst lists' = [server] /\ snd lists' = [server]).
Proof.
  intros Hop H1 H2. unfold collect. destruct operation as [op |].
  - destruct (Hop op eq_refl) as [Hs | Hs]; rewrite Hs; simpl.
    + split; [assumption |]. split; [assumption |]. split; [auto |]. split; [auto |].
      intros op' [= <-]. congruence.
    + rewrite !AppendUnique_atMost by assumption.
      split; [now right |]. split; [now right |]. split; [auto |]. split; [auto |].
      intros op' _ _. now split.
  - simpl. split; [assumption |]. split; [assumption |]. split; [auto |]. split; [auto |].
    discriminate.
Qed.

Lemma hoistPath_spec (item : PathItem) (allServers : list string) :
  (forall op, In op (hoisted item) -> atMost server (op_Servers op)) ->
  atMost server allServers ->
  let result := hoistPath AppendUnique item allServers in
  atMost server (snd result)
  /\ (allServers = [server] -> snd result = [server])
  /\ ((exists op, In op (hoisted item) /\ op_Servers op = [server]) -> snd result = [server])
  /\ (forall op, In op (hoisted (fst result)) -> op_Servers op = []).
Proof.
  intros Hops Hall.
  assert (Hslot : forall slot, In slot [pi_Get item; pi_Post item; pi_Put item;
                                        pi_Delete item; pi_Patch item] ->
                               forall op, slot = Some op -> atMost server (op_Servers op)).
  { intros slot Hin op ->. apply Hops. unfold hoisted. apply in_flat_map.
    exists (Some op). split; [assumption | now left]. }
  unfold hoistPath.
  pose proof (collect_atMost (pi_Get item) ([], allServers)
                (Hslot _ (or_introl eq_refl)) (or_introl eq_refl) Hall) as S1.
  cbv zeta in S1. destruct S1 as [A1 [B1 [_ [D1 E1]]]].
  pose proof (collect_atMost (pi_Post item) _
                (Hslot _ (or_intror (or_introl eq_refl))) A1 B1) as S2.
  cbv zeta in S2. destruct S2 as [A2 [B2 [C2 [D2 E2]]]].
  pose proof (collect_atMost (pi_Put item) _
                (Hslot _ (or_intror (or_intror (or_introl eq_refl)))) A2 B2) as S3.
  cbv zeta in S3. destruct S3 as [A3 [B3 [C3 [D3 E3]]]].
  pose proof (collect_atMost (pi_Delete item) _
                (Hslot _ (or_intror (or_intror (or_intror (or_introl eq_refl))))) A3 B3) as S4.
  cbv zeta in S4. destruct S4 as [A4 [B4 [C4 [D4 E4]]]].
  pose proof (collect_atMost (pi_Patch item) _
                (Hslot _ (or_intror (or_intror (or_intror (or_intror (or_introl eq_refl))))))
                A4 B4) as S5.
  cbv zeta in S5. destruct S5 as [A5 [B5 [C5 [D5 E5]]]].
  set (lists := collect AppendUnique (pi_Patch item)
                  (collect AppendUnique (pi_Delete item)
                     (collect AppendUnique (pi_Put item)
                        (collect AppendUnique (pi_Post item)
                           (collect AppendUnique (pi_Get item) ([], allServers)))))) in *.
  assert (Hfound : forall op, In op (hoisted item) -> op_Servers op = [server] ->
                              fst lists = [server] /\ snd lists = [server]).
  { intros op Hin Hs. unfold hoisted in Hin. apply in_flat_map in Hin.
    destruct Hin as [slot [Hslot' Hop]].
    destruct slot as [op' |]; [| destruct Hop]. destruct Hop as [-> | []].
    destruct Hslot' as [Hg | [Hp | [Hu | [Hd | [Ha | []]]]]].
    - destruct (E1 op Hg Hs) as [F G]. split; auto.
    - destruct (E2 op Hp Hs) as [F G]. split; auto.
    - destruct (E3 op Hu Hs) as [F G]. split; auto.
    - destruct (E4 op Hd Hs) as [F G]. split; auto.
    - exact (E5 op Ha Hs). }
  assert (Hsnd : snd (match fst lists with
                      | [s] =>
                          (mkPathItem (withoutServers (pi_Get item))
                             (withoutServers (pi_Post item)) (withoutServers (pi_Put item))
                             (withoutServers (pi_Delete item))
                             (withoutServers (pi_Patch item)) (pi_Options item)
                             (pi_Head item) [s], snd lists)
                      | _ => (item, snd lists)
                      end) = snd lists).
  { destruct (fst lists) as [| s [| s' l]]; reflexivity. }
  cbv zeta. rewrite Hsnd. split; [assumption |]. split; [| split].
  - intros Hone. apply D5, D4, D3, D2, D1. exact Hone.
  - intros [op [Hin Hs]]. exact (proj2 (Hfound op Hin Hs)).
  - intros op Hin. destruct A5 as [Hnone | Hone]; rewrite ?Hnone, ?Hone in Hin; simpl in Hin.
    + destruct (Hops op Hin) as [Hs | Hs]; [assumption |].
      destruct (Hfound op Hin Hs) as [F _]. congruence.
    + unfold hoisted in Hin. simpl in Hin.
      repeat match type of Hin with
             | context [withoutServers ?slot] => destruct slot; simpl in Hin
             end;
        repeat match type of Hin with
               | _ \/ _ => destruct Hin as [<- | Hin]; [reflexivity |]
               end; destruct Hin.
Qed.

Lemma hoistPaths_spec (paths : list (string * PathItem)) :
  forall allServers,
    (forall name item op, In (name, item) paths -> In op (hoisted item) ->
                          atMost server (op_Servers op)) ->
    atMost server allServers ->
    let result := hoistPaths AppendUnique paths allServers in
    atMost server (snd result)
    /\ (allServers = [server] -> snd result = [server])
    /\ ((exists name item op, In (name, item) paths /\ In op (hoisted item)
                              /\ op_Servers op = [server]) -> snd result = [server])
    /\ map fst (fst result) = map fst paths
    /\ (forall name item op, In (name, item) (fst result) -> In op (hoisted item) ->
                             op_Servers op = []).
Proof.
  induction paths as [| [name item] rest IH]; intros allServers Hops Hall; cbv zeta.
  - simpl. split; [assumption |]. split; [auto |]. split.
    + intros [n [i [op [[] _]]]].
    + split; [reflexivity | intros n i op []].
  - cbn [hoistPaths].
    pose proof (hoistPath_spec item allServers
                  (fun op Hin => Hops name item op (or_introl eq_refl) Hin) Hall) as Hitem.
    cbv zeta in Hitem. destruct (hoistPath AppendUnique item allServers) as [item' all1].
    cbn [fst snd] in Hitem. destruct Hitem as [A1 [B1 [C1 D1]]].
    pose proof (IH all1 (fun n i op Hin => Hops n i op (or_intror Hin)) A1) as Hrest.
    cbv zeta in Hrest. destruct (hoistPaths AppendUnique rest all1) as [rest' all2].
    cbn [fst snd] in *. destruct Hrest as [A2 [B2 [C2 [M2 D2]]]].
    split; [assumption |]. split; [auto |]. split; [| split].
    + intros [n [i [op [[Heq | Hin] [Hop Hs]]]]].
      * injection Heq as <- <-. apply B2, C1. now exists op.
      * apply C2. now exists n, i, op.
    + simpl. now rewrite M2.
    + intros n i op [Heq | Hin] Hop.
      * injection Heq as <- <-. now apply D1.
      * eapply D2; eassumption.
Qed.

(** X24.  When the operations of the paths have at most one server each, the
    same for all that have one, the server ends up on the document alone:
    the server list of the document is that one server, no path keeps a
    server list, and no GET, POST, PUT, DELETE or PATCH operation does. *)
Theorem shared_server_hoisted_to_document (d : Document) :
  (forall name item op, In (name, item) (d_Paths d) -> In op (hoisted item) ->
                        op_Servers op = [] \/ op_Servers op = [server]) ->
  (exists name item op, In (name, item) (d_Paths d) /\ In op (hoisted item)
                        /\ op_Servers op = [server]) ->
  d_Servers (hoistServers AppendUnique d) = [server]
  /\ map fst (d_Paths (hoistServers AppendUnique d)) = map fst (d_Paths d)
  /\ (forall name item, In (name, item) (d_Paths (hoistServers AppendUnique d)) ->
        pi_Servers item = []
        /\ forall op, In op (hoisted item) -> op_Servers op = []).
Proof.
  intros Hops Hsome.
  pose proof (hoistPaths_spec (d_Paths d) [] Hops (or_introl eq_refl)) as Hspec.
  cbv zeta in Hspec. unfold hoistServers.
  destruct (hoistPaths AppendUnique (d_Paths d) []) as [paths allServers].
  cbn [fst snd] in Hspec. destruct Hspec as [_ [_ [Hall [Hnames Hcleared]]]].
  rewrite (Hall Hsome). cbn [List.length Nat.eqb Nat.ltb Nat.leb d_Servers d_Paths].
  split; [reflexivity |]. split.
  - rewrite map_map. simpl. exact Hnames.
  - intros name item Hin. apply in_map_iff in Hin.
    destruct Hin as [[name' item'] [Heq Hin]]. simpl in Heq. injection Heq as <- <-.
    split; [reflexivity |]. intros op Hop. eapply Hcleared; eassumption.
Qed.

End HoistingFacts.

End ServersFacts.

(** * The theorems at concrete inputs *)

Lemma addMessageToProto_unique_names_union_witness :
  NoDup (map m_Name (Messages (ProtoFile_ (addMessageToProto petById (NewProtoConverter "demo")))))
  /\ NoDup (map m_Name
              (Messages (ProtoFile_ (addMessageToProto petByTag
                                       (addMessageToProto petById (NewProtoConverter "demo")))))).
Proof.
  assert (Hnd : NoDup (map m_Name
                         (Messages (ProtoFile_ (addMessageToProto petById
                                                  (NewProtoConverter "demo")))))).
  { simpl. constructor; [intros [] | constructor]. }
  split; [exact Hnd |].
  exact (proj1 (addMessageToProto_unique_names_union petByTag
                  (addMessageToProto petById (NewProtoConverter "demo")) Hnd)).
Defined.

Lemma empty_request_imports_once_witness :
  RequestBody pingOperation = None
  /\ Parameters pingOperation = []
  /\ forall c' : ProtoConverter,
       Convert pingSpec (NewProtoConverter "demo") = Ok c' ->
       count_occ string_dec (Imports (ProtoFile_ c')) EmptyProtoFile = 1.
Proof.
  split; [reflexivity |]. split; [reflexivity |].
  intros c' Hrun.
  apply (proj2 (empty_request_imports_once pingOperation eq_refl eq_refl)
               pingSpec "demo" c' "/ping" [("GET", pingOperation)] "GET").
  - simpl. now left.
  - simpl. now left.
  - exact Hrun.
Defined.

Example pingSpec_imports :
  match Convert pingSpec (NewProtoConverter "demo") with
  | Ok c' => Imports (ProtoFile_ c') = ["google.protobuf.empty"; "api.proto"]
  | _ => False
  end.
Proof. reflexivity. Qed.


Example brokenSpec_aborts :
  Convert brokenSpec (NewProtoConverter "demo")
  = Err "error converting components to proto messages: error converting schema Broken: schema type is required".
Proof. reflexivity. Qed.

Lemma object_property_message_field_witness :
  Type_ petSchema = Some ["object"]
  /\ reachesObjectBranch ["object"] = true
  /\ exists message,
       ConvertSchemaToProtoFieldOrMessage (Some (mkSchemaRef "" (Some petSchema))) "Pet" None
         (NewProtoConverter "demo")
       = Ok (IsMessage message, None, NewProtoConverter "demo")
       /\ In (newField "ownerField" "owner") (m_Fields message).
Proof.
  split; [reflexivity |]. split; [reflexivity |].
  destruct (object_property_message_field petSchema ["object"] "Pet" None
              (NewProtoConverter "demo") _ _ _ eq_refl eq_refl eq_refl)
    as [message [Hr [_ Hprops]]].
  exists message. split.
  - injection Hr as <-. reflexivity.
  - apply (Hprops "owner" (objectSchema [("name", stringSchema)])
                  (mkMessage "owner" [newField "name" "string"] [] [] [])
                  None (NewProtoConverter "demo") None (NewProtoConverter "demo")).
    + simpl. now left.
    + reflexivity.
Defined.

(** C3 as stated fails on a request body that is a reference: the name at
    the end of the reference is returned at once, the parameter is not
    converted and no message is built. *)
Lemma request_body_reference_counterexample :
  RequestBody refBodyOperation <> None
  /\ Parameters refBodyOperation <> []
  /\ generateRequestMessage refBodyOperation (NewProtoConverter "demo")
     = Ok ("PetBody", NewProtoConverter "demo")
  /\ "PetBody" <> OperationID refBodyOperation +++ "Request"
  /\ "PetBody" <> ""
  /\ Messages (ProtoFile_ (NewProtoConverter "demo")) = [].
Proof.
  repeat split; try discriminate; reflexivity.
Qed.

Lemma request_message_assembled_witness :
  (RequestBody searchOperation <> None \/ Parameters searchOperation <> [])
  /\ (forall body, RequestBody searchOperation = Some body -> rb_Ref body = "")
  /\ map fst (requestSchemas searchOperation) = ["searchPetsRequestJson"; "tag"; "tag"; "limit"]
  /\ exists c' results imports,
       generateRequestMessage searchOperation (NewProtoConverter "demo")
       = Ok ("searchPetsRequest", c')
       /\ Forall2 (fun entry result => convertsTo (snd entry) (fst entry) result)
                  (requestSchemas searchOperation) results
       /\ firstOfEachName f_Name (fieldsOf results)
          = [mkField "searchPetsRequestJson" "searchPetsRequestJsonItem" true [];
             newField "tag" "string"; newField "limit" "int64"]
       /\ nestedOf [] results
          = [mkMessage "searchPetsRequestJsonItem" [newField "name" "string"] [] [] []]
       /\ c' = addMessageToProto
                 (mkMessage "searchPetsRequest" (firstOfEachName f_Name (fieldsOf results))
                            (nestedOf [] results) [] [])
                 (addImports imports (NewProtoConverter "demo")).
Proof.
  assert (H1 : RequestBody searchOperation <> None \/ Parameters searchOperation <> [])
    by (left; discriminate).
  assert (H2 : forall body, RequestBody searchOperation = Some body -> rb_Ref body = "")
    by (intros body Hb; injection Hb as <-; reflexivity).
  split; [exact H1 |]. split; [exact H2 |]. split; [reflexivity |].
  assert (Hrun : exists c', generateRequestMessage searchOperation (NewProtoConverter "demo")
                            = Ok ("searchPetsRequest", c'))
    by (vm_compute; eexists; reflexivity).
  destruct Hrun as [c' Hrun].
  destruct (proj1 (proj2 (request_message_assembled searchOperation
                            (NewProtoConverter "demo") H1))
              H2 "searchPetsRequest" c' Hrun)
    as [results [imports [Hall Hmessage]]].
  exists c', results, imports. split; [exact Hrun |]. split; [exact Hall |].
  change (requestSchemas searchOperation)
    with [("searchPetsRequestJson", petListRef); ("tag", stringSchema);
          ("tag", integerSchema); ("limit", integerSchema)] in Hall.
  inversion Hall as [| e1 r1 l1 rs1 Hc1 Hall1]; subst; clear Hall.
  inversion Hall1 as [| e2 r2 l2 rs2 Hc2 Hall2]; subst; clear Hall1.
  inversion Hall2 as [| e3 r3 l3 rs3 Hc3 Hall3]; subst; clear Hall2.
  inversion Hall3 as [| e4 r4 l4 rs4 Hc4 Hall4]; subst; clear Hall3.
  inversion Hall4; subst; clear Hall4.
  cbn [fst snd] in Hc1, Hc2, Hc3, Hc4.
  apply (convertsTo_determined petListRef "searchPetsRequestJson" r1
           (IsField (mkField "searchPetsRequestJson" "searchPetsRequestJsonItem" true []))
           [mkMessage "searchPetsRequestJsonItem" [newField "name" "string"] [] [] []]
           (NewProtoConverter "demo") (NewProtoConverter "demo") eq_refl) in Hc1.
  apply (convertsTo_determined stringSchema "tag" r2 (IsField (newField "tag" "string")) []
           (NewProtoConverter "demo") (NewProtoConverter "demo") eq_refl) in Hc2.
  apply (convertsTo_determined integerSchema "tag" r3 (IsField (newField "tag" "int64")) []
           (NewProtoConverter "demo") (NewProtoConverter "demo") eq_refl) in Hc3.
  apply (convertsTo_determined integerSchema "limit" r4 (IsField (newField "limit" "int64")) []
           (NewProtoConverter "demo") (NewProtoConverter "demo") eq_refl) in Hc4.
  subst r1 r2 r3 r4.
  split; [reflexivity |]. split; [reflexivity |].
  cbv zeta in Hmessage. destruct Hmessage as [Hfull _].
  destruct Hfull as [_ Hc']; [left; discriminate |]. exact Hc'.
Defined.

Example tagOperation_request :
  generateRequestMessage tagOperation (NewProtoConverter "demo")
  = Ok ("findPetsRequest",
        addMessageToProto (mkMessage "findPetsRequest" [newField "tag" "string"] [] [] [])
          (NewProtoConverter "demo")).
Proof. reflexivity. Qed.

(** C2 at an operation with a response with content and a response
    without.  Ranging over the two in one order, the wrapper is dropped for
    [google.protobuf.empty] although the response "200" has content; in the
    other order, the wrapper is kept with a field for "200" and none for
    "204". *)
Theorem response_wrapper_stops_at_empty_response :
  Permutation [("204", noContentResponse); ("200", okResponse)]
              [("200", okResponse); ("204", noContentResponse)]
  /\ contentLess okResponse = false
  /\ generateResponseMessage getPetEmptyFirst (NewProtoConverter "demo")
     = Ok (EmptyProtoFile, AddProtoImport EmptyProtoFile (NewProtoConverter "demo"))
  /\ generateResponseMessage getPetEmptyLast (NewProtoConverter "demo")
     = Ok ("getPet",
           addMessageToProto
             (mkMessage "getPet" [newField "response_200" "getPetResponse_200"] [] [] [])
             (addMessageToProto
                (mkMessage "getPetResponse_200" [newField "application/json" "string"] [] [] [])
                (NewProtoConverter "demo"))).
Proof.
  split; [apply perm_swap |]. repeat split; reflexivity.
Qed.

(** C6 at a document with one object schema that has two object-typed
    properties.  Ranging over the two properties in one order and in the
    other gives two different texts: the nested messages are written in the
    order they were met. *)
Theorem proto_text_depends_on_range_order :
  Permutation [("a", objectSchema [("x", stringSchema)]); ("b", objectSchema [("x", stringSchema)])]
              [("b", objectSchema [("x", stringSchema)]); ("a", objectSchema [("x", stringSchema)])]
  /\ match Convert (pairSpec "a" "b") (NewProtoConverter "demo"),
           Convert (pairSpec "b" "a") (NewProtoConverter "demo") with
     | Ok first, Ok second =>
         ConvertToProtoFile (ProtoFile_ first) <> ConvertToProtoFile (ProtoFile_ second)
     | _, _ => False
     end.
Proof.
  split; [apply perm_swap |].
  vm_compute. intros Heq. discriminate Heq.
Qed.

(** C7 as stated fails on the imports: they are written in the order of the
    import list, here "google.protobuf.empty" before "api.proto", the order
    in which a conversion registers the two. *)
Lemma imports_not_sorted_counterexample :
  ConvertToProtoFile unsortedImports = importsText "google.protobuf.empty" "api.proto"
  /\ importsText "google.protobuf.empty" "api.proto"
     <> importsText "api.proto" "google.protobuf.empty"
  /\ String.ltb "api.proto" "google.protobuf.empty" = true.
Proof.
  split; [reflexivity |]. split; [| reflexivity].
  vm_compute. intros Heq. discriminate Heq.
Qed.

Module ThriftExamples.

Import ThriftGen ThriftFixtures.


Lemma request_body_by_method_witness :
  exists op path' g',
    buildOperation (H := formFile) "DELETE" "" "Forms_Drop" "Forms" "/form/:id" ""
      structForm structEmpty (mkGenerator [] [] [])
    = Ok (op, path', g')
    /\ path' = "/form/{id}"
    /\ op_RequestBody op = None.
Proof.
  do 3 eexists. split; [reflexivity |]. split; [reflexivity |].
  apply (proj1 (ThriftGenFacts.request_body_by_method (H := formFile)
                  "DELETE" "" "Forms_Drop" "Forms" "/form/:id" ""
                  structForm structEmpty (mkGenerator [] [] []) _ _ _ eq_refl)).
  right. right. reflexivity.
Defined.

Example post_request_body :
  match buildOperation (H := formFile) "POST" "" "Forms_Send" "Forms" "/form" ""
          structForm structEmpty (mkGenerator [] [] []) with
  | Ok (op, _, _) =>
      option_map (fun body => map fst (rb_Content body)) (op_RequestBody op)
      = Some ["application/json"; "multipart/form-data"; "application/x-www-form-urlencoded"]
  | _ => False
  end.
Proof. reflexivity. Qed.

(** A struct graph without cycle is expanded: both schemas come out, the
    outer one with a reference to the inner one. *)
Example nested_structs_expand :
  match expandRequiredSchemas (H := nestedFile) 4 (requiring "Outer") with
  | Some (Ok g) =>
      map fst (componentSchemas g) = ["Outer"; "Inner"]
      /\ requiredSchemas g = []
  | _ => False
  end.
Proof. vm_compute. split; reflexivity. Qed.

Lemma mutual_structs_one (fuel : nat) :
  forall g,
    addSchemasForStructsToDocument (H := mutualFile) fuel [structA] g = None
    /\ addSchemasForStructsToDocument (H := mutualFile) fuel [structB] g = None.
Proof.
  induction fuel as [| fuel IH]; intros g; [split; reflexivity |].
  cbn [addSchemasForStructsToDocument eachStruct].
  change (nestedStructs (H := mutualFile) structA) with [structB].
  change (nestedStructs (H := mutualFile) structB) with [structA].
  cbn [List.length Nat.ltb Nat.leb].
  destruct (IH g) as [HA HB]. rewrite HA, HB. split; reflexivity.
Qed.

(** C1 at [struct A { 1: B b }  struct B { 1: A a }], with [A] required by
    a request.  Whatever depth of calls it is given, neither the expansion
    of the structs of the file nor the worklist loop of [BuildDocument]
    returns: the call for [A] calls the function on [B] before anything is
    looked up in the registry of generated schemas, and the call for [B]
    calls it on [A]. *)
Theorem mutual_structs_never_return :
  nestedStructs (H := mutualFile) structA = [structB]
  /\ nestedStructs (H := mutualFile) structB = [structA]
  /\ (forall fuel g,
        addSchemasForStructsToDocument (H := mutualFile) fuel [structA; structB] g = None)
  /\ (forall fuel, expandRequiredSchemas (H := mutualFile) fuel (requiring "A") = None).
Proof.
  split; [reflexivity |]. split; [reflexivity |].
  assert (Hall : forall fuel g,
             addSchemasForStructsToDocument (H := mutualFile) fuel [structA; structB] g = None).
  { intros [| fuel] g; [reflexivity |].
    cbn [addSchemasForStructsToDocument eachStruct].
    change (nestedStructs (H := mutualFile) structA) with [structB].
    cbn [List.length Nat.ltb Nat.leb].
    now rewrite (proj2 (mutual_structs_one fuel g)). }
  split; [exact Hall |].
  intros [| fuel]; [reflexivity |].
  cbn [expandRequiredSchemas requiring requiredSchemas List.length Nat.ltb Nat.leb].
  change (GetStructs (Reflection := mutualFile)) with [structA; structB].
  now rewrite Hall.
Qed.

(** The same in general: the structs on a cycle are closed under taking the
    structs of struct-typed fields, and no list with one of them is ever
    expanded to the end. *)
Example mutual_structs_closed :
  closedUnderNesting (H := mutualFile)
    (fun s => s = structA \/ s = structB).
Proof.
  intros s [-> | ->].
  - exists structB. split; [now left | now right].
  - exists structA. split; [now left | now left].
Qed.

End ThriftExamples.

(** * The further properties at concrete inputs *)

Lemma ExtractMessageNameFromRef_last_segment_witness :
  hasChar "/" "Pet" = false
  /\ ExtractMessageNameFromRef "#/components/schemas/Pet" = "Pet".
Proof.
  split; [reflexivity |].
  exact (proj1 (ExtractMessageNameFromRef_last_segment "Pet" eq_refl) "#/components/schemas").
Defined.

Lemma path_parameter_round_trip_witness :
  ConvertPath "/pets/{petId}/photos" = "/pets/:petId/photos"
  /\ ThriftGen.bracePathFrom "/pets/:petId/photos" None = "/pets/{petId}/photos".
Proof.
  assert (Hwf : wellFormed [Lit "/pets/"; Par "petId"; Lit "/photos"]).
  { simpl. repeat split; try reflexivity. discriminate. }
  destruct (path_parameter_round_trip _ Hwf) as [Hto [Hback _]].
  split; [exact Hto | exact Hback].
Defined.

Lemma conversion_outcome_independent_of_state_witness :
  ConvertSchemaToProtoFieldOrMessage None "born" None (NewProtoConverter "demo") = Panic
  /\ exists parent' c',
       ConvertSchemaToProtoFieldOrMessage (Some dateSchema) "born" (Some (newMessage "Pet"))
         (NewProtoConverter "other")
       = Ok (IsField (newField "born" "google.protobuf.Timestamp"), parent', c').
Proof.
  destruct (conversion_outcome_independent_of_state (Some dateSchema) "born"
              None (Some (newMessage "Pet")) (NewProtoConverter "demo")
              (NewProtoConverter "other")) as [Hnil [_ [_ Hok]]].
  split; [exact Hnil |].
  exact (Hok (IsField (newField "born" "google.protobuf.Timestamp")) None
             (AddProtoImport timestampProtoFile (NewProtoConverter "demo")) eq_refl).
Defined.

Lemma conversion_touches_imports_and_parent_only_witness :
  exists r c',
    ConvertSchemaToProtoFieldOrMessage (Some dateSchema) "born" None (NewProtoConverter "demo")
    = Ok (r, None, c')
    /\ Imports (ProtoFile_ c') = [timestampProtoFile]
    /\ set_Imports (NewProtoConverter "demo") (Imports (ProtoFile_ c')) = c'.
Proof.
  eexists _, _. split; [reflexivity |]. split; [reflexivity |].
  exact (proj1 (conversion_touches_imports_and_parent_only dateSchema "born" None
                  (NewProtoConverter "demo") _ _ _ eq_refl)).
Defined.

Lemma array_of_messages_needs_a_parent_witness :
  exists c',
    convertComponentsToProtoMessages
      (Some (mkComponents [("pets", mkSchemaRef "" (Some petListSchema))]))
      (NewProtoConverter "demo")
    = Ok c'
    /\ Messages (ProtoFile_ c')
       = [mkMessage "pets" [mkField "pets" "petsItem" true []] [] [] []].
Proof.
  eexists. split; [reflexivity |].
  exact (proj2 (proj2 (array_of_messages_needs_a_parent petListSchema ["array"]
                         (objectSchema [("name", stringSchema)]) "pets"
                         (mkMessage "petsItem" [newField "name" "string"] [] [] [])
                         None (NewProtoConverter "demo") None (NewProtoConverter "demo")
                         eq_refl eq_refl eq_refl eq_refl))
               (NewProtoConverter "demo") _ eq_refl).
Defined.

Lemma reference_property_named_after_target_witness :
  exists message,
    ConvertSchemaToProtoFieldOrMessage (Some (mkSchemaRef "" (Some ownedSchema))) "Pet" None
      (NewProtoConverter "demo")
    = Ok (IsMessage message, None, NewProtoConverter "demo")
    /\ In (newField "User" "User") (m_Fields message).
Proof.
  destruct (reference_property_named_after_target ownedSchema ["object"] "Pet" None
              (NewProtoConverter "demo") _ _ _ eq_refl eq_refl eq_refl)
    as [message [Hr Hfields]].
  exists message. split.
  - injection Hr as <-. reflexivity.
  - apply (Hfields "owner" "#/components/schemas/User" None).
    + simpl. now left.
    + discriminate.
Defined.

Lemma Convert_keeps_message_names_unique_witness :
  exists c',
    Convert shopSpec (NewProtoConverter "shop") = Ok c'
    /\ map m_Name (Messages (ProtoFile_ c'))
       = ["Pet"; "listPetsRequest"; "listPetsResponse_200"; "createPetRequest";
          "createPetResponse_200"; "createPet"]
    /\ NoDup (map m_Name (Messages (ProtoFile_ c'))).
Proof.
  eexists. split; [reflexivity |]. split; [reflexivity |].
  exact (Convert_keeps_message_names_unique shopSpec (NewProtoConverter "shop") _
           (NoDup_nil _) eq_refl).
Defined.

Lemma Convert_imports_witness :
  exists c',
    Convert shopSpec (NewProtoConverter "shop") = Ok c'
    /\ Imports (ProtoFile_ c')
       = ["google/protobuf/timestamp.proto"; "google.protobuf.empty"; "api.proto"]
    /\ ~ In openapiProtoFile (Imports (ProtoFile_ c')).
Proof.
  eexists. split; [reflexivity |]. split; [reflexivity |].
  exact (proj1 (proj2 (proj2 (Convert_imports shopSpec "shop" _ eq_refl)))).
Defined.

Lemma Convert_services_well_formed_witness :
  exists c',
    Convert shopSpec (NewProtoConverter "shop") = Ok c'
    /\ map svc_Name (Services (ProtoFile_ c')) = ["pets"; "DefaultService"]
    /\ servicesWellFormed (Services (ProtoFile_ c')).
Proof.
  eexists. split; [reflexivity |]. split; [reflexivity |].
  exact (Convert_services_well_formed shopSpec "shop" _ eq_refl).
Defined.

Lemma Convert_covers_every_operation_witness :
  exists c' m,
    Convert shopSpec (NewProtoConverter "shop") = Ok c'
    /\ meth_Name m = "GETMethod"
    /\ serviceHas (Services (ProtoFile_ c')) "DefaultService" m.
Proof.
  eexists.
  destruct (Convert_covers_every_operation shopSpec "shop" _ "/health" [("GET", untagged)]
              "GET" untagged eq_refl)
    as [m [Hname Hhas]].
  - simpl. right. now left.
  - simpl. now left.
  - exists m. split; [reflexivity |]. split; [exact Hname | exact Hhas].
Defined.

Lemma request_message_field_names_distinct_witness :
  exists c',
    generateRequestMessage tagOperation (NewProtoConverter "demo") = Ok ("findPetsRequest", c')
    /\ exists message c2,
         m_Name message = "findPetsRequest"
         /\ NoDup (map f_Name (m_Fields message))
         /\ c' = addMessageToProto message c2.
Proof.
  eexists. split; [reflexivity |].
  destruct (request_message_field_names_distinct tagOperation (NewProtoConverter "demo") _ _
              eq_refl)
    as [Hsame | [message [c2 [_ [Hname [Hnd [_ Hc']]]]]]].
  - discriminate Hsame.
  - exists message, c2. split; [exact Hname |]. split; [exact Hnd | exact Hc'].
Defined.

Lemma response_wrapper_fields_witness :
  wrapped [("200", okResponse); ("204", noContentResponse)] = [("200", okResponse)]
  /\ exists c' wrapperMessage c1,
       generateResponseMessage getPetEmptyLast (NewProtoConverter "demo") = Ok ("getPet", c')
       /\ c' = addMessageToProto wrapperMessage c1
       /\ map f_Name (m_Fields wrapperMessage) = ["response_200"].
Proof.
  split; [reflexivity |]. eexists.
  destruct (response_wrapper_fields getPetEmptyLast (NewProtoConverter "demo")
              [("200", okResponse); ("204", noContentResponse)] _ _
              eq_refl ltac:(discriminate) eq_refl)
    as [_ [wrapperMessage [c1 [Hc' [_ Hfields]]]]].
  exists wrapperMessage, c1. split; [reflexivity |]. split; [exact Hc' | exact Hfields].
Defined.

Lemma proto_text_independent_of_list_order_witness :
  ConvertToProtoFile (shopFile [tagged; petById] [petService; healthService])
  = ConvertToProtoFile (shopFile [petById; tagged] [healthService; petService]).
Proof.
  apply proto_text_independent_of_list_order; try reflexivity.
  - apply perm_swap.
  - apply perm_swap.
  - simpl. constructor; [intros [H | []]; discriminate H |].
    constructor; [intros [] | constructor].
  - simpl. constructor; [intros [H | []]; discriminate H |].
    constructor; [intros [] | constructor].
Defined.

Lemma field_numbers_independent_of_field_order_witness :
  encodeMessage (mkMessage "Pet" [newField "name" "string"; newField "id" "int64"] [] [] []) 0
  = encodeMessage petById 0.
Proof.
  apply field_numbers_independent_of_field_order; try reflexivity.
  - apply perm_swap.
  - simpl. constructor; [intros [H | []]; discriminate H |].
    constructor; [intros [] | constructor].
Defined.

Module RegistryExamples.

Import ThriftGen ThriftFixtures Registry RegistryFixtures.

Lemma buildOperation_continues_witness :
  exists op path' g',
    buildOperation (H := queryFile) "POST" "" "Shop_Find" "Shop" "/find/:id" "example.com"
      structQuery structReply (mkGenerator [] [] [])
    = Ok (op, path', g')
    /\ generatedSchemas g' = ["ReplyBody"]
    /\ requiredSchemas g' = ["Inner"]
    /\ continues (mkGenerator [] [] []) g'.
Proof.
  eexists _, _, _. split; [reflexivity |]. split; [reflexivity |]. split; [reflexivity |].
  exact (RegistryFacts.buildOperation_continues (H := queryFile)
           "POST" "" "Shop_Find" "Shop" "/find/:id" "example.com"
           structQuery structReply (mkGenerator [] [] []) _ _ _ eq_refl).
Defined.

Lemma worklist_keeps_registry_witness :
  exists g',
    expandRequiredSchemas (H := nestedFile) 4 (requiring "Outer") = Some (Ok g')
    /\ generatedSchemas g' = ["Outer"; "Inner"]
    /\ requiredSchemas g' = []
    /\ registered g'.
Proof.
  eexists. split; [reflexivity |]. split; [reflexivity |].
  destruct (RegistryFacts.worklist_keeps_registry (H := nestedFile) 4 (requiring "Outer") _
              eq_refl)
    as [Hempty [_ Hregistered]].
  split; [exact Hempty |].
  apply Hregistered. split; [reflexivity | constructor].
Defined.

Lemma worklist_closed_under_references_witness :
  exists g',
    expandRequiredSchemas (H := nestedFile) 4 (requiring "Outer") = Some (Ok g')
    /\ structRefs (H := nestedFile) structOuter = ["Inner"]
    /\ In "Outer" (generatedSchemas g')
    /\ In "Inner" (generatedSchemas g').
Proof.
  eexists. split; [reflexivity |]. split; [reflexivity |].
  destruct (RegistryFacts.worklist_closed_under_references (H := nestedFile) 4
              (requiring "Outer") _ eq_refl)
    as [Hrequired Hclosed].
  assert (Houter : In "Outer" (generatedSchemas
                                 (mkGenerator ["Outer"; "Inner"] []
                                    (componentSchemas
                                       match expandRequiredSchemas (H := nestedFile) 4
                                               (requiring "Outer") with
                                       | Some (Ok g) => g
                                       | _ => requiring "Outer"
                                       end)))) by (simpl; now left).
  split.
  - apply Hrequired; [simpl; now left |].
    exists structOuter. split; [simpl; now left | reflexivity].
  - destruct (Hclosed "Outer") as [structDesc [Hlook Hrefs]].
    + simpl. now left.
    + simpl. intros [].
    + injection Hlook as <-. apply Hrefs.
      * simpl. now left.
      * exists structInner. split; [simpl; right; now left | reflexivity].
Defined.

Lemma cyclic_structs_never_expand_witness :
  addSchemasForStructsToDocument (H := mutualFile) 5 [structA; structB] (requiring "A")
  <> Some (Ok (requiring "A")).
Proof.
  apply (ThriftGenFacts.cyclic_structs_never_expand (H := mutualFile)
           (fun s => s = structA \/ s = structB) ThriftExamples.mutual_structs_closed).
  constructor. now left.
Defined.

Lemma acyclic_structs_expansion_ends_witness :
  exists outcome,
    addSchemasForStructsToDocument (H := nestedFile) 2 [structOuter; structInner]
      (requiring "Outer")
    = Some outcome.
Proof.
  apply (RegistryFacts.acyclic_structs_expansion_ends (H := nestedFile) nestedFamily nestedRank).
  - intros s [-> | ->] s' Hin; simpl in Hin.
    + destruct Hin as [<- | []]. split; [now right | vm_compute; lia].
    + destruct Hin.
  - intros s [<- | [<- | []]].
    + split; [now left | vm_compute; lia].
    + split; [now right | vm_compute; lia].
Defined.

Lemma acyclic_worklist_ends_witness :
  exists outcome,
    expandRequiredSchemas (H := nestedFile) 5 (requiring "Outer") = Some outcome.
Proof.
  apply (RegistryFacts.acyclic_worklist_ends (H := nestedFile) nestedFamily nestedRank 1
           ["Outer"; "Inner"]).
  - intros s [-> | ->] s' Hin; simpl in Hin.
    + destruct Hin as [<- | []]. split; [now right | vm_compute; lia].
    + destruct Hin.
  - intros s [<- | [<- | []]].
    + split; [now left | vm_compute; lia].
    + split; [now right | vm_compute; lia].
  - intros s [-> | ->]; simpl; auto.
Defined.

Lemma parameters_follow_annotations_witness :
  exists op path' g',
    buildOperation (H := queryFile) "GET" "" "Shop_Find" "Shop" "/find/:id" ""
      structQuery structReply (mkGenerator [] [] [])
    = Ok (op, path', g')
    /\ map (fun parameter => (par_Name parameter, par_In parameter, par_Required parameter))
           (op_Parameters op)
       = [("X-Id", "header", true); ("limit", "query", false)]
    /\ Forall2 (parameterOf (H := queryFile))
         [nth 0 (sd_Fields structQuery) (plainField "" (TOther ""));
          nth 1 (sd_Fields structQuery) (plainField "" (TOther ""))]
         (op_Parameters op).
Proof.
  eexists _, _, _. split; [reflexivity |]. split; [reflexivity |].
  exact (RegistryFacts.parameters_follow_annotations (H := queryFile)
           "GET" "" "Shop_Find" "Shop" "/find/:id" ""
           structQuery structReply (mkGenerator [] [] []) _ _ _ eq_refl).
Defined.

Lemma operation_servers_and_responses_witness :
  exists op path' g',
    buildOperation (H := queryFile) "GET" "" "Shop_Find" "Shop" "/find/:id" "example.com"
      structQuery structReply (mkGenerator [] [] [])
    = Ok (op, path', g')
    /\ op_Servers op = ["http://example.com"]
    /\ option_map (map fst) (op_Responses op) = Some ["200"]
    /\ (op_Servers op = [] /\ "example.com" = ""
        \/ exists server,
             op_Servers op = [server] /\ "example.com" <> ""
             /\ (String.prefix "http://" server = true
                 \/ String.prefix "https://" server = true)
             /\ (server = "example.com" \/ server = "http://" +++ "example.com")).
Proof.
  eexists _, _, _. split; [reflexivity |]. split; [reflexivity |]. split; [reflexivity |].
  exact (proj1 (RegistryFacts.operation_servers_and_responses (H := queryFile)
                  "GET" "" "Shop_Find" "Shop" "/find/:id" "example.com"
                  structQuery structReply (mkGenerator [] [] []) _ _ _ eq_refl)).
Defined.

End RegistryExamples.

Module ServersExamples.

Import ThriftGen Servers ServersFixtures.

Lemma shared_server_hoisted_to_document_witness :
  d_Servers (hoistServers appendUnique twoPaths) = ["http://a"]
  /\ map (fun path => pi_Servers (snd path)) (d_Paths (hoistServers appendUnique twoPaths))
     = [[]; []]
  /\ map (fun path => map op_Servers (hoisted (snd path)))
         (d_Paths (hoistServers appendUnique twoPaths))
     = [[[]; []]; [[]]].
Proof.
  split; [| split; reflexivity].
  apply (ServersFacts.shared_server_hoisted_to_document appendUnique (fun _ _ => eq_refl)
           "http://a" twoPaths).
  - intros name item op [Heq | [Heq | []]] Hop; injection Heq as <- <-; simpl in Hop;
      repeat (destruct Hop as [<- | Hop]; [first [now left | now right] |]); destruct Hop.
  - exists "/a", (mkPathItem (Some (served "Shop_Get" ["http://a"]))
                             (Some (served "Shop_Post" ["http://a"]))
                             None None None None None []),
           (served "Shop_Get" ["http://a"]).
    split; [now left |]. split; [simpl; now left | reflexivity].
Defined.

End ServersExamples.
